(** * A data-processing pipeline: one producer, a pool of workers, two sinks

    Shallow embedding of [src/go/main.go] and, in [Module Java], of
    [src/java/DataProcessingSystem.java].

    The Go program is concurrent.  It is embedded as a labelled transition
    system: the global state holds the buffered channel, the two files, the
    WaitGroup counter and one control point per goroutine; a step is what
    one goroutine does between two scheduling points on a shared object (a
    channel operation, a file write, a WaitGroup operation).  The scheduler
    and the environment (the clock read by [Logger.Log], the success or
    failure of a file write) are an explicit list of events, so every run
    can be replayed by evaluation.  Time is not represented: a sleep lasts
    for any number of steps of the other goroutines.

    Left out: what the program prints on standard output, the random
    length of the simulated delay, and the failure of the two [os.Create]
    calls (the program stops before anything else happens).
    [displaySummary] is not a step of the transition system: it is
    embedded on its own, further down, as a function of the results file
    and of what the environment answers when the file is opened and
    read. *)

From Stdlib Require Import ZArith String Ascii List Lia Bool.
From Stdlib Require Import DecimalString DecimalPos DecimalZ.
From stdpp Require Import base tactics option list.

Import ListNotations.
Local Open Scope string_scope.
Local Open Scope list_scope.
Local Open Scope Z_scope.

Notation "s1 +++ s2" := (String.append s1 s2)
  (at level 60, right associativity) : string_scope.

(** ** Machine integers

    Go's [int] on the 64-bit platforms the program targets: a signed 64-bit
    integer whose arithmetic wraps around. *)

Definition int_bits : Z := 64.
Definition max_int : Z := 2 ^ (int_bits - 1) - 1.
Definition min_int : Z := - 2 ^ (int_bits - 1).

Definition wrap (z : Z) : Z :=
  (z + 2 ^ (int_bits - 1)) mod 2 ^ int_bits - 2 ^ (int_bits - 1).

Definition in_int (z : Z) : Prop := min_int <= z <= max_int.

(** ** Formatting

    [itoa] is what the verb [%d] prints; [Sprintf] interprets the verbs
    the program uses ([%d], [%s], and [%v]/[%w] on an error, which print
    its message). *)

Definition itoa (z : Z) : string := NilZero.string_of_int (Z.to_int z).

Inductive arg : Type :=
| ArgInt (z : Z)
| ArgStr (s : string).

Definition render (verb : ascii) (a : arg) : string :=
  match a with
  | ArgInt z => itoa z
  | ArgStr s => s
  end.

Fixpoint Sprintf (fmt : string) (args : list arg) : string :=
  match fmt with
  | EmptyString => EmptyString
  | String "%" (String verb rest) =>
      match args with
      | a :: args' => render verb a +++ Sprintf rest args'
      | [] => "%!" +++ String verb ("(MISSING)" +++ Sprintf rest [])
      end
  | String c rest => String c (Sprintf rest args)
  end.

(** Go's [error] values are observed through their message only. *)
Definition error : Type := string.

Definition Errorf (fmt : string) (args : list arg) : error := Sprintf fmt args.

(** ** Task *)

Record Task : Type := mkTask {
  ID : Z;
  Description : string;
  DataValue : Z;
}.

Definition Task_String (t : Task) : string :=
  Sprintf "Task[id=%d, description='%s', data=%d]"
          [ArgInt (ID t); ArgStr (Description t); ArgInt (DataValue t)].

(** The zero value a receive on a closed, drained channel yields. *)
Definition zeroTask : Task := mkTask 0 EmptyString 0.

(** ** Buffered channels and [TaskQueue]

    A call on a shared object either returns, blocks the calling
    goroutine (the step is not enabled and the scheduler must pick another
    goroutine), or panics. *)

Inductive outcome (A : Type) : Type :=
| Ret (a : A)
| Block
| Panic (msg : string).
Arguments Ret {A} a.
Arguments Block {A}.
Arguments Panic {A} msg.

Record chan : Type := mkChan {
  buf : list Task;
  cap : Z;
  closed : bool;
}.

Definition make_chan (capacity : Z) : outcome chan :=
  if capacity <? 0 then Panic "makechan: size out of range"
  else Ret (mkChan [] capacity false).


(** [ch <- t] *)
Definition chan_send (ch : chan) (t : Task) : outcome chan :=
  if closed ch then Panic "send on closed channel"
  else if Z.of_nat (length (buf ch)) <? cap ch
       then Ret (mkChan (buf ch ++ [t]) (cap ch) (closed ch))
       else Block.

(** [t, ok := <-ch] *)
Definition chan_recv (ch : chan) : outcome (Task * bool * chan) :=
  match buf ch with
  | t :: rest => Ret (t, true, mkChan rest (cap ch) (closed ch))
  | [] => if closed ch then Ret (zeroTask, false, ch) else Block
  end.

(** [close(ch)] *)
Definition chan_close (ch : chan) : outcome chan :=
  if closed ch then Panic "close of closed channel"
  else Ret (mkChan (buf ch) (cap ch) true).

Record TaskQueue : Type := mkTaskQueue { tasks : chan }.

Definition NewTaskQueue (capacity : Z) : outcome TaskQueue :=
  match make_chan capacity with
  | Ret ch => Ret (mkTaskQueue ch)
  | Block => Block
  | Panic m => Panic m
  end.

Definition AddTask (tq : TaskQueue) (task : Task) : outcome TaskQueue :=
  match chan_send (tasks tq) task with
  | Ret ch => Ret (mkTaskQueue ch)
  | Block => Block
  | Panic m => Panic m
  end.

Definition GetTask (tq : TaskQueue) : outcome (Task * bool * TaskQueue) :=
  match chan_recv (tasks tq) with
  | Ret (task, ok, ch) => Ret (task, ok, mkTaskQueue ch)
  | Block => Block
  | Panic m => Panic m
  end.

Definition Close (tq : TaskQueue) : outcome TaskQueue :=
  match chan_close (tasks tq) with
  | Ret ch => Ret (mkTaskQueue ch)
  | Block => Block
  | Panic m => Panic m
  end.

(** ** Files

    A file is the list of the pieces written to it, oldest first; its
    content is what they make end to end.  Whether a write succeeds is
    decided by the environment.  [io = None] is a successful write: the
    whole chunk is appended.  [io = Some (mkFailure err n)] is a write that
    fails with [err] after the first [n] bytes of the chunk have reached
    the file: a failed write leaves a part of the chunk behind, always
    less than the whole chunk and possibly nothing. *)

Definition file : Type := list string.

Definition newline : string := String (ascii_of_nat 10) EmptyString.

Record failure : Type := mkFailure {
  reason : error;
  reached : nat;
}.

Fixpoint take_string (n : nat) (s : string) : string :=
  match n, s with
  | S n', String c rest => String c (take_string n' rest)
  | _, _ => EmptyString
  end.

(** What a write that fails after [n] bytes leaves of [chunk]. *)
Definition fragment (n : nat) (chunk : string) : string :=
  take_string (Nat.min n (String.length chunk - 1)) chunk.

Definition file_write (io : option failure) (f : file) (chunk : string)
  : file * option error :=
  match io with
  | None => (f ++ [chunk], None)
  | Some fl => (f ++ [fragment (reached fl) chunk], Some (reason fl))
  end.

(** [p] is a part of [s] from its start, and not the whole of it. *)
Definition proper_prefix (p s : string) : Prop :=
  exists rest, rest <> EmptyString /\ s = p +++ rest.

(** The piece that a write of [chunk] returning [err] leaves in a file. *)
Definition piece_of (chunk : string) (err : option error) (piece : string) : Prop :=
  match err with
  | None => piece = chunk
  | Some _ => proper_prefix piece chunk
  end.

Definition content (f : file) : string := foldr String.append EmptyString f.

(** The lines of a text: its parts that end with a newline, each with its
    newline.  What follows the last newline is not a line.  [line] is the
    part of the current line already seen. *)
Fixpoint lines_from (line text : string) : list string :=
  match text with
  | EmptyString => []
  | String c rest =>
      if Ascii.eqb c (ascii_of_nat 10)
      then (line +++ newline) :: lines_from EmptyString rest
      else lines_from (line +++ String c EmptyString) rest
  end.

Definition lines_of (f : file) : list string := lines_from EmptyString (content f).

(** ** ResultWriter

    The mutex makes each method one atomic step; it is not represented. *)

Record ResultWriter : Type := mkResultWriter { rw_file : file }.

Definition WriteResult (io : option failure) (rw : ResultWriter) (result : string)
  : ResultWriter * option error :=
  let '(f, err) := file_write io (rw_file rw) (result +++ newline) in
  match err with
  | Some e => (mkResultWriter f, Some (Errorf "failed to write result: %w" [ArgStr e]))
  | None => (mkResultWriter f, None)
  end.

(** ** Logger

    [Log] has no result: all it gives back is the logger, and what it
    printed through the standard logger (on standard error) when the write
    failed.  The standard logger starts its line with the date and time,
    which it reads from the clock itself: [stamp]. *)

Record Logger : Type := mkLogger { log_file : file }.

Definition Log (now stamp : string) (io : option failure) (l : Logger) (message : string)
  : Logger * list string :=
  let timestamp := now in
  let logEntry := Sprintf ("[%s] %s" +++ newline) [ArgStr timestamp; ArgStr message] in
  let '(f, err) := file_write io (log_file l) logEntry in
  match err with
  | Some e =>
      (mkLogger f,
       [stamp +++ " " +++ Sprintf ("ERROR: Failed to write log: %v" +++ newline) [ArgStr e]])
  | None => (mkLogger f, [])
  end.

(** ** Worker.processTask

    The simulated delay only yields to the scheduler; the computation is
    on machine integers. *)

Definition processTask (w_ID : Z) (task : Task) : string * option error :=
  let processedValue := wrap (wrap (DataValue task * 2) + ID task) in
  let result :=
    Sprintf "Task %d processed by Worker-%d | Original: %d | Processed: %d"
            [ArgInt (ID task); ArgInt w_ID; ArgInt (DataValue task); ArgInt processedValue] in
  (result, None).

(** ** The running program

    Control points.  A goroutine sits at the shared operation it performs
    next; the local computation that follows is part of the same step. *)

Inductive main_pc : Type :=
| MInit                    (* Log "System initialization started", create the queue *)
| MPreload (i : Z)         (* loop head of preloadTasks: AddTask (task i) *)
| MPreloadLog (i : Z)      (* Log "Task i added to queue", then i++ *)
| MStartLog                (* Log "Starting N worker goroutines" *)
| MSpawn (i : Z)           (* loop head: wg.Add(1); go worker.Run(); after the loop, go func(){...} *)
| MWait                    (* wg.Wait() *)
| MLogCompleted            (* Log "All workers completed" *)
| MShutdown                (* displaySummary and the deferred calls *)
| MExit.

Inductive closer_pc : Type :=
| CNotStarted              (* the go statement of main has not run *)
| CSleeping                (* in time.Sleep, then taskQueue.Close() *)
| CClosed.

Inductive worker_pc : Type :=
| WStart                                      (* Log "... started" *)
| WFetch                                      (* GetTask *)
| WLogProcessing (task : Task)                (* Log "... processing ..." *)
| WProcess (task : Task)                      (* processTask, tasksProcessed++ *)
| WLogFailed (task : Task) (err : error)      (* err != nil: Log "ERROR: ... failed to process", continue *)
| WWrite (task : Task) (result : string)      (* WriteResult *)
| WLogWriteErr (task : Task) (err : error)    (* err != nil: Log "ERROR: ... failed to write result", continue *)
| WLogCompleted (task : Task)                 (* Log "... completed Task" *)
| WLogEmpty                                   (* !ok: Log "... found empty queue, finishing", break *)
| WLogFinished                                (* Log "... finished after processing n tasks" *)
| WExit                                       (* deferred wg.Done() *)
| WDone.

(** A worker goroutine: the [Worker] struct's [ID] (its other fields point
    to the shared objects of the state) and the locals of [Run]. *)
Record goroutine : Type := mkGoroutine {
  W_ID : Z;
  pc : worker_pc;
  tasksProcessed : Z;
}.

Record state : Type := mkState {
  main : main_pc;
  closer : closer_pc;
  pool : list goroutine;        (* the worker goroutines, in the order of their go statements *)
  taskQueue : TaskQueue;
  resultWriter : ResultWriter;
  logger : Logger;
  stderr : list string;
  wg : Z;                       (* the WaitGroup counter *)
}.

(** What a step does, as seen from outside. *)
Inductive label : Type :=
| LInternal
| LLog (message : string)
| LEnqueue (task : Task)
| LDequeue (w : Z) (task : Task)
| LDrained (w : Z)
| LCompute (w : Z) (task : Task) (result : string)
| LComputeErr (w : Z) (task : Task) (err : error)
| LWrite (w : Z) (task : Task) (result : string) (err : option error)
| LSpawn (w : Z)
| LSpawnCloser
| LClose
| LDone (w : Z) (count : Z).

Inductive actor : Type :=
| AMain
| ACloser
| AWorker (i : nat).

(** One scheduling decision, with what the environment answers to the
    step taken: the clock as [Log] reads it, the date and time the standard
    logger prints if it is called, and the fate of the file write if there
    is one. *)
Record event : Type := mkEvent {
  who : actor;
  now : string;
  stamp : string;
  io : option failure;
}.

Definition set_main (p : main_pc) (s : state) : state :=
  mkState p (closer s) (pool s) (taskQueue s) (resultWriter s) (logger s) (stderr s) (wg s).
Definition set_closer (c : closer_pc) (s : state) : state :=
  mkState (main s) c (pool s) (taskQueue s) (resultWriter s) (logger s) (stderr s) (wg s).
Definition set_pool (p : list goroutine) (s : state) : state :=
  mkState (main s) (closer s) p (taskQueue s) (resultWriter s) (logger s) (stderr s) (wg s).
Definition set_taskQueue (q : TaskQueue) (s : state) : state :=
  mkState (main s) (closer s) (pool s) q (resultWriter s) (logger s) (stderr s) (wg s).
Definition set_resultWriter (r : ResultWriter) (s : state) : state :=
  mkState (main s) (closer s) (pool s) (taskQueue s) r (logger s) (stderr s) (wg s).
Definition set_wg (n : Z) (s : state) : state :=
  mkState (main s) (closer s) (pool s) (taskQueue s) (resultWriter s) (logger s) (stderr s) n.

(** [logger.Log(message)] by the goroutine the event schedules. *)
Definition do_Log (e : event) (message : string) (s : state) : state :=
  let r := Log (now e) (stamp e) (io e) (logger s) message in
  mkState (main s) (closer s) (pool s) (taskQueue s) (resultWriter s) (fst r)
          (stderr s ++ snd r) (wg s).

Definition set_pc (p : worker_pc) (g : goroutine) : goroutine :=
  mkGoroutine (W_ID g) p (tasksProcessed g).

Definition put (i : nat) (g : goroutine) (s : state) : state :=
  set_pool (<[i:=g]> (pool s)) s.

Definition workerName (g : goroutine) : string :=
  Sprintf "Worker-%d" [ArgInt (W_ID g)].

(** *** Worker.Run *)

Definition Run_step (e : event) (i : nat) (g : goroutine) (s : state)
  : option (label * state) :=
  match pc g with
  | WStart =>
      let m := Sprintf "%s started" [ArgStr (workerName g)] in
      Some (LLog m, put i (set_pc WFetch g) (do_Log e m s))
  | WFetch =>
      match GetTask (taskQueue s) with
      | Ret (task, true, tq) =>
          Some (LDequeue (W_ID g) task,
                put i (set_pc (WLogProcessing task) g) (set_taskQueue tq s))
      | Ret (_, false, tq) =>
          Some (LDrained (W_ID g), put i (set_pc WLogEmpty g) (set_taskQueue tq s))
      | Block => None
      | Panic _ => None
      end
  | WLogProcessing task =>
      let m := Sprintf "%s processing %s" [ArgStr (workerName g); ArgStr (Task_String task)] in
      Some (LLog m, put i (set_pc (WProcess task) g) (do_Log e m s))
  | WProcess task =>
      match processTask (W_ID g) task with
      | (result, Some err) =>
          Some (LComputeErr (W_ID g) task err, put i (set_pc (WLogFailed task err) g) s)
      | (result, None) =>
          Some (LCompute (W_ID g) task result,
                put i (mkGoroutine (W_ID g) (WWrite task result)
                                   (wrap (tasksProcessed g + 1))) s)
      end
  | WLogFailed task err =>
      let m := Sprintf "ERROR: %s failed to process Task %d: %v"
                       [ArgStr (workerName g); ArgInt (ID task); ArgStr err] in
      Some (LLog m, put i (set_pc WFetch g) (do_Log e m s))
  | WWrite task result =>
      match WriteResult (io e) (resultWriter s) result with
      | (rw, Some err) =>
          Some (LWrite (W_ID g) task result (Some err),
                put i (set_pc (WLogWriteErr task err) g) (set_resultWriter rw s))
      | (rw, None) =>
          Some (LWrite (W_ID g) task result None,
                put i (set_pc (WLogCompleted task) g) (set_resultWriter rw s))
      end
  | WLogWriteErr task err =>
      let m := Sprintf "ERROR: %s failed to write result for Task %d: %v"
                       [ArgStr (workerName g); ArgInt (ID task); ArgStr err] in
      Some (LLog m, put i (set_pc WFetch g) (do_Log e m s))
  | WLogCompleted task =>
      let m := Sprintf "%s completed Task %d" [ArgStr (workerName g); ArgInt (ID task)] in
      Some (LLog m, put i (set_pc WFetch g) (do_Log e m s))
  | WLogEmpty =>
      let m := Sprintf "%s found empty queue, finishing" [ArgStr (workerName g)] in
      Some (LLog m, put i (set_pc WLogFinished g) (do_Log e m s))
  | WLogFinished =>
      let m := Sprintf "%s finished after processing %d tasks"
                       [ArgStr (workerName g); ArgInt (tasksProcessed g)] in
      Some (LLog m, put i (set_pc WExit g) (do_Log e m s))
  | WExit =>
      if wg s - 1 <? 0 then None   (* sync: negative WaitGroup counter *)
      else Some (LDone (W_ID g) (tasksProcessed g), put i (set_pc WDone g) (set_wg (wg s - 1) s))
  | WDone => None
  end.

(** *** The goroutine that closes the queue *)

Definition closer_step (s : state) : option (label * state) :=
  match closer s with
  | CSleeping =>
      match Close (taskQueue s) with
      | Ret tq => Some (LClose, set_closer CClosed (set_taskQueue tq s))
      | _ => None
      end
  | _ => None
  end.

Section Program.

(** The two constants of the program ([NUM_WORKERS = 5], [NUM_TASKS = 20]
    in the source) are kept abstract. *)
Variables NUM_WORKERS NUM_TASKS : Z.

(** The task the [i]-th iteration of [preloadTasks] builds. *)
Definition preload_task (i : Z) : Task :=
  mkTask i (Sprintf "Process data item %d" [ArgInt i]) (wrap (i * 100)).

(** *** main, with preloadTasks inlined *)

Definition main_step (e : event) (s : state) : option (label * state) :=
  match main s with
  | MInit =>
      let m := "System initialization started" in
      match NewTaskQueue NUM_TASKS with
      | Ret tq => Some (LLog m, set_main (MPreload 1) (set_taskQueue tq (do_Log e m s)))
      | _ => None
      end
  | MPreload i =>
      if i <=? NUM_TASKS then
        match AddTask (taskQueue s) (preload_task i) with
        | Ret tq => Some (LEnqueue (preload_task i),
                          set_main (MPreloadLog i) (set_taskQueue tq s))
        | _ => None
        end
      else Some (LInternal, set_main MStartLog s)
  | MPreloadLog i =>
      let m := Sprintf "Task %d added to queue" [ArgInt i] in
      Some (LLog m, set_main (MPreload (wrap (i + 1))) (do_Log e m s))
  | MStartLog =>
      let m := Sprintf "Starting %d worker goroutines" [ArgInt NUM_WORKERS] in
      Some (LLog m, set_main (MSpawn 1) (do_Log e m s))
  | MSpawn i =>
      if i <=? NUM_WORKERS then
        Some (LSpawn i,
              set_main (MSpawn (wrap (i + 1)))
                (set_pool (pool s ++ [mkGoroutine i WStart 0]) (set_wg (wg s + 1) s)))
      else Some (LSpawnCloser, set_main MWait (set_closer CSleeping s))
  | MWait =>
      if wg s =? 0 then Some (LInternal, set_main MLogCompleted s) else None
  | MLogCompleted =>
      let m := "All workers completed" in
      Some (LLog m, set_main MShutdown (do_Log e m s))
  | MShutdown =>
      let m := "System shutdown complete" in
      Some (LLog m, set_main MExit (do_Log e m s))
  | MExit => None
  end.

(** The queue variable does not exist before [MInit] creates it; until
    then the state holds an empty channel nobody can reach. *)
Definition init : state :=
  mkState MInit CNotStarted [] (mkTaskQueue (mkChan [] 0 false))
          (mkResultWriter []) (mkLogger []) [] 0.

(** A goroutine whose call blocks has no step until another goroutine
    has changed the shared object; a panic ends the program, and so does
    the return of [main]: no goroutine steps any more. *)
Definition step (e : event) (s : state) : option (label * state) :=
  match main s with
  | MExit => None
  | _ =>
      match who e with
      | AMain => main_step e s
      | ACloser => closer_step s
      | AWorker i =>
          match pool s !! i with
          | Some g => Run_step e i g s
          | None => None
          end
      end
  end.

(** A run: the events are taken in order; the result is the trace of
    labels and the state reached, or [None] if some event schedules a
    goroutine that cannot step. *)
Fixpoint exec (evs : list event) (s : state) : option (list label * state) :=
  match evs with
  | [] => Some ([], s)
  | e :: evs' =>
      match step e s with
      | Some (l, s') =>
          match exec evs' s' with
          | Some (tr, s'') => Some (l :: tr, s'')
          | None => None
          end
      | None => None
      end
  end.

End Program.



(** ** Reading a trace *)

Definition enqueued (tr : list label) : list Task :=
  tr ≫= (fun l => match l with LEnqueue t => [t] | _ => [] end).

Definition dequeued (tr : list label) : list (Z * Task) :=
  tr ≫= (fun l => match l with LDequeue w t => [(w, t)] | _ => [] end).

(** Tasks whose computation failed (the [err != nil] branch of [Run]). *)
Definition compute_failed (tr : list label) : list Task :=
  tr ≫= (fun l => match l with LComputeErr _ t _ => [t] | _ => [] end).

(** Calls of [WriteResult] that returned, with and without an error. *)
Definition write_attempts (tr : list label) : list Task :=
  tr ≫= (fun l => match l with LWrite _ t _ _ => [t] | _ => [] end).

(** The result each of these calls was given and the error it returned. *)
Definition write_results (tr : list label) : list (string * option error) :=
  tr ≫= (fun l => match l with LWrite _ _ r err => [(r, err)] | _ => [] end).

Definition written (tr : list label) : list (Z * Task * string) :=
  tr ≫= (fun l => match l with LWrite w t r None => [(w, t, r)] | _ => [] end).

Definition failed_writes (tr : list label) : list (Z * Task * error) :=
  tr ≫= (fun l => match l with LWrite w t _ (Some err) => [(w, t, err)] | _ => [] end).

(** The counts the workers reported when they terminated. *)
Definition reported (tr : list label) : list Z :=
  tr ≫= (fun l => match l with LDone _ n => [n] | _ => [] end).

Definition spawned (tr : list label) : list Z :=
  tr ≫= (fun l => match l with LSpawn w => [w] | _ => [] end).

(** ** Reading a state *)

(** The task a worker has taken from the queue and not yet handed to
    [WriteResult]. *)
Definition holding_of (g : goroutine) : list Task :=
  match pc g with
  | WLogProcessing t | WProcess t | WWrite t _ => [t]
  | _ => []
  end.

Definition writing_of (g : goroutine) : list Task :=
  match pc g with
  | WWrite t _ => [t]
  | _ => []
  end.

Definition holding (s : state) : list Task := pool s ≫= holding_of.
Definition writing (s : state) : list Task := pool s ≫= writing_of.

Definition sumZ (l : list Z) : Z := foldr Z.add 0 l.

(** The sum over all workers of their [tasksProcessed] counter. *)
Definition total_processed (s : state) : Z := sumZ (tasksProcessed <$> pool s).

(** The lines of the results file: the parts of its content that end
    with a newline.  What a failed write left at the end of the file is
    not a line. *)
Definition result_lines (s : state) : list string := lines_of (rw_file (resultWriter s)).

Definition is_done (g : goroutine) : bool :=
  match pc g with WDone => true | _ => false end.

Definition left_loop (g : goroutine) : bool :=
  match pc g with
  | WLogEmpty | WLogFinished | WExit | WDone => true
  | _ => false
  end.

(** Every worker has returned from [Run] and [main] has returned. *)
Definition terminated (s : state) : Prop :=
  main s = MExit.

Definition past_preload (p : main_pc) : bool :=
  match p with
  | MInit | MPreload _ | MPreloadLog _ => false
  | _ => true
  end.

Definition past_spawn (p : main_pc) : bool :=
  match p with
  | MInit | MPreload _ | MPreloadLog _ | MStartLog | MSpawn _ => false
  | _ => true
  end.

Definition past_wait (p : main_pc) : bool :=
  match p with
  | MLogCompleted | MShutdown | MExit => true
  | _ => false
  end.

(** ** The output format, as the specification words it *)

Definition result_line (id workerId value processedValue : Z) : string :=
  "Task " +++ itoa id +++ " processed by Worker-" +++ itoa workerId
  +++ " | Original: " +++ itoa value +++ " | Processed: " +++ itoa processedValue.

(** The task with id [i] and value [i * 100]. *)
Definition spec_task (i : Z) : Task :=
  mkTask i ("Process data item " +++ itoa i) (i * 100).

(** Reading the task id back from a line of the results file. *)

Definition is_sign_or_digit (c : ascii) : bool :=
  match c with
  | "-" | "0" | "1" | "2" | "3" | "4" | "5" | "6" | "7" | "8" | "9" => true
  | _ => false
  end%char.

Fixpoint leading_number (s : string) : string :=
  match s with
  | EmptyString => EmptyString
  | String c rest =>
      if is_sign_or_digit c then String c (leading_number rest) else EmptyString
  end.

Fixpoint strip_prefix (p s : string) : option string :=
  match p, s with
  | EmptyString, _ => Some s
  | String a p', String b s' => if Ascii.eqb a b then strip_prefix p' s' else None
  | String _ _, EmptyString => None
  end.

Definition line_task_id (line : string) : option Z :=
  match strip_prefix "Task " line with
  | Some rest =>
      match NilZero.int_of_string (leading_number rest) with
      | Some d => Some (Z.of_int d)
      | None => None
      end
  | None => None
  end.

(** The ids of all lines, if every line carries one. *)
Definition line_task_ids (lines : list string) : option (list Z) :=
  mapM line_task_id lines.

(** ** A scheduler, to build runs

    Goroutines are tried in turn, starting each time one place further;
    the environment [mk] answers each step. *)

Definition actors (s : state) : list actor :=
  AMain :: ACloser :: (AWorker <$> seq 0 (length (pool s))).

Fixpoint pick (N T : Z) (mk : actor -> event) (l : list actor) (s : state)
  : option event :=
  match l with
  | [] => None
  | a :: l' =>
      match step N T (mk a) s with
      | Some _ => Some (mk a)
      | None => pick N T mk l' s
      end
  end.

Fixpoint schedule (N T : Z) (fuel : nat) (mk : state -> actor -> event) (s : state)
  : list event :=
  match fuel with
  | O => []
  | S fuel' =>
      match pick N T (mk s) (rotate fuel (actors s)) s with
      | Some e =>
          match step N T e s with
          | Some (_, s') => e :: schedule N T fuel' mk s'
          | None => []
          end
      | None => []
      end
  end.

Definition at_time (a : actor) (io : option failure) : event :=
  mkEvent a "2025-11-02 10:00:00.000" "2025/11/02 10:00:00" io.

(** An environment in which no write fails. *)
Definition quiet : state -> actor -> event :=
  fun _ a => at_time a None.

(** An environment in which the result write of the task with id [id]
    fails after [n] bytes. *)
Definition tearing_on (id : Z) (n : nat) : state -> actor -> event :=
  fun s a =>
    match a with
    | AWorker i =>
        match pc <$> pool s !! i with
        | Some (WWrite t _) =>
            if ID t =? id then at_time a (Some (mkFailure "disk full" n))
            else at_time a None
        | _ => at_time a None
        end
    | _ => at_time a None
    end.

(** The injected failure of the specification's Scenario D: the write
    fails after six bytes. *)
Definition failing_on (id : Z) : state -> actor -> event := tearing_on id 6.

(** An environment in which every write to the log file fails, after
    eleven bytes, and no other write does. *)
Definition log_failing : state -> actor -> event :=
  fun s a =>
    match a with
    | AWorker i =>
        match pc <$> pool s !! i with
        | Some (WWrite _ _) => at_time a None
        | _ => at_time a (Some (mkFailure "no space left on device" 11))
        end
    | _ => at_time a (Some (mkFailure "no space left on device" 11))
    end.

(** ** The Java implementation

    [src/java/DataProcessingSystem.java].  Its queue is a [LinkedList]
    behind a lock, with no close operation; its worker has the same loop.
    One thread's code is embedded in a state monad over the objects it
    shares; the environment's answers (clock, fate of a write, whether a
    sleep is interrupted) are consumed from a list, one per call.  The
    buffer of a [BufferedWriter] is not represented: [flush] follows each
    [write], and what was written is in the file. *)

Module Java.

Definition int_bits : Z := 32.

Definition wrap (z : Z) : Z :=
  (z + 2 ^ (int_bits - 1)) mod 2 ^ int_bits - 2 ^ (int_bits - 1).

Definition MAX_VALUE : Z := 2 ^ (int_bits - 1) - 1.

Record TaskQueue : Type := mkTaskQueue { queue : list Task }.

Record answer : Type := mkAnswer {
  a_now : string;
  a_io : option failure;        (* Some fl: the call throws IOException(reason fl) *)
  a_interrupted : bool;         (* the sleep throws InterruptedException *)
}.

Definition fine : answer := mkAnswer "2025-11-02 10:00:00.000" None false.

Record world : Type := mkWorld {
  taskQueue : TaskQueue;
  resultWriter : file;          (* ResultWriter.writer *)
  logger : file;                (* Logger.writer *)
  System_err : list string;
  answers : list answer;
}.

Definition M (A : Type) : Type := world -> A * world.

Definition ret {A} (a : A) : M A := fun w => (a, w).
Definition bind {A B} (m : M A) (k : A -> M B) : M B :=
  fun w => let '(a, w') := m w in k a w'.

Notation "'call' x <- m ;; k" := (bind m (fun x => k))
  (at level 10, x name, m at level 99, k at level 200, only parsing).

(** The environment's answer to the next call. *)
Definition ask : M answer :=
  fun w =>
    match answers w with
    | a :: rest =>
        (a, mkWorld (taskQueue w) (resultWriter w) (logger w) (System_err w) rest)
    | [] => (fine, w)
    end.

(** [TaskQueue.addTask]: [queue.offer(task)] under the lock. *)
Definition addTask (task : Task) : M unit :=
  fun w =>
    (tt, mkWorld (mkTaskQueue (queue (taskQueue w) ++ [task]))
                 (resultWriter w) (logger w) (System_err w) (answers w)).

(** [TaskQueue.getTask]: [queue.poll()] under the lock; [None] is [null]. *)
Definition poll (tq : TaskQueue) : option Task * TaskQueue :=
  match queue tq with
  | [] => (None, tq)
  | t :: rest => (Some t, mkTaskQueue rest)
  end.

Definition getTask : M (option Task) :=
  fun w =>
    let '(t, tq) := poll (taskQueue w) in
    (t, mkWorld tq (resultWriter w) (logger w) (System_err w) (answers w)).

(** [ResultWriter.writeResult]; the result [Some msg] is the
    [IOException] it throws. *)
Definition writeResult (result : string) : M (option error) :=
  call a <- ask ;;
  fun w =>
    let '(f, err) := file_write (a_io a) (resultWriter w) (result +++ newline) in
    (err, mkWorld (taskQueue w) f (logger w) (System_err w) (answers w)).

(** [Logger.log]: the [IOException] is caught inside. *)
Definition log (message : string) : M unit :=
  call a <- ask ;;
  fun w =>
    let logEntry := "[" +++ a_now a +++ "] " +++ message in
    let '(f, err) := file_write (a_io a) (logger w) (logEntry +++ newline) in
    match err with
    | Some e =>
        (tt, mkWorld (taskQueue w) (resultWriter w) f
                     (System_err w ++ ["ERROR: Failed to write log: " +++ e +++ newline])
                     (answers w))
    | None => (tt, mkWorld (taskQueue w) (resultWriter w) f (System_err w) (answers w))
    end.

(** [System.err.println] *)
Definition System_err_println (x : string) : M unit :=
  fun w =>
    (tt, mkWorld (taskQueue w) (resultWriter w) (logger w)
                 (System_err w ++ [x +++ newline]) (answers w)).

(** [Worker.processTask] *)
Definition processTask (workerId : Z) (task : Task) : M string :=
  call a <- ask ;;
  if a_interrupted a then
    call _ <- log ("ERROR: Worker-" +++ itoa workerId +++ " interrupted during processing") ;;
    ret ("Task " +++ itoa (ID task) +++ " interrupted")
  else
    let processedValue := wrap (wrap (DataValue task * 2) + ID task) in
    ret ("Task " +++ itoa (ID task) +++ " processed by Worker-" +++ itoa workerId
         +++ " | Original: " +++ itoa (DataValue task)
         +++ " | Processed: " +++ itoa processedValue).

(** The [while (true)] loop of [Worker.run]; the result is the final
    [tasksProcessed], or [None] when the fuel runs out first. *)
Fixpoint run_loop (fuel : nat) (workerId : Z) (tasksProcessed : Z) : M (option Z) :=
  match fuel with
  | O => ret None
  | S fuel' =>
      let workerName := "Worker-" +++ itoa workerId in
      call task <- getTask ;;
      match task with
      | None =>
          call _ <- log (workerName +++ " found empty queue, finishing") ;;
          ret (Some tasksProcessed)
      | Some task =>
          call _ <- log (workerName +++ " processing " +++ Task_String task) ;;
          call result <- processTask workerId task ;;
          let tasksProcessed := wrap (tasksProcessed + 1) in
          call thrown <- writeResult result ;;
          call _ <- match thrown with
                    | None => log (workerName +++ " completed Task " +++ itoa (ID task))
                    | Some e =>
                        call _ <- log ("ERROR: " +++ workerName
                                       +++ " failed to write result for Task "
                                       +++ itoa (ID task) +++ ": " +++ e) ;;
                        System_err_println ("[" +++ workerName
                                            +++ "] ERROR: Failed to write result: " +++ e)
                    end ;;
          run_loop fuel' workerId tasksProcessed
      end
  end.

(** [Worker.run] *)
Definition run (fuel : nat) (workerId : Z) : M (option Z) :=
  let workerName := "Worker-" +++ itoa workerId in
  call _ <- log (workerName +++ " started") ;;
  call n <- run_loop fuel workerId 0 ;;
  match n with
  | Some tasksProcessed =>
      call _ <- log (workerName +++ " finished after processing "
                     +++ itoa tasksProcessed +++ " tasks") ;;
      ret n
  | None => ret None
  end.

(** The [for] loop of [preloadTasks]; [false] when the fuel runs out. *)
Fixpoint preload_loop (fuel : nat) (NUM_TASKS i : Z) : M bool :=
  match fuel with
  | O => ret false
  | S fuel' =>
      if i <=? NUM_TASKS then
        call _ <- addTask (mkTask i ("Process data item " +++ itoa i) (wrap (i * 100))) ;;
        call _ <- log ("Task " +++ itoa i +++ " added to queue") ;;
        preload_loop fuel' NUM_TASKS (wrap (i + 1))
      else ret true
  end.

Definition preloadTasks (NUM_TASKS : Z) : M bool :=
  preload_loop (S (Z.to_nat NUM_TASKS)) NUM_TASKS 1.

(** The state [main] starts from: an empty queue, empty files. *)
Definition start (answers : list answer) : world :=
  mkWorld (mkTaskQueue []) [] [] [] answers.

End Java.

(** ** Reachable states

    [reach tr s]: some run from [init] produces the trace [tr] and ends in
    [s]. *)

Inductive reach (N T : Z) : list label -> state -> Prop :=
| reach_init : reach N T [] init
| reach_step tr s e l s' :
    reach N T tr s -> step N T e s = Some (l, s') -> reach N T (tr ++ [l]) s'.


(** ** Invariants of the reachable states *)

(** Where [main] is, and what it has enqueued so far. *)
Definition main_inv (T : Z) (tr : list label) (s : state) : Prop :=
  match main s with
  | MInit => tr = []
  | MPreload i => 1 <= i <= T + 1 /\ enqueued tr = preload_task <$> seqZ 1 (i - 1)
  | MPreloadLog i => 1 <= i <= T /\ enqueued tr = preload_task <$> seqZ 1 i
  | _ => 0 <= T /\ enqueued tr = preload_task <$> seqZ 1 T
  end.

(** Which goroutines exist. *)
Definition goroutines_inv (s : state) : Prop :=
  (past_preload (main s) = false -> pool s = [] /\ main s <> MExit)
  /\ (closer s = CNotStarted <-> past_spawn (main s) = false)
  /\ (closed (tasks (taskQueue s)) = true <-> closer s = CClosed).

(** The channel is first-in first-out and loses nothing: what was
    enqueued is what was dequeued, in the same order, followed by what is
    still buffered. *)
Definition fifo_inv (tr : list label) (s : state) : Prop :=
  enqueued tr = (snd <$> dequeued tr) ++ buf (tasks (taskQueue s)).

(** Every dequeued task is held by a worker, or was handed to
    [WriteResult], or failed in [processTask]. *)
Definition conserve_inv (tr : list label) (s : state) : Prop :=
  snd <$> dequeued tr ≡ₚ write_attempts tr ++ compute_failed tr ++ holding s.

(** The counters count the calls of [WriteResult], made or imminent. *)
Definition count_inv (tr : list label) (s : state) : Prop :=
  total_processed s
  = Z.of_nat (length (write_attempts tr)) + Z.of_nat (length (writing s))
  /\ Forall (fun g => 0 <= tasksProcessed g) (pool s).

(** The results file holds one piece for each call of [WriteResult] that
    has returned, in the order of the calls: the result and a newline if
    the call returned no error, a proper part of that if it did. *)
Definition file_inv (tr : list label) (s : state) : Prop :=
  Forall2 (fun piece a => piece_of (fst a +++ newline) (snd a) piece)
          (rw_file (resultWriter s)) (write_results tr).

(** What a worker holds it has dequeued itself, and the result it is
    about to write is the one [processTask] computed. *)
Definition held_ok (tr : list label) (g : goroutine) : Prop :=
  In (W_ID g) (spawned tr)
  /\ match pc g with
     | WLogProcessing t | WProcess t => In (W_ID g, t) (dequeued tr)
     | WWrite t r => In (W_ID g, t) (dequeued tr) /\ r = fst (processTask (W_ID g) t)
     | WLogFailed _ _ => False
     | WLogEmpty | WLogFinished | WExit | WDone => In (LDrained (W_ID g)) tr
     | _ => True
     end.

Definition label_ok (tr : list label) (l : label) : Prop :=
  match l with
  | LWrite w t r _ => In w (spawned tr) /\ In (w, t) (dequeued tr) /\ r = fst (processTask w t)
  | LCompute w t r => In (w, t) (dequeued tr) /\ r = fst (processTask w t)
  | LComputeErr _ _ _ => False
  | LDone w _ => In (LDrained w) tr
  | _ => True
  end.

Definition workers_inv (tr : list label) (s : state) : Prop :=
  Forall (held_ok tr) (pool s) /\ Forall (label_ok tr) tr.

(** The WaitGroup counts the workers still running; a worker out of its
    loop has seen the channel closed and empty. *)
Definition running_of (g : goroutine) : Z := if is_done g then 0 else 1.

Definition wait_inv (s : state) : Prop :=
  wg s = sumZ (running_of <$> pool s)
  /\ (past_wait (main s) = true -> Forall (fun g => is_done g = true) (pool s))
  /\ (Exists (fun g => left_loop g = true) (pool s) ->
      closed (tasks (taskQueue s)) = true /\ buf (tasks (taskQueue s)) = []).

(** What the terminated workers have reported is what their counters
    hold. *)
Definition final_count (g : goroutine) : Z :=
  if is_done g then tasksProcessed g else 0.

Definition report_inv (tr : list label) (s : state) : Prop :=
  sumZ (reported tr) = sumZ (final_count <$> pool s).

(** The invariants that hold whatever the constants are. *)
Record Inv0 (tr : list label) (s : state) : Prop := mkInv0 {
  inv_goroutines : goroutines_inv s;
  inv_conserve : conserve_inv tr s;
  inv_file : file_inv tr s;
  inv_workers : workers_inv tr s;
  inv_wait : wait_inv s;
  inv_report : report_inv tr s;
}.

(** Those that need the loop counter of [preloadTasks] and the workers'
    counters not to overflow. *)
Record Inv (T : Z) (tr : list label) (s : state) : Prop := mkInv {
  inv_base : Inv0 tr s;
  inv_main : main_inv T tr s;
  inv_fifo : fifo_inv tr s;
  inv_count : count_inv tr s;
}.

(** The workers started so far are numbered from 1. *)
Definition spawn_inv (N : Z) (tr : list label) (s : state) : Prop :=
  W_ID <$> pool s = spawned tr
  /\ match main s with
     | MInit | MPreload _ | MPreloadLog _ | MStartLog => spawned tr = []
     | MSpawn i => 1 <= i <= Z.max N 0 + 1 /\ spawned tr = seqZ 1 (i - 1)
     | _ => spawned tr = seqZ 1 N
     end.

(** ** Runs to evaluate *)

Definition all_done (s : state) : bool := forallb is_done (pool s).

Definition trace_of (N T : Z) (evs : list event) : list label :=
  match exec N T evs init with
  | Some (tr, _) => tr
  | None => []
  end.

Definition state_of (N T : Z) (evs : list event) : state :=
  match exec N T evs init with
  | Some (_, s) => s
  | None => init
  end.

Definition going (a : actor) : event := at_time a None.
Definition failing (a : actor) : event := at_time a (Some (mkFailure "disk full" 6)).

(** One worker, one task (Scenario A of the specification): [main]
    preloads and starts the worker, the worker takes the task while [main]
    starts the closing goroutine, the queue is closed while the worker is
    busy, the worker finishes and [main] returns. *)
Definition run_A : list event :=
  going <$> [AMain; AMain; AMain; AMain; AMain; AMain;
             AWorker 0; AWorker 0; AMain; AWorker 0; ACloser;
             AWorker 0; AWorker 0; AWorker 0; AWorker 0;
             AWorker 0; AWorker 0; AWorker 0; AMain; AMain; AMain].

(** The same schedule, in which the worker's call of [WriteResult] (its
    fifth step) fails. *)
Definition run_A_failing : list event :=
  (going <$> [AMain; AMain; AMain; AMain; AMain; AMain;
              AWorker 0; AWorker 0; AMain; AWorker 0; ACloser; AWorker 0])
  ++ [failing (AWorker 0)]
  ++ (going <$> [AWorker 0; AWorker 0; AWorker 0; AWorker 0; AWorker 0;
                 AMain; AMain; AMain]).

(** Five workers, twenty tasks (the constants of the source), scheduled
    in turn; the result write of task 7 fails (Scenario D). *)
Definition run_D : list event := schedule 5 20 400 (failing_on 7) init.

(** The same, where the result write of task 12 fails after the six
    bytes [Task 1]. *)
Definition run_torn : list event := schedule 5 20 400 (tearing_on 12 6) init.

(** Five workers, twenty tasks, no failure (Scenario B). *)
Definition run_B : list event := schedule 5 20 400 quiet init.

(** The part of a trace before its first [LClose], and the part after. *)
Fixpoint split_at_close (tr : list label) : list label * list label :=
  match tr with
  | [] => ([], [])
  | LClose :: rest => ([], rest)
  | l :: rest => let '(before, after) := split_at_close rest in (l :: before, after)
  end.

(** Five workers, twenty tasks; every write to the log file fails. *)
Definition run_without_log : list event := schedule 5 20 400 log_failing init.

(** The Java program with one task, as one thread runs it: preload, then
    the worker. *)
Definition Java_scenario_A (answers : list Java.answer) : option Z * Java.world :=
  let '(_, w) := Java.preloadTasks 1 (Java.start answers) in
  Java.run 2 1 w.

(** ** Calls in sequence on a [TaskQueue]

    What a single goroutine gets when it calls [AddTask] on each task of
    a list, and [GetTask] a number of times, with no other goroutine in
    between. *)

Fixpoint AddTasks (tq : TaskQueue) (l : list Task) : outcome TaskQueue :=
  match l with
  | [] => Ret tq
  | t :: l' =>
      match AddTask tq t with
      | Ret tq' => AddTasks tq' l'
      | Block => Block
      | Panic m => Panic m
      end
  end.

Fixpoint GetTasks (n : nat) (tq : TaskQueue)
  : outcome (list (Task * bool) * TaskQueue) :=
  match n with
  | O => Ret ([], tq)
  | S n' =>
      match GetTask tq with
      | Ret (t, ok, tq') =>
          match GetTasks n' tq' with
          | Ret (l, tq'') => Ret ((t, ok) :: l, tq'')
          | Block => Block
          | Panic m => Panic m
          end
      | Block => Block
      | Panic m => Panic m
      end
  end.

(** ** countBytes and displaySummary

    [displaySummary] runs in [main] after [wg.Wait]; it opens the results
    file by its name and counts the line separators in it.  The
    environment answers the [os.Open] and each [file.Read]. *)

(** The [for ... range s] loop of [countBytes], from the value [count]
    has reached. *)
Fixpoint countBytes_loop (count : Z) (s : list Byte.byte) (b : Byte.byte) : Z :=
  match s with
  | [] => count
  | c :: s' => countBytes_loop (if Byte.eqb c b then wrap (count + 1) else count) s' b
  end.

Definition countBytes (s : list Byte.byte) (b : Byte.byte) : Z :=
  countBytes_loop 0 s b.

(** What one [file.Read(buf)] returns: [buf[:c]], and no error, [io.EOF]
    or another error. *)
Inductive read_result : Type :=
| ReadOk (chunk : list Byte.byte)
| ReadEOF (chunk : list Byte.byte)
| ReadErr (chunk : list Byte.byte) (err : error).

Definition lineSep : list Byte.byte := [Byte.x0a].

(** The [for] loop of [displaySummary]: the count it ends with, the
    logger and what [Log] sent to standard error; [None] when the reads
    given stop before the loop does. *)
Fixpoint read_loop (now stamp : string) (io : option failure) (reads : list read_result)
    (count : Z) (l : Logger) : option (Z * Logger * list string) :=
  match reads with
  | [] => None
  | ReadErr _ err :: _ =>
      let r := Log now stamp io l
                   (Sprintf "ERROR: Failed to read results file: %v" [ArgStr err]) in
      Some (count, fst r, snd r)
  | ReadOk chunk :: rest =>
      read_loop now stamp io rest (wrap (count + countBytes chunk (hd Byte.x00 lineSep))) l
  | ReadEOF chunk :: _ =>
      Some (wrap (count + countBytes chunk (hd Byte.x00 lineSep)), l, [])
  end.

(** [displaySummary]: the number it prints as [Total results processed]
    ([None] when it returns before printing it), the logger and what went
    to standard error. *)
Definition displaySummary (now stamp : string) (io : option failure)
    (opened : option error) (reads : list read_result) (l : Logger)
  : option (option Z * Logger * list string) :=
  match opened with
  | Some err =>
      let r := Log now stamp io l
                   (Sprintf "ERROR: Failed to open results file: %v" [ArgStr err]) in
      Some (None, fst r, snd r)
  | None =>
      match read_loop now stamp io reads 0 l with
      | Some (count, l', errs) => Some (Some count, l', errs)
      | None => None
      end
  end.

(** The bytes of a file. *)
Definition file_bytes (f : file) : list Byte.byte := f ≫= list_byte_of_string.

(** The bytes a sequence of reads delivers when it goes to the end of
    the file without an error. *)
Fixpoint bytes_read (reads : list read_result) : option (list Byte.byte) :=
  match reads with
  | [] => None
  | ReadOk chunk :: rest =>
      match bytes_read rest with
      | Some bs => Some (chunk ++ bs)
      | None => None
      end
  | ReadEOF chunk :: _ => Some chunk
  | ReadErr _ _ :: _ => None
  end.

(** The bytes read before the first error of a sequence of reads. *)
Fixpoint bytes_before_error (reads : list read_result) : option (list Byte.byte) :=
  match reads with
  | [] => None
  | ReadOk chunk :: rest =>
      match bytes_before_error rest with
      | Some bs => Some (chunk ++ bs)
      | None => None
      end
  | ReadEOF _ :: _ => None
  | ReadErr _ _ :: _ => Some []
  end.

(** The number of occurrences of a byte. *)
Definition occurrences (b : Byte.byte) (s : list Byte.byte) : nat :=
  length (filter (fun c => Byte.eqb c b = true) s).

(** A string without a line separator. *)
Definition no_newline (s : string) : Prop :=
  occurrences Byte.x0a (list_byte_of_string s) = 0%nat.

(** The results of the calls that returned no error. *)
Definition results_written (atts : list (string * option error)) : list string :=
  atts ≫= (fun a => match snd a with None => [fst a] | Some _ => [] end).

(** One file read in pieces of at most [size] bytes. *)
Fixpoint chunks (fuel : nat) (size : nat) (bs : list Byte.byte) : list read_result :=
  match fuel with
  | O => [ReadEOF []]
  | S fuel' =>
      match bs with
      | [] => [ReadEOF []]
      | _ => ReadOk (take size bs) :: chunks fuel' size (drop size bs)
      end
  end.

(** ** More trace readers *)

(** The messages passed to [Logger.Log]. *)
Definition logged (tr : list label) : list string :=
  tr ≫= (fun l => match l with LLog m => [m] | _ => [] end).

Definition drained (tr : list label) : list Z :=
  tr ≫= (fun l => match l with LDrained w => [w] | _ => [] end).

(** ** The length of a run

    [steps_left] is the number of steps a state is away from the end of
    the program: what [main], the closing goroutine and each worker have
    left to do, and five steps of some worker for each task in the queue
    (fetch, log, compute, write, log). *)

Definition worker_left (p : worker_pc) : Z :=
  match p with
  | WStart => 5
  | WFetch => 4
  | WLogProcessing _ => 8
  | WProcess _ => 7
  | WWrite _ _ => 6
  | WLogFailed _ _ | WLogWriteErr _ _ | WLogCompleted _ => 5
  | WLogEmpty => 3
  | WLogFinished => 2
  | WExit => 1
  | WDone => 0
  end.

Definition closer_left (c : closer_pc) : Z :=
  match c with
  | CClosed => 0
  | _ => 1
  end.

Definition main_left (N T : Z) (p : main_pc) : Z :=
  match p with
  | MInit => 7 * Z.max 0 T + 6 * Z.max 0 N + 7
  | MPreload i => 7 * Z.max 0 (T + 1 - i) + 6 * Z.max 0 N + 6
  | MPreloadLog i => 7 * Z.max 0 (T - i) + 6 * Z.max 0 N + 7
  | MStartLog => 6 * Z.max 0 N + 5
  | MSpawn i => 6 * Z.max 0 (N + 1 - i) + 4
  | MWait => 3
  | MLogCompleted => 2
  | MShutdown => 1
  | MExit => 0
  end.

Definition steps_left (N T : Z) (s : state) : Z :=
  main_left N T (main s) + closer_left (closer s)
  + sumZ ((fun g => worker_left (pc g)) <$> pool s)
  + 5 * Z.of_nat (length (buf (tasks (taskQueue s)))).

(** [logs_left]: the calls of [Logger.Log] still to come. *)

Definition worker_logs_left (p : worker_pc) : Z :=
  match p with
  | WStart => 3
  | WFetch => 2
  | WLogProcessing _ => 4
  | WProcess _ | WWrite _ _ => 3
  | WLogFailed _ _ | WLogWriteErr _ _ | WLogCompleted _ => 3
  | WLogEmpty => 2
  | WLogFinished => 1
  | WExit | WDone => 0
  end.

Definition main_logs_left (N T : Z) (p : main_pc) : Z :=
  match p with
  | MInit => 3 * Z.max 0 T + 3 * Z.max 0 N + 4
  | MPreload i => 3 * Z.max 0 (T + 1 - i) + 3 * Z.max 0 N + 3
  | MPreloadLog i => 3 * Z.max 0 (T - i) + 3 * Z.max 0 N + 4
  | MStartLog => 3 * Z.max 0 N + 3
  | MSpawn i => 3 * Z.max 0 (N + 1 - i) + 2
  | MWait | MLogCompleted => 2
  | MShutdown => 1
  | MExit => 0
  end.

Definition logs_left (N T : Z) (s : state) : Z :=
  main_logs_left N T (main s)
  + sumZ ((fun g => worker_logs_left (pc g)) <$> pool s)
  + 2 * Z.of_nat (length (buf (tasks (taskQueue s)))).

(** ** More invariants *)

(** The channel has the capacity [main] gave it. *)
Definition cap_inv (T : Z) (s : state) : Prop :=
  main s <> MInit -> cap (tasks (taskQueue s)) = T.

(** The entry [Log] writes. *)
Definition log_entry (now message : string) : string :=
  "[" +++ now +++ "] " +++ message +++ newline.

(** The line the standard logger prints when the write fails. *)
Definition log_complaint (stamp : string) (err : error) : string :=
  stamp +++ " ERROR: Failed to write log: " +++ err +++ newline.

(** [log_account ms f errs]: the calls of [Log] with the messages [ms], in
    this order, account for the pieces [f] of the log file and the lines
    [errs] on standard error.  A call leaves its entry in the file, or it
    leaves a proper part of its entry in the file and one line on standard
    error. *)
Inductive log_account : list string -> file -> list string -> Prop :=
| account_nil : log_account [] [] []
| account_written ms f errs now m :
    log_account ms f errs ->
    log_account (ms ++ [m]) (f ++ [log_entry now m]) errs
| account_failed ms f errs now stamp err piece m :
    log_account ms f errs ->
    proper_prefix piece (log_entry now m) ->
    log_account (ms ++ [m]) (f ++ [piece]) (errs ++ [log_complaint stamp err]).

Definition log_inv_of (tr : list label) (l : Logger) (errs : list string) : Prop :=
  log_account (logged tr) (log_file l) errs.

Definition log_inv (tr : list label) (s : state) : Prop :=
  log_inv_of tr (logger s) (stderr s).

(** The workers that have left their loop are those that found the
    queue drained, and the workers that are done are those that have
    reported. *)
Definition exits_inv (tr : list label) (s : state) : Prop :=
  Z.of_nat (length (drained tr))
  = sumZ ((fun g => if left_loop g then 1 else 0) <$> pool s)
  /\ Z.of_nat (length (reported tr))
     = sumZ ((fun g => if is_done g then 1 else 0) <$> pool s).

(** What a worker logs after a result write, failed or not. *)
Definition write_error_message (w : Z) (t : Task) (err : error) : string :=
  "ERROR: Worker-" +++ itoa w +++ " failed to write result for Task "
  +++ itoa (ID t) +++ ": " +++ err.

Definition completed_message (w : Z) (t : Task) : string :=
  "Worker-" +++ itoa w +++ " completed Task " +++ itoa (ID t).

(** The outcome of every result write is logged, or the worker is about
    to log it. *)
Definition outcome_inv (tr : list label) (s : state) : Prop :=
  (forall w t err,
      In (w, t, err) (failed_writes tr) ->
      In (write_error_message w t err) (logged tr)
      \/ exists g, In g (pool s) /\ W_ID g = w /\ pc g = WLogWriteErr t err)
  /\ (forall w t r,
         In (w, t, r) (written tr) ->
         In (completed_message w t) (logged tr)
         \/ exists g, In g (pool s) /\ W_ID g = w /\ pc g = WLogCompleted t).

(** The tasks a worker has dequeued. *)
Definition dequeued_by (w : Z) (tr : list label) : list Task :=
  tr ≫= (fun l => match l with
                  | LDequeue w' t => if w' =? w then [t] else []
                  | _ => []
                  end).

(** A task a worker holds and has not counted yet. *)
Definition uncounted (g : goroutine) : Z :=
  match pc g with
  | WLogProcessing _ | WProcess _ => 1
  | _ => 0
  end.

Definition finished_message (w n : Z) : string :=
  "Worker-" +++ itoa w +++ " finished after processing " +++ itoa n +++ " tasks".

(** A worker's counter counts the tasks it has dequeued itself; a
    worker past its last call of [Log] has logged its count; what a worker
    reported is what its counter holds; and only workers dequeue. *)
Definition own_ok (tr : list label) (g : goroutine) : Prop :=
  tasksProcessed g + uncounted g = Z.of_nat (length (dequeued_by (W_ID g) tr))
  /\ match pc g with
     | WExit | WDone => In (finished_message (W_ID g) (tasksProcessed g)) (logged tr)
     | _ => True
     end.

Definition done_ok (s : state) (l : label) : Prop :=
  match l with
  | LDone w n =>
      exists g, In g (pool s) /\ W_ID g = w /\ is_done g = true /\ tasksProcessed g = n
  | _ => True
  end.

Definition own_count_inv (tr : list label) (s : state) : Prop :=
  Forall (own_ok tr) (pool s)
  /\ Forall (done_ok s) tr
  /\ (forall w t, In (w, t) (dequeued tr) -> In w (spawned tr)).




(** A goroutine that can take a step, whatever the environment
    answers. *)
Definition enabled (N T : Z) (a : actor) (s : state) : Prop :=
  forall now stamp io, is_Some (step N T (mkEvent a now stamp io) s).

(** ** More runs to evaluate *)

(** The part of a trace before the first step on which a worker finds
    the queue closed and empty, and the part after. *)
Fixpoint split_at_drained (tr : list label) : list label * list label :=
  match tr with
  | [] => ([], [])
  | LDrained _ :: rest => ([], rest)
  | l :: rest => let '(before, after) := split_at_drained rest in (l :: before, after)
  end.

(** No worker, three tasks. *)
Definition run_no_worker : list event := schedule 0 3 40 quiet init.

(** The first hundred steps of the run of five workers on twenty
    tasks. *)
Definition run_B_begun : list event := take 100 run_B.

(** Answers to the Java program with one task in which the sleep of the
    compute step is interrupted. *)
Definition Java_interrupting : list Java.answer :=
  [Java.fine; Java.fine; Java.fine;
   Java.mkAnswer "2025-11-02 10:00:00.000" None true].

(** ** The Java queue, continued *)

Module JavaQueue.

(** [TaskQueue.size]: [LinkedList.size()], an [int]. *)
Definition size (tq : Java.TaskQueue) : Z :=
  Java.wrap (Z.of_nat (length (Java.queue tq))).

(** [TaskQueue.isEmpty]: [LinkedList.isEmpty()], which is [size() == 0]. *)
Definition isEmpty (tq : Java.TaskQueue) : bool := size tq =? 0.

(** [addTask] on each task of a list, then [getTask] a number of
    times, by one thread. *)
Fixpoint addTasks (l : list Task) : Java.M unit :=
  match l with
  | [] => Java.ret tt
  | t :: l' => Java.bind (Java.addTask t) (fun _ => addTasks l')
  end.

Fixpoint getTasks (n : nat) : Java.M (list (option Task)) :=
  match n with
  | O => Java.ret []
  | S n' =>
      Java.bind Java.getTask (fun t =>
      Java.bind (getTasks n') (fun l => Java.ret (t :: l)))
  end.

End JavaQueue.

(** An environment in which no write fails and no sleep is
    interrupted. *)
Definition Java_calm (w : Java.world) : Prop :=
  Forall (fun a => Java.a_io a = None /\ Java.a_interrupted a = false) (Java.answers w).

(** The line the Java worker [workerId] writes for the task with id [i]
    and value [i * 100]. *)
Definition Java_line (workerId i : Z) : string :=
  result_line i workerId (i * 100) (i * 201) +++ newline.
(** * Properties *)

(** ** Evaluation checks *)

Example processTask_5 :
  processTask 3 (mkTask 5 "Process data item 5" 500)
  = ("Task 5 processed by Worker-3 | Original: 500 | Processed: 1005", None).
Proof. reflexivity. Qed.

Example Task_String_5 :
  Task_String (mkTask 5 "Process data item 5" 500)
  = "Task[id=5, description='Process data item 5', data=500]".
Proof. reflexivity. Qed.

Example itoa_neg : itoa (-42) = "-42" /\ itoa 0 = "0".
Proof. split; reflexivity. Qed.


(** ** Machine integers *)

Lemma wrap_small z : in_int z -> wrap z = z.
Proof.
  unfold in_int, wrap, min_int, max_int, int_bits. intros H.
  rewrite Z.mod_small; lia.
Qed.

Lemma wrap_add_l a b : wrap (wrap a + b) = wrap (a + b).
Proof.
  unfold wrap, int_bits. f_equal.
  replace ((a + 2 ^ (64 - 1)) mod 2 ^ 64 - 2 ^ (64 - 1) + b + 2 ^ (64 - 1))
    with ((a + 2 ^ (64 - 1)) mod 2 ^ 64 + b) by lia.
  rewrite Zplus_mod_idemp_l. f_equal. lia.
Qed.

Lemma wrap_in_int z : in_int (wrap z).
Proof.
  unfold in_int, wrap, min_int, max_int, int_bits.
  pose proof (Z.mod_pos_bound (z + 2 ^ (64 - 1)) (2 ^ 64)). lia.
Qed.

(** ** Formatting *)

Lemma append_empty_r s : s +++ EmptyString = s.
Proof. induction s as [|c s IH]; simpl; [done | by rewrite IH]. Qed.

Lemma append_assoc_str s1 s2 s3 : (s1 +++ s2) +++ s3 = s1 +++ s2 +++ s3.
Proof. induction s1 as [|c s1 IH]; simpl; [done | by rewrite IH]. Qed.

Lemma processTask_result_line w task :
  fst (processTask w task)
  = result_line (ID task) w (DataValue task)
                (wrap (wrap (DataValue task * 2) + ID task)).
Proof. unfold processTask, result_line. simpl. by rewrite append_empty_r. Qed.


(** ** Lists *)

Lemma insert_split {A} (l : list A) i x :
  l !! i = Some x ->
  exists l1 l2, l = l1 ++ x :: l2 /\ forall y, <[i:=y]> l = l1 ++ y :: l2.
Proof.
  revert i. induction l as [|a l IH]; intros [|i] H; simplify_eq/=.
  - by exists [], l.
  - destruct (IH _ H) as (l1 & l2 & -> & Hins).
    exists (a :: l1), l2. split; [done|]. intros y. simpl. by rewrite Hins.
Qed.

Lemma bind_snoc {A B} (f : A -> list B) (l : list A) x :
  (l ++ [x]) ≫= f = (l ≫= f) ++ f x.
Proof. rewrite bind_app. simpl. by rewrite app_nil_r. Qed.

Lemma seqZ_snoc m n : 0 <= n -> seqZ m (n + 1) = seqZ m n ++ [m + n].
Proof.
  intros Hn. rewrite seqZ_app by lia. f_equal.
Qed.

Lemma sumZ_cons a l : sumZ (a :: l) = a + sumZ l.
Proof. reflexivity. Qed.

Lemma sumZ_app l1 l2 : sumZ (l1 ++ l2) = sumZ l1 + sumZ l2.
Proof. induction l1 as [|a l1 IH]; simpl; lia. Qed.

Lemma sumZ_nonneg l : Forall (fun z => 0 <= z) l -> 0 <= sumZ l.
Proof. induction 1; simpl; lia. Qed.

(** ** The queue operations *)

Lemma NewTaskQueue_Ret c tq :
  NewTaskQueue c = Ret tq -> 0 <= c /\ tq = mkTaskQueue (mkChan [] c false).
Proof.
  unfold NewTaskQueue, make_chan. destruct (Z.ltb_spec c 0); intros; simplify_eq.
  split; [lia | done].
Qed.

Lemma AddTask_Ret tq t tq' :
  AddTask tq t = Ret tq' ->
  closed (tasks tq) = false
  /\ Z.of_nat (length (buf (tasks tq))) < cap (tasks tq)
  /\ tq' = mkTaskQueue (mkChan (buf (tasks tq) ++ [t]) (cap (tasks tq)) false).
Proof.
  unfold AddTask, chan_send. destruct (closed (tasks tq)) eqn:Hc; [done|].
  destruct (Z.ltb_spec (Z.of_nat (length (buf (tasks tq)))) (cap (tasks tq)));
    intros; simplify_eq. done.
Qed.

Lemma GetTask_Ret tq t ok tq' :
  GetTask tq = Ret (t, ok, tq') ->
  (ok = true /\ buf (tasks tq) = t :: buf (tasks tq')
   /\ closed (tasks tq') = closed (tasks tq))
  \/ (ok = false /\ buf (tasks tq) = [] /\ closed (tasks tq) = true
      /\ t = zeroTask /\ tq' = tq).
Proof.
  unfold GetTask, chan_recv. destruct tq as [[b c cl]]; simpl.
  destruct b as [|t0 rest]; [destruct cl|]; intros; simplify_eq/=; auto 10.
Qed.

Lemma Close_Ret tq tq' :
  Close tq = Ret tq' ->
  closed (tasks tq) = false
  /\ tq' = mkTaskQueue (mkChan (buf (tasks tq)) (cap (tasks tq)) true).
Proof.
  unfold Close, chan_close. destruct (closed (tasks tq)) eqn:Hc; intros; by simplify_eq.
Qed.

(** ** Taking a step apart *)

Lemma step_inv N T e s l s' :
  step N T e s = Some (l, s') ->
  main s <> MExit
  /\ ((who e = AMain /\ main_step N T e s = Some (l, s'))
      \/ (who e = ACloser /\ closer_step s = Some (l, s'))
      \/ (exists i g, who e = AWorker i /\ pool s !! i = Some g
                      /\ Run_step e i g s = Some (l, s'))).
Proof.
  unfold step. intros H. split; [by destruct (main s)|].
  destruct (main s); try done; destruct (who e) as [| |k]; eauto;
    destruct (pool s !! k) as [g|] eqn:Hg; try done; right; right; eauto.
Qed.

(** What a step of a worker leaves alone. *)
Lemma Run_step_frame e i g s l s' :
  Run_step e i g s = Some (l, s') ->
  main s' = main s /\ closer s' = closer s
  /\ exists g', pool s' = <[i:=g']> (pool s) /\ W_ID g' = W_ID g.
Proof.
  unfold Run_step. intros H.
  destruct (pc g); repeat case_match; simplify_eq/=; eauto 10.
Qed.

(** ** The pool of workers *)

Lemma bind_insert_same {A B} (f : A -> list B) (l : list A) i x y :
  l !! i = Some x -> f y = f x -> <[i:=y]> l ≫= f = l ≫= f.
Proof.
  intros Hl Hf. destruct (insert_split _ _ _ Hl) as (l1 & l2 & -> & Hins).
  rewrite Hins, !bind_app, !bind_cons. by rewrite Hf.
Qed.

Lemma bind_insert_perm {A B} (f : A -> list B) (l : list A) i x y :
  l !! i = Some x -> (<[i:=y]> l ≫= f) ++ f x ≡ₚ (l ≫= f) ++ f y.
Proof.
  intros Hl. destruct (insert_split _ _ _ Hl) as (l1 & l2 & -> & Hins).
  rewrite Hins, !bind_app, !bind_cons.
  rewrite <- !app_assoc. f_equiv.
  rewrite (app_assoc (f x) _ (f y)), (Permutation_app_comm (f x ++ _) (f y)).
  f_equiv. apply Permutation_app_comm.
Qed.

Lemma sumZ_insert {A} (f : A -> Z) (l : list A) i x y :
  l !! i = Some x -> sumZ (f <$> <[i:=y]> l) = sumZ (f <$> l) - f x + f y.
Proof.
  intros Hl. destruct (insert_split _ _ _ Hl) as (l1 & l2 & -> & Hins).
  rewrite Hins, !fmap_app, !fmap_cons, !sumZ_app, !sumZ_cons. lia.
Qed.

Lemma sumZ_lookup_le {A} (f : A -> Z) (l : list A) i x :
  Forall (fun a => 0 <= f a) l -> l !! i = Some x -> f x <= sumZ (f <$> l).
Proof.
  intros Hall Hl. destruct (insert_split _ _ _ Hl) as (l1 & l2 & -> & _).
  apply Forall_app in Hall as [H1 H2]. apply Forall_cons in H2 as [Hx H2].
  rewrite fmap_app, fmap_cons, sumZ_app, sumZ_cons.
  assert (0 <= sumZ (f <$> l1)) by (apply sumZ_nonneg; by rewrite Forall_fmap).
  assert (0 <= sumZ (f <$> l2)) by (apply sumZ_nonneg; by rewrite Forall_fmap).
  lia.
Qed.

Lemma Exists_insert {A} (P : A -> Prop) (l : list A) i x y :
  l !! i = Some x -> Exists P (<[i:=y]> l) -> P y \/ (Exists P l).
Proof.
  intros Hl. destruct (insert_split _ _ _ Hl) as (l1 & l2 & -> & Hins).
  rewrite Hins, !Exists_app, !Exists_cons. tauto.
Qed.

Lemma Exists_lookup {A} (P : A -> Prop) (l : list A) i x :
  l !! i = Some x -> P x -> Exists P l.
Proof. intros Hl Hx. apply Exists_exists. exists x. split; [|done]. by eapply list_elem_of_lookup_2. Qed.

Lemma writing_le_holding l :
  (length (l ≫= writing_of) <= length (l ≫= holding_of))%nat.
Proof.
  induction l as [|g l IH]; [done|]. rewrite !bind_cons, !length_app.
  assert (length (writing_of g) <= length (holding_of g))%nat; [|lia].
  unfold writing_of, holding_of. destruct (pc g); simpl; lia.
Qed.

Lemma writing_lt_holding l i g t :
  l !! i = Some g -> holding_of g = [t] -> writing_of g = [] ->
  (S (length (l ≫= writing_of)) <= length (l ≫= holding_of))%nat.
Proof.
  intros Hl Hh Hw. destruct (insert_split _ _ _ Hl) as (l1 & l2 & -> & _).
  rewrite !bind_app, !bind_cons, !length_app, Hh, Hw. simpl.
  pose proof (writing_le_holding l1). pose proof (writing_le_holding l2). lia.
Qed.

(** ** Writing to a file *)

Lemma take_string_split n : forall s,
  exists rest, s = take_string n s +++ rest
               /\ ((n < String.length s)%nat -> rest <> EmptyString).
Proof.
  induction n as [|n IH]; intros [|c s]; cbn.
  - exists EmptyString. split; [done | lia].
  - exists (String c s). split; [done | done].
  - exists EmptyString. split; [done | lia].
  - destruct (IH s) as (rest & Hs & Hrest). exists rest. split.
    + by rewrite <- Hs.
    + intros Hn. apply Hrest. lia.
Qed.

Lemma fragment_proper n chunk :
  chunk <> EmptyString -> proper_prefix (fragment n chunk) chunk.
Proof.
  intros Hc. unfold fragment, proper_prefix.
  destruct (take_string_split (Nat.min n (String.length chunk - 1)) chunk)
    as (rest & Hs & Hrest).
  exists rest. split; [|done]. apply Hrest.
  destruct chunk; [done|]. cbn [String.length]. lia.
Qed.

Lemma line_nonempty r : r +++ newline <> EmptyString.
Proof. by destruct r. Qed.

Lemma file_write_piece io f chunk f' err :
  chunk <> EmptyString ->
  file_write io f chunk = (f', err) ->
  exists piece, f' = f ++ [piece] /\ piece_of chunk err piece.
Proof.
  unfold file_write. intros Hc H. destruct io as [fl|]; simplify_eq.
  - eexists. split; [done|]. by apply fragment_proper.
  - by eexists.
Qed.

(** ** Writing a result *)

Lemma WriteResult_ok io rw result rw' :
  WriteResult io rw result = (rw', None) ->
  io = None /\ rw_file rw' = rw_file rw ++ [result +++ newline].
Proof. unfold WriteResult, file_write. destruct io; intros; by simplify_eq. Qed.

Lemma WriteResult_err io rw result rw' err :
  WriteResult io rw result = (rw', Some err) ->
  exists fl,
    io = Some fl
    /\ err = "failed to write result: " +++ reason fl
    /\ rw_file rw' = rw_file rw ++ [fragment (reached fl) (result +++ newline)].
Proof.
  unfold WriteResult, file_write. destruct io as [fl|]; intros; simplify_eq.
  exists fl. split; [done|]. split; [|done].
  unfold Errorf. simpl. by rewrite append_empty_r.
Qed.

(** ** Writing a log entry *)

Lemma Sprintf_log_entry now m :
  Sprintf ("[%s] %s" +++ newline) [ArgStr now; ArgStr m] = log_entry now m.
Proof. unfold log_entry. by cbn. Qed.

Lemma Sprintf_log_complaint stamp err :
  stamp +++ " " +++ Sprintf ("ERROR: Failed to write log: %v" +++ newline) [ArgStr err]
  = log_complaint stamp err.
Proof. unfold log_complaint. by cbn. Qed.

Lemma Log_written now stamp l m :
  Log now stamp None l m = (mkLogger (log_file l ++ [log_entry now m]), []).
Proof. unfold Log, file_write. by rewrite Sprintf_log_entry. Qed.

Lemma Log_failed now stamp fl l m :
  Log now stamp (Some fl) l m
  = (mkLogger (log_file l ++ [fragment (reached fl) (log_entry now m)]),
     [log_complaint stamp (reason fl)]).
Proof.
  unfold Log, file_write. by rewrite Sprintf_log_entry, Sprintf_log_complaint.
Qed.

Lemma log_entry_nonempty now m : log_entry now m <> EmptyString.
Proof. done. Qed.

(** ** Preservation of the invariants *)

Ltac proj :=
  cbn [main closer pool taskQueue resultWriter logger stderr wg
       set_main set_closer set_pool set_taskQueue set_resultWriter set_wg
       do_Log put set_pc pc W_ID tasksProcessed tasks buf cap closed
       past_preload past_spawn past_wait] in *.

Ltac readers :=
  unfold enqueued, dequeued, compute_failed, write_attempts, write_results,
    written, failed_writes, spawned, reported in *;
  rewrite ?bind_snoc; cbn [mbind list_bind]; rewrite ?app_nil_r.

Ltac split_step H :=
  let Hne := fresh "Hne" in
  let Hwho := fresh "Hwho" in
  let i := fresh "i" in
  let g := fresh "g" in
  let Hg := fresh "Hg" in
  apply step_inv in H;
  destruct H as (Hne & [(Hwho & H) | [(Hwho & H) | (i & g & Hwho & Hg & H)]]).

Ltac use_facts :=
  repeat match goal with
         | H : NewTaskQueue _ = Ret _ |- _ =>
             let HT := fresh "HT" in
             apply NewTaskQueue_Ret in H; destruct H as [HT ->]
         | H : AddTask _ _ = Ret _ |- _ =>
             let Hopen := fresh "Hopen" in
             let Hroom := fresh "Hroom" in
             apply AddTask_Ret in H; destruct H as (Hopen & Hroom & ->)
         | H : Close _ = Ret _ |- _ =>
             let Hopen := fresh "Hopen" in
             apply Close_Ret in H; destruct H as (Hopen & ->)
         | H : GetTask _ = Ret (_, true, _) |- _ =>
             let Hbuf := fresh "Hbuf" in
             let Hclosed := fresh "Hclosed" in
             apply GetTask_Ret in H;
             destruct H as [(_ & Hbuf & Hclosed) | (? & _)]; [|done]
         | H : GetTask _ = Ret (_, false, _) |- _ =>
             let Hbuf := fresh "Hbuf" in
             let Hclosed := fresh "Hclosed" in
             apply GetTask_Ret in H;
             destruct H as [(? & _) | (_ & Hbuf & Hclosed & ? & ?)]; [done|]
         | H : (_ <=? _) = true |- _ => apply Z.leb_le in H
         | H : (_ <=? _) = false |- _ => apply Z.leb_gt in H
         | H : (_ <? _) = true |- _ => apply Z.ltb_lt in H
         | H : (_ <? _) = false |- _ => apply Z.ltb_ge in H
         | H : (_ =? _) = true |- _ => apply Z.eqb_eq in H
         | H : (_ =? _) = false |- _ => apply Z.eqb_neq in H
         | H : WriteResult _ _ _ = (_, None) |- _ =>
             let Hio := fresh "Hio" in
             let Hfile := fresh "Hfile" in
             apply WriteResult_ok in H; destruct H as [Hio Hfile]
         | H : WriteResult _ _ _ = (_, Some _) |- _ =>
             let Hio := fresh "Hio" in
             let Hfile := fresh "Hfile" in
             apply WriteResult_err in H; destruct H as (? & Hio & -> & Hfile)
         | H : processTask _ _ = (_, Some _) |- _ => by inversion H
         | H : processTask _ _ = (_, None) |- _ =>
             apply (f_equal fst) in H; cbn [fst] in H
         end.

Ltac cases_in H :=
  repeat match type of H with
         | context [match ?x with _ => _ end] => destruct x eqn:?
         end;
  simplify_eq; use_facts; simplify_eq; proj.

Ltac main_cases H :=
  unfold main_step in H;
  match type of H with
  | context [main ?s] => destruct (main s) eqn:?Hm
  end;
  cases_in H.

Ltac closer_cases H :=
  unfold closer_step in H;
  match type of H with
  | context [closer ?s] => destruct (closer s) eqn:?Hc
  end;
  cases_in H.

Ltac run_cases H :=
  unfold Run_step in H;
  match type of H with
  | context [pc ?g] => destruct (pc g) eqn:?Hpc
  end;
  cases_in H.

Lemma holding_of_pc g :
  holding_of g = match pc g with
                 | WLogProcessing t | WProcess t | WWrite t _ => [t]
                 | _ => []
                 end.
Proof. reflexivity. Qed.

Lemma writing_of_pc g :
  writing_of g = match pc g with WWrite t _ => [t] | _ => [] end.
Proof. reflexivity. Qed.

Ltac pool_perm f Hperm :=
  match goal with
  | Hg : pool ?s !! ?i = Some ?g |- context [<[?i:=?g']> (pool ?s)] =>
      pose proof (bind_insert_perm f _ _ _ g' Hg) as Hperm;
      rewrite ?holding_of_pc, ?writing_of_pc in Hperm; proj;
      match goal with Hpc : pc g = _ |- _ => rewrite ?Hpc in Hperm end;
      rewrite ?app_nil_r in Hperm
  end.

Ltac pool_same f :=
  match goal with
  | Hg : pool ?s !! ?i = Some ?g, Hpc : pc ?g = _ |- _ =>
      rewrite (bind_insert_same f _ _ _ _ Hg)
        by (rewrite ?holding_of_pc, ?writing_of_pc; proj; by rewrite Hpc)
  end.

Section PreservationBase.

Variables N T : Z.

Lemma closer_past_preload s :
  goroutines_inv s -> closer s <> CNotStarted -> past_preload (main s) = true.
Proof.
  intros (_ & Hc & _) Hne. destruct (main s); try done; cbn in Hc; tauto.
Qed.

Lemma worker_past_preload s i g :
  goroutines_inv s -> pool s !! i = Some g -> past_preload (main s) = true.
Proof.
  intros (Hp & _) Hg. destruct (past_preload (main s)); [done|].
  destruct (Hp eq_refl) as [Hnil _]. by rewrite Hnil in Hg.
Qed.

Lemma goroutines_inv_step s e l s' :
  goroutines_inv s -> step N T e s = Some (l, s') -> goroutines_inv s'.
Proof.
  intros Hgo H.
  pose proof Hgo as (Hp & Hc & Hcl). unfold goroutines_inv.
  split_step H.
  - main_cases H; (split; [|split]); try tauto; try done;
      try (intros _; split; [tauto | done]);
      split; intros Hx; try done; destruct Hc as [_ Hc];
      try specialize (Hc eq_refl); try congruence.
    apply Hcl in Hx. congruence.
  - closer_cases H.
    assert (past_preload (main s) = true) as Hpp
        by (apply closer_past_preload; [done | congruence]).
    split; [|split].
    + intros Hf. congruence.
    + rewrite <- Hc. split; intros; congruence.
    + done.
  - destruct (Run_step_frame _ _ _ _ _ _ H) as (Hm' & Hc' & _).
    pose proof (worker_past_preload _ _ _ Hgo Hg) as Hpp.
    rewrite Hm', Hc'. split; [|split]; [intros; congruence | done |].
    rewrite <- Hcl. run_cases H; try done. by rewrite Hclosed.
Qed.

Lemma conserve_inv_step tr s e l s' :
  conserve_inv tr s -> step N T e s = Some (l, s') -> conserve_inv (tr ++ [l]) s'.
Proof.
  intros Hcons H. unfold conserve_inv, holding in *.
  split_step H.
  - main_cases H; readers; rewrite ?bind_snoc, ?app_nil_r; try done.
  - closer_cases H. by readers.
  - run_cases H; readers; rewrite ?fmap_app, ?app_nil_r;
      try (pool_same holding_of; done); pool_perm holding_of Hperm.
    + rewrite Hcons, Hperm. cbn. by rewrite <- !app_assoc.
    + rewrite Hcons, <- Hperm. rewrite <- !app_assoc. f_equiv.
      cbn. rewrite app_assoc. by rewrite <- Permutation_cons_append.
    + rewrite Hcons, <- Hperm. rewrite <- !app_assoc. f_equiv.
      cbn. rewrite app_assoc. by rewrite <- Permutation_cons_append.
Qed.

Lemma file_inv_step tr s e l s' :
  file_inv tr s -> step N T e s = Some (l, s') -> file_inv (tr ++ [l]) s'.
Proof.
  intros Hfile H. unfold file_inv in *.
  split_step H.
  - main_cases H; by readers.
  - closer_cases H. by readers.
  - run_cases H; readers; try done.
    + rewrite Hfile0. apply Forall2_app; [done|].
      constructor; [|done]. apply fragment_proper, line_nonempty.
    + rewrite Hfile0. apply Forall2_app; [done|]. by constructor.
Qed.

Lemma held_ok_mono tr l g : held_ok tr g -> held_ok (tr ++ [l]) g.
Proof.
  unfold held_ok. intros [Hs Hpc]. split.
  - readers. apply in_or_app. by left.
  - destruct (pc g); try done; readers; rewrite ?in_app_iff; tauto.
Qed.

Lemma label_ok_mono tr l l0 : label_ok tr l0 -> label_ok (tr ++ [l]) l0.
Proof.
  unfold label_ok. destruct l0; try done; readers; rewrite ?in_app_iff; tauto.
Qed.

Lemma workers_inv_step tr s e l s' :
  workers_inv tr s -> step N T e s = Some (l, s') -> workers_inv (tr ++ [l]) s'.
Proof.
  intros [Hheld Hlab] H. unfold workers_inv.
  assert (Forall (held_ok (tr ++ [l])) (pool s)) as Hheld'
      by (eapply Forall_impl; [done | apply held_ok_mono]).
  assert (Forall (label_ok (tr ++ [l])) tr) as Hlab'
      by (eapply Forall_impl; [done | apply label_ok_mono]).
  rewrite Forall_app, Forall_singleton.
  split_step H.
  - main_cases H; (split; [|split]); try done.
    apply Forall_app. split; [done|]. apply Forall_singleton.
    split; [|done]. readers. apply in_or_app. right. by left.
  - closer_cases H. by split.
  - pose proof (Forall_lookup_1 _ _ _ _ Hheld Hg) as [Hsp Hok].
    run_cases H; (split; [apply Forall_insert; [done|] | split; [done|]]);
      unfold held_ok, label_ok; proj; rewrite ?Hpc in *;
      readers; rewrite ?in_app_iff; cbn [In]; try tauto; auto.
Qed.

Lemma all_done_of_sum l :
  sumZ (running_of <$> l) = 0 -> Forall (fun g => is_done g = true) l.
Proof.
  assert (forall k, 0 <= sumZ (running_of <$> k)) as Hnn.
  { intros k. apply sumZ_nonneg, Forall_fmap, Forall_forall. intros g _.
    unfold running_of. simpl. destruct (is_done g); lia. }
  induction l as [|g l IH]; [constructor|].
  rewrite fmap_cons, sumZ_cons. intros Hsum. pose proof (Hnn l).
  unfold running_of at 1 in Hsum. destruct (is_done g) eqn:Hd; [|lia].
  constructor; [done|]. apply IH. lia.
Qed.

Lemma running_of_pc g :
  running_of g = match pc g with WDone => 0 | _ => 1 end.
Proof. unfold running_of, is_done. by destruct (pc g). Qed.

Lemma wait_inv_step s e l s' :
  goroutines_inv s -> wait_inv s -> step N T e s = Some (l, s') -> wait_inv s'.
Proof.
  intros Hgo (Hwg & Hdone & Hleft) H. unfold wait_inv.
  pose proof Hgo as (Hp & _ & _).
  split_step H.
  - main_cases H; (split; [|split]); try done.
    + intros Hex. rewrite (proj1 (Hp eq_refl)) in Hex. by apply Exists_nil in Hex.
    + intros Hex. rewrite (proj1 (Hp eq_refl)) in Hex. by apply Exists_nil in Hex.
    + rewrite fmap_app, sumZ_app. cbn. lia.
    + intros Hex. apply Exists_app in Hex as [Hex|Hex]; [auto|].
      apply Exists_cons in Hex as [Hex|Hex]; [done | by apply Exists_nil in Hex].
    + intros _. apply all_done_of_sum. congruence.
  - closer_cases H. split; [done|]. split; [done|].
    intros Hex. split; [done|]. by apply Hleft.
  - assert (is_done g = false) as Hnd.
    { unfold is_done. destruct (pc g) eqn:Hpc; try done.
      unfold Run_step in H. by rewrite Hpc in H. }
    assert (past_wait (main s) = false) as Hpw.
    { destruct (past_wait (main s)); [|done].
      pose proof (Forall_lookup_1 _ _ _ _ (Hdone eq_refl) Hg) as Hd.
      cbn beta in Hd. congruence. }
    assert (running_of g = 1) as Hrun by (unfold running_of; by rewrite Hnd).
    run_cases H; (split; [|split; [congruence|]]);
      try (rewrite (sumZ_insert running_of _ _ _ _ Hg), Hrun;
           rewrite running_of_pc; proj; lia).
    all: intros Hex; apply (Exists_insert _ _ _ _ _ Hg) in Hex as [Hex|Hex];
      try discriminate Hex; try (by apply Hleft);
      try (apply Hleft; eapply Exists_lookup; [done|];
           unfold left_loop; by rewrite Hpc);
      try (destruct (Hleft Hex) as [_ Hnil]; congruence).
    all: by subst.
Qed.

Lemma final_count_pc g :
  final_count g = match pc g with WDone => tasksProcessed g | _ => 0 end.
Proof. unfold final_count, is_done. by destruct (pc g). Qed.

Lemma report_inv_step tr s e l s' :
  report_inv tr s -> step N T e s = Some (l, s') -> report_inv (tr ++ [l]) s'.
Proof.
  intros Hrep H. unfold report_inv in *.
  split_step H.
  - main_cases H; readers; try done.
    rewrite fmap_app, sumZ_app. cbn. lia.
  - closer_cases H. by readers.
  - run_cases H; readers; rewrite ?sumZ_app;
      rewrite (sumZ_insert final_count _ _ _ _ Hg), !final_count_pc; proj;
      rewrite Hpc; cbn [sumZ foldr]; lia.
Qed.

Lemma Inv0_init : Inv0 [] init.
Proof.
  split; try done.
  - unfold conserve_inv. reflexivity.
  - constructor.
  - split; [done|]. split; [done|]. intros Hex. by apply Exists_nil in Hex.
Qed.

Lemma Inv0_step tr s e l s' :
  Inv0 tr s -> step N T e s = Some (l, s') -> Inv0 (tr ++ [l]) s'.
Proof.
  intros [Hgo Hcons Hfile Hwork Hwait Hrep] H. split.
  - by eapply goroutines_inv_step.
  - by eapply conserve_inv_step.
  - by eapply file_inv_step.
  - by eapply workers_inv_step.
  - by eapply wait_inv_step.
  - by eapply report_inv_step.
Qed.

Lemma reach_Inv0 tr s : reach N T tr s -> Inv0 tr s.
Proof. induction 1; [apply Inv0_init | by eapply Inv0_step]. Qed.

End PreservationBase.

Section Preservation.

Variables N T : Z.
Hypothesis T_bound : T < max_int.

Lemma main_inv_frame tr tr' s s' :
  main_inv T tr s -> main s' = main s -> past_preload (main s) = true ->
  enqueued tr' = enqueued tr -> main_inv T tr' s'.
Proof.
  unfold main_inv. intros H -> Hp ->. by destruct (main s).
Qed.

Lemma main_inv_step tr s e l s' :
  Inv T tr s -> step N T e s = Some (l, s') -> main_inv T (tr ++ [l]) s'.
Proof.
  intros [[Hgo _ _ _ _ _] Hmain _ _] H.
  split_step H; [unfold main_inv in *|..].
  - main_cases H; rewrite ?Hm in *.
    + split; [lia|]. by rewrite seqZ_nil by lia.
    + destruct Hmain as [Hi Henq].
      split; [lia|]. readers. rewrite Henq.
      replace i with ((i - 1) + 1) at 3 by lia.
      rewrite seqZ_snoc by lia. rewrite fmap_app.
      by replace (1 + (i - 1)) with i by lia.
    + destruct Hmain as [Hi Henq].
      split; [lia|]. readers. rewrite Henq. do 2 f_equal. lia.
    + destruct Hmain as [Hi Henq].
      rewrite wrap_small by (unfold in_int, min_int, max_int, int_bits in *; lia).
      split; [lia|]. readers. rewrite Henq. do 2 f_equal. lia.
    + destruct Hmain as [Hi Henq]. split; [done|]. by readers.
    + destruct Hmain as [Hi Henq]. split; [done|]. by readers.
    + destruct Hmain as [Hi Henq]. split; [done|]. by readers.
    + destruct Hmain as [Hi Henq]. split; [done|]. by readers.
    + destruct Hmain as [Hi Henq]. split; [done|]. by readers.
    + destruct Hmain as [Hi Henq]. split; [done|]. by readers.
  - closer_cases H.
    eapply main_inv_frame; [done | done | | by readers].
    apply closer_past_preload; [done | congruence].
  - destruct (Run_step_frame _ _ _ _ _ _ H) as (Hm' & _ & _).
    eapply main_inv_frame; [done | done | by eapply worker_past_preload |].
    run_cases H; by readers.
Qed.

Lemma fifo_inv_step tr s e l s' :
  Inv T tr s -> step N T e s = Some (l, s') -> fifo_inv (tr ++ [l]) s'.
Proof.
  intros [[Hgo _ _ _ _ _] Hmain Hfifo _] H. unfold fifo_inv in *.
  split_step H.
  - main_cases H; unfold main_inv in Hmain; rewrite Hm in *;
      readers; rewrite ?fmap_app, ?app_nil_r; try done.
    + by subst tr.
    + rewrite Hfifo. by rewrite app_assoc.
  - closer_cases H. by readers.
  - run_cases H; readers; rewrite ?fmap_app, ?app_nil_r; try done.
    rewrite Hfifo, Hbuf. cbn. by rewrite <- app_assoc.
Qed.

Lemma enqueued_le tr s :
  main_inv T tr s -> past_preload (main s) = true ->
  Z.of_nat (length (enqueued tr)) <= T.
Proof.
  unfold main_inv. intros H Hp.
  destruct (main s); try done; destruct H as [HT ->];
    rewrite length_fmap, length_seqZ; lia.
Qed.

Lemma processed_bound tr s i g t :
  Inv T tr s -> pool s !! i = Some g -> pc g = WProcess t ->
  0 <= tasksProcessed g /\ tasksProcessed g + 1 <= T.
Proof.
  intros [[Hgo Hcons _ _ _ _] Hmain Hfifo [Hcount Hpos]] Hg Hpc.
  split; [by eapply (Forall_lookup_1 _ _ _ _ Hpos)|].
  pose proof (sumZ_lookup_le tasksProcessed _ _ _ Hpos Hg) as Hle.
  fold (total_processed s) in Hle.
  assert (S (length (writing s)) <= length (holding s))%nat as Hwh.
  { eapply writing_lt_holding; [done | |].
    - by rewrite holding_of_pc, Hpc.
    - by rewrite writing_of_pc, Hpc. }
  apply Permutation_length in Hcons. rewrite !length_app, length_fmap in Hcons.
  apply (f_equal length) in Hfifo. rewrite length_app, length_fmap in Hfifo.
  pose proof (enqueued_le _ _ Hmain (worker_past_preload _ _ _ Hgo Hg)).
  lia.
Qed.

Lemma count_inv_step tr s e l s' :
  Inv T tr s -> step N T e s = Some (l, s') -> count_inv (tr ++ [l]) s'.
Proof.
  intros HI H. pose proof HI as [_ _ _ [Hcount Hpos]].
  unfold count_inv, total_processed, writing in *.
  split_step H.
  - main_cases H; readers; rewrite ?bind_snoc, ?app_nil_r; try done.
    rewrite fmap_app, sumZ_app. cbn. split; [lia|].
    apply Forall_app. split; [done|]. by apply Forall_singleton.
  - closer_cases H. by readers.
  - assert (forall t, pc g = WProcess t ->
                      wrap (tasksProcessed g + 1) = tasksProcessed g + 1) as Hwrap.
    { intros t Hpc. destruct (processed_bound _ _ _ _ _ HI Hg Hpc).
      apply wrap_small. unfold in_int, min_int, max_int, int_bits in *. lia. }
    pose proof (Forall_lookup_1 _ _ _ _ Hpos Hg) as Hg0. cbn beta in Hg0.
    run_cases H; readers; rewrite ?length_app; cbn [length];
      (split; [| apply Forall_insert; [done | proj; rewrite ?(Hwrap _ eq_refl); lia]]);
      rewrite (sumZ_insert tasksProcessed _ _ _ _ Hg); proj;
      rewrite ?(Hwrap _ eq_refl);
      try (pool_same writing_of; lia);
      pool_perm writing_of Hperm; apply Permutation_length in Hperm;
      rewrite ?length_app in Hperm; cbn [length] in Hperm; lia.
Qed.

Lemma Inv_init : Inv T [] init.
Proof. split; try done. apply Inv0_init. Qed.

Lemma Inv_step tr s e l s' :
  Inv T tr s -> step N T e s = Some (l, s') -> Inv T (tr ++ [l]) s'.
Proof.
  intros HI H. split.
  - eapply Inv0_step; [|done]. by destruct HI.
  - by eapply main_inv_step.
  - by eapply fifo_inv_step.
  - by eapply count_inv_step.
Qed.

Lemma reach_Inv tr s : reach N T tr s -> Inv T tr s.
Proof. induction 1; [apply Inv_init | by eapply Inv_step]. Qed.

End Preservation.

Section Spawning.

Variables N T : Z.
Hypothesis N_bound : N < max_int.

Lemma spawn_inv_step tr s e l s' :
  spawn_inv N tr s -> step N T e s = Some (l, s') -> spawn_inv N (tr ++ [l]) s'.
Proof.
  intros [Hids Hmain] H. unfold spawn_inv.
  split_step H.
  - main_cases H; readers; rewrite ?app_nil_r; (split; [try done|]); try done.
    + split; [lia|]. by rewrite seqZ_nil by lia.
    + rewrite fmap_app. by rewrite Hids.
    + destruct Hmain as [Hi Hsp].
      rewrite wrap_small by (unfold in_int, min_int, max_int, int_bits in *; lia).
      split; [lia|]. rewrite Hsp.
      replace (i + 1 - 1) with ((i - 1) + 1) by lia.
      rewrite seqZ_snoc by lia. by replace (1 + (i - 1)) with i by lia.
    + destruct Hmain as [Hi Hsp]. rewrite Hsp.
      destruct (Z.le_gt_cases 0 N).
      * f_equal. lia.
      * by rewrite !seqZ_nil by lia.
  - closer_cases H. readers. split; [done|]. by destruct (main s).
  - destruct (Run_step_frame _ _ _ _ _ _ H) as (Hm' & _ & g' & Hp' & Hid').
    assert (spawned (tr ++ [l]) = spawned tr) as -> by (run_cases H; by readers).
    rewrite Hm', Hp'. split; [|done].
    rewrite list_fmap_insert, Hid'. rewrite list_insert_id; [done|].
    by rewrite list_lookup_fmap, Hg.
Qed.

Lemma reach_spawn_inv tr s : reach N T tr s -> spawn_inv N tr s.
Proof. induction 1; [done | by eapply spawn_inv_step]. Qed.

End Spawning.

(** ** Reading the task id back from a result line *)

Lemma leading_number_uint d c rest :
  is_sign_or_digit c = false ->
  leading_number (NilEmpty.string_of_uint d +++ String c rest)
  = NilEmpty.string_of_uint d.
Proof.
  intros Hc. induction d; simpl; rewrite ?IHd; try done. by rewrite Hc.
Qed.

Lemma leading_number_itoa z c rest :
  is_sign_or_digit c = false ->
  leading_number (itoa z +++ String c rest) = itoa z.
Proof.
  intros Hc. unfold itoa.
  assert (forall d, leading_number (NilZero.string_of_uint d +++ String c rest)
                    = NilZero.string_of_uint d) as Hu.
  { intros d. destruct d; try apply (leading_number_uint _ _ _ Hc).
    simpl. by rewrite Hc. }
  destruct (Z.to_int z) as [d|d]; simpl; [apply Hu | by rewrite Hu].
Qed.

Lemma int_of_string_itoa z : NilZero.int_of_string (itoa z) = Some (Z.to_int z).
Proof.
  unfold itoa. apply NilZero.isi; destruct z; simpl; try done;
    intros [= Hn]; by apply DecimalPos.Unsigned.to_uint_nonnil in Hn.
Qed.

Lemma line_task_id_result_line id w v p :
  line_task_id (result_line id w v p +++ newline) = Some id.
Proof.
  unfold line_task_id, result_line. cbn [strip_prefix String.append Ascii.eqb Bool.eqb].
  rewrite append_assoc_str. cbn [String.append].
  rewrite leading_number_itoa by done.
  by rewrite int_of_string_itoa, DecimalZ.of_to.
Qed.

Example line_task_id_7 :
  line_task_id "Task 7 processed by Worker-3 | Original: 700 | Processed: 1407" = Some 7.
Proof. reflexivity. Qed.

(** ** Lines and pieces *)

Lemma occurrences_app b s1 s2 :
  occurrences b (s1 ++ s2) = (occurrences b s1 + occurrences b s2)%nat.
Proof. unfold occurrences. by rewrite filter_app, length_app. Qed.

Lemma occurrences_cons b c s :
  occurrences b (c :: s)
  = ((if Byte.eqb c b then 1 else 0) + occurrences b s)%nat.
Proof.
  unfold occurrences. rewrite filter_cons.
  destruct (Byte.eqb c b); case_decide; try done.
Qed.

Lemma list_byte_of_string_app s1 s2 :
  list_byte_of_string (s1 +++ s2) = list_byte_of_string s1 ++ list_byte_of_string s2.
Proof.
  unfold list_byte_of_string.
  induction s1 as [|c s1 IH]; [done|]. cbn. by rewrite IH.
Qed.

Lemma no_newline_app s1 s2 : no_newline s1 -> no_newline s2 -> no_newline (s1 +++ s2).
Proof.
  unfold no_newline. rewrite list_byte_of_string_app, occurrences_app. lia.
Qed.

Lemma no_newline_uint d : no_newline (NilEmpty.string_of_uint d).
Proof. induction d; try done; apply (no_newline_app (String _ EmptyString)); done. Qed.

Lemma no_newline_itoa z : no_newline (itoa z).
Proof.
  unfold itoa.
  assert (forall d, no_newline (NilZero.string_of_uint d)) as Hu.
  { intros d. destruct d; try apply no_newline_uint. done. }
  destruct (Z.to_int z) as [d|d]; cbn; [apply Hu|].
  apply (no_newline_app "-"); [done | apply Hu].
Qed.

Lemma no_newline_result_line id w v p : no_newline (result_line id w v p).
Proof.
  unfold result_line.
  repeat (apply no_newline_app; [first [apply no_newline_itoa | done]|]).
  apply no_newline_itoa.
Qed.

Lemma newline_byte c :
  Byte.eqb (byte_of_ascii c) Byte.x0a = Ascii.eqb c (ascii_of_nat 10).
Proof. by destruct c as [[] [] [] [] [] [] [] []]. Qed.

Lemma list_byte_of_string_cons c s :
  list_byte_of_string (String c s) = byte_of_ascii c :: list_byte_of_string s.
Proof. done. Qed.

Lemma no_newline_cons c s :
  no_newline (String c s)
  <-> Ascii.eqb c (ascii_of_nat 10) = false /\ no_newline s.
Proof.
  unfold no_newline. rewrite list_byte_of_string_cons, occurrences_cons, newline_byte.
  destruct (Ascii.eqb c (ascii_of_nat 10)); cbn [Nat.add]; split; try done.
  - by intros [? _].
  - by intros [_ ?].
Qed.

Lemma length_lines_from text : forall line,
  length (lines_from line text) = occurrences Byte.x0a (list_byte_of_string text).
Proof.
  induction text as [|c text IH]; intros line; [done|].
  cbn [lines_from]. rewrite list_byte_of_string_cons, occurrences_cons, newline_byte.
  destruct (Ascii.eqb c (ascii_of_nat 10)); cbn [length Nat.add]; by rewrite IH.
Qed.

Lemma content_bytes f : list_byte_of_string (content f) = file_bytes f.
Proof.
  unfold file_bytes. induction f as [|piece f IH]; [done|].
  cbn [content foldr]. rewrite list_byte_of_string_app, bind_cons. by f_equal.
Qed.

(** A file has as many lines as it has newline bytes. *)
Lemma length_lines_of f :
  length (lines_of f) = occurrences Byte.x0a (file_bytes f).
Proof. unfold lines_of. by rewrite length_lines_from, content_bytes. Qed.

Lemma length_lines_of_app f g :
  length (lines_of (f ++ g)) = (length (lines_of f) + length (lines_of g))%nat.
Proof.
  rewrite !length_lines_of. unfold file_bytes. by rewrite bind_app, occurrences_app.
Qed.

Lemma lines_from_no_newline p : forall line rest,
  no_newline p -> lines_from line (p +++ rest) = lines_from (line +++ p) rest.
Proof.
  induction p as [|c p IH]; intros line rest Hp.
  - by rewrite append_empty_r.
  - apply no_newline_cons in Hp as [Hc Hp]. cbn [String.append lines_from].
    rewrite Hc, IH by done. by rewrite append_assoc_str.
Qed.

Lemma lines_from_line r line rest :
  no_newline r ->
  lines_from line ((r +++ newline) +++ rest)
  = (line +++ r +++ newline) :: lines_from EmptyString rest.
Proof.
  intros Hr. rewrite append_assoc_str, lines_from_no_newline by done.
  unfold newline at 1. cbn [String.append lines_from].
  change (Ascii.eqb (ascii_of_nat 10) (ascii_of_nat 10)) with true. cbn iota.
  by rewrite append_assoc_str.
Qed.

Lemma proper_prefix_no_newline p : forall r,
  no_newline r -> proper_prefix p (r +++ newline) -> no_newline p.
Proof.
  induction p as [|c p IH]; intros r Hr (rest & Hrest & Heq); [done|].
  destruct r as [|c' r]; cbn in Heq.
  - injection Heq as _ Heq. by destruct p, rest.
  - injection Heq as -> Heq. apply no_newline_cons in Hr as [Hc Hr].
    apply no_newline_cons. split; [done|]. apply (IH r); [done|]. by exists rest.
Qed.

Lemma piece_newlines r err piece :
  no_newline r -> piece_of (r +++ newline) err piece ->
  occurrences Byte.x0a (list_byte_of_string piece)
  = match err with None => 1%nat | Some _ => 0%nat end.
Proof.
  intros Hr Hp. destruct err as [e|]; cbn in Hp.
  - by apply (proper_prefix_no_newline _ r).
  - subst piece. rewrite list_byte_of_string_app, occurrences_app.
    unfold no_newline in Hr. by rewrite Hr.
Qed.

Lemma pieces_count pieces atts :
  Forall2 (fun piece a => piece_of (fst a +++ newline) (snd a) piece) pieces atts ->
  Forall (fun a => no_newline (fst a)) atts ->
  length (lines_of pieces) = length (results_written atts).
Proof.
  rewrite length_lines_of. unfold file_bytes, results_written.
  induction 1 as [|piece [r err] pieces atts Hp _ IH]; intros Hnl; [done|].
  apply Forall_cons in Hnl as [Hr Hnl]. cbn [fst snd] in *.
  rewrite !bind_cons, occurrences_app, length_app, (piece_newlines r err) by done.
  rewrite IH by done. by destruct err.
Qed.

Lemma pieces_whole pieces atts :
  Forall2 (fun piece a => piece_of (fst a +++ newline) (snd a) piece) pieces atts ->
  Forall (fun a => no_newline (fst a)) atts ->
  Forall (fun a => snd a = None) atts ->
  lines_of pieces = (fun r => r +++ newline) <$> results_written atts.
Proof.
  unfold lines_of, results_written.
  induction 1 as [|piece [r err] pieces atts Hp _ IH]; intros Hnl Hok; [done|].
  apply Forall_cons in Hnl as [Hr Hnl]. apply Forall_cons in Hok as [He Hok].
  cbn [fst snd] in *. subst err. cbn in Hp. subst piece.
  cbn [content foldr]. rewrite lines_from_line by done.
  rewrite bind_cons. cbn [fst snd app fmap list_fmap String.append]. f_equal.
  by apply IH.
Qed.

(** Every line of the file ends with a result that was written whole;
    before it come the parts that failed writes left behind. *)
Lemma pieces_lines pieces atts :
  Forall2 (fun piece a => piece_of (fst a +++ newline) (snd a) piece) pieces atts ->
  Forall (fun a => no_newline (fst a)) atts ->
  forall line,
    Forall (fun x => exists junk r, In r (results_written atts) /\ x = junk +++ r +++ newline)
           (lines_from line (content pieces)).
Proof.
  unfold results_written.
  induction 1 as [|piece [r err] pieces atts Hp _ IH]; intros Hnl line; [done|].
  apply Forall_cons in Hnl as [Hr Hnl]. cbn [fst snd] in *.
  cbn [content foldr]. rewrite bind_cons. cbn [fst snd].
  destruct err as [e|]; cbn in Hp.
  - rewrite lines_from_no_newline by (by apply (proper_prefix_no_newline _ r)).
    by apply IH.
  - subst piece. rewrite lines_from_line by done. apply Forall_cons. split.
    + exists line, r. split; [by left | done].
    + eapply Forall_impl; [by apply IH|].
      intros x (junk & r' & Hin & ->). exists junk, r'. split; [by right | done].
Qed.

(** *** The results file of the Go program *)

Lemma write_results_cons l tr :
  write_results (l :: tr)
  = match l with LWrite _ _ r err => [(r, err)] | _ => [] end ++ write_results tr.
Proof. done. Qed.

Lemma results_written_trace tr :
  results_written (write_results tr) = (fun x => snd x) <$> written tr.
Proof.
  unfold results_written, write_results, written.
  induction tr as [|l tr IH]; [done|].
  rewrite !bind_cons, bind_app, fmap_app, IH.
  by destruct l as [| | | | | | |w t r [e|]| | | |].
Qed.

Lemma write_results_ok tr :
  failed_writes tr = [] -> Forall (fun a => snd a = None) (write_results tr).
Proof.
  unfold failed_writes, write_results.
  induction tr as [|l tr IH]; [done|].
  rewrite !bind_cons. intros H. apply app_eq_nil in H as [Hl Htr].
  apply Forall_app. split; [|by apply IH].
  destruct l as [| | | | | | |w t r [e|]| | | |]; try done.
  by apply Forall_singleton.
Qed.

Lemma write_results_no_newline tr0 tr :
  Forall (label_ok tr0) tr -> Forall (fun a => no_newline (fst a)) (write_results tr).
Proof.
  unfold write_results.
  induction 1 as [|l tr Hl _ IH]; [done|].
  rewrite bind_cons. apply Forall_app. split; [|done].
  destruct l as [| | | | | | |w t r e| | | |]; try done.
  apply Forall_singleton. destruct Hl as (_ & _ & ->).
  rewrite processTask_result_line. apply no_newline_result_line.
Qed.

Lemma result_lines_length tr s :
  file_inv tr s -> Forall (label_ok tr) tr ->
  length (result_lines s) = length (written tr).
Proof.
  intros Hfile Hlab. unfold result_lines.
  rewrite (pieces_count _ _ Hfile (write_results_no_newline _ _ Hlab)).
  by rewrite results_written_trace, length_fmap.
Qed.

Lemma result_lines_written tr s :
  file_inv tr s -> Forall (label_ok tr) tr -> failed_writes tr = [] ->
  result_lines s = (fun x => snd x +++ newline) <$> written tr.
Proof.
  intros Hfile Hlab Hok. unfold result_lines.
  rewrite (pieces_whole _ _ Hfile (write_results_no_newline _ _ Hlab)
             (write_results_ok _ Hok)).
  by rewrite results_written_trace, <- list_fmap_compose.
Qed.

Lemma result_lines_end tr s :
  file_inv tr s -> Forall (label_ok tr) tr ->
  Forall (fun line => exists junk w t r,
              In (w, t, r) (written tr) /\ line = junk +++ r +++ newline)
         (result_lines s).
Proof.
  intros Hfile Hlab. unfold result_lines, lines_of.
  eapply Forall_impl;
    [apply (pieces_lines _ _ Hfile (write_results_no_newline _ _ Hlab))|].
  intros x (junk & r & Hin & ->). rewrite results_written_trace in Hin.
  apply in_map_iff in Hin as ([[w t] r'] & Heq & Hin). cbn in Heq. subst r'.
  by exists junk, w, t, r.
Qed.

(** ** The Java implementation *)

Lemma Java_wrap_small z :
  - 2 ^ 31 <= z <= Java.MAX_VALUE -> Java.wrap z = z.
Proof.
  unfold Java.wrap, Java.MAX_VALUE, Java.int_bits. intros H.
  rewrite Z.mod_small; lia.
Qed.





Ltac no_nl :=
  repeat (apply no_newline_app; [first [apply no_newline_itoa | done]|]);
  first [apply no_newline_itoa | done].

(** One turn of the loop of the Java [Worker.run] in which the result
    write fails: the counter is incremented, the results file gets what
    the failed write left, the error is logged with the worker and the
    task and printed on [System.err], the task is gone from the queue and
    the loop goes on. *)
Lemma Java_run_loop_write_failure fuel workerId n w task rest now1 now2 now4 fl more :
  Java.queue (Java.taskQueue w) = task :: rest ->
  Java.answers w
  = Java.mkAnswer now1 None false :: Java.mkAnswer now2 None false
    :: Java.mkAnswer now2 (Some fl) false :: Java.mkAnswer now4 None false :: more ->
  Java.run_loop (S fuel) workerId n w
  = Java.run_loop fuel workerId (Java.wrap (n + 1))
      (Java.mkWorld (Java.mkTaskQueue rest)
         (Java.resultWriter w
          ++ [fragment (reached fl)
                (result_line (ID task) workerId (DataValue task)
                             (Java.wrap (Java.wrap (DataValue task * 2) + ID task))
                 +++ newline)])
         (Java.logger w
          ++ ["[" +++ now1 +++ "] " +++ "Worker-" +++ itoa workerId +++ " processing "
                  +++ Task_String task +++ newline;
              "[" +++ now4 +++ "] " +++ "ERROR: Worker-" +++ itoa workerId
                  +++ " failed to write result for Task " +++ itoa (ID task)
                  +++ ": " +++ reason fl +++ newline])
         (Java.System_err w
          ++ ["[Worker-" +++ itoa workerId +++ "] ERROR: Failed to write result: "
              +++ reason fl +++ newline])
         more).
Proof.
  intros Hq Ha. destruct w as [[q] rw lg se ans]. cbn in Hq, Ha. subst q ans.
  cbn [Java.run_loop]. unfold Java.bind, Java.getTask, Java.poll, Java.log,
    Java.processTask, Java.writeResult, Java.System_err_println, Java.ask,
    Java.bind, Java.ret, file_write.
  cbn -[String.append Java.run_loop Task_String Java.wrap itoa fragment result_line].
  rewrite <- app_assoc. cbn [app].
  unfold result_line. by rewrite !append_assoc_str.
Qed.

(** The same turn when nothing fails: one more line in the results
    file. *)
Lemma Java_run_loop_success fuel workerId n w task rest now1 now2 now4 more :
  Java.queue (Java.taskQueue w) = task :: rest ->
  Java.answers w
  = Java.mkAnswer now1 None false :: Java.mkAnswer now2 None false
    :: Java.mkAnswer now2 None false :: Java.mkAnswer now4 None false :: more ->
  Java.run_loop (S fuel) workerId n w
  = Java.run_loop fuel workerId (Java.wrap (n + 1))
      (Java.mkWorld (Java.mkTaskQueue rest)
         (Java.resultWriter w
          ++ [result_line (ID task) workerId (DataValue task)
                          (Java.wrap (Java.wrap (DataValue task * 2) + ID task))
              +++ newline])
         (Java.logger w
          ++ ["[" +++ now1 +++ "] " +++ "Worker-" +++ itoa workerId +++ " processing "
                  +++ Task_String task +++ newline;
              "[" +++ now4 +++ "] " +++ "Worker-" +++ itoa workerId
                  +++ " completed Task " +++ itoa (ID task) +++ newline])
         (Java.System_err w) more).
Proof.
  intros Hq Ha. destruct w as [[q] rw lg se ans]. cbn in Hq, Ha. subst q ans.
  cbn [Java.run_loop]. unfold Java.bind, Java.getTask, Java.poll, Java.log,
    Java.processTask, Java.writeResult, Java.ask, Java.bind, Java.ret, file_write.
  cbn -[String.append Java.run_loop Task_String Java.wrap itoa result_line].
  rewrite <- app_assoc. cbn [app].
  unfold result_line. rewrite !append_assoc_str.
  done.
Qed.

(** The same turn when the sleep of [processTask] is interrupted: the
    interruption is logged, without the task, and the turn goes on as if
    the task had been computed, with [Task <id> interrupted] as the
    result. *)
Lemma Java_run_loop_interrupted
    fuel workerId n w task rest now1 now2 io2 now3 now4 now5 more :
  Java.queue (Java.taskQueue w) = task :: rest ->
  Java.answers w
  = Java.mkAnswer now1 None false :: Java.mkAnswer now2 io2 true
    :: Java.mkAnswer now3 None false :: Java.mkAnswer now4 None false
    :: Java.mkAnswer now5 None false :: more ->
  Java.run_loop (S fuel) workerId n w
  = Java.run_loop fuel workerId (Java.wrap (n + 1))
      (Java.mkWorld (Java.mkTaskQueue rest)
         (Java.resultWriter w ++ ["Task " +++ itoa (ID task) +++ " interrupted" +++ newline])
         (Java.logger w
          ++ ["[" +++ now1 +++ "] " +++ "Worker-" +++ itoa workerId +++ " processing "
                  +++ Task_String task +++ newline;
              "[" +++ now3 +++ "] " +++ "ERROR: Worker-" +++ itoa workerId
                  +++ " interrupted during processing" +++ newline;
              "[" +++ now5 +++ "] " +++ "Worker-" +++ itoa workerId
                  +++ " completed Task " +++ itoa (ID task) +++ newline])
         (Java.System_err w) more).
Proof.
  intros Hq Ha. destruct w as [[q] rw lg se ans]. cbn in Hq, Ha. subst q ans.
  cbn [Java.run_loop]. unfold Java.bind, Java.getTask, Java.poll, Java.log,
    Java.processTask, Java.writeResult, Java.ask, Java.bind, Java.ret, file_write.
  cbn -[String.append Java.run_loop Task_String Java.wrap itoa].
  unfold Java.bind, Java.log, Java.ask, Java.bind, file_write.
  cbn -[String.append Java.run_loop Task_String Java.wrap itoa].
  rewrite <- !app_assoc. cbn [app].
  by rewrite !append_assoc_str.
Qed.

(** Whatever the environment answers, a turn that finds a task counts
    it, removes it from the queue for good, leaves one piece in the
    results file (a result and its newline, or a proper part of that) and
    goes on to the next turn; a turn that finds the queue empty ends the
    loop with the count reached and leaves the results file as it is. *)
Lemma Java_run_loop_turn fuel workerId n w :
  match Java.queue (Java.taskQueue w) with
  | task :: rest =>
      exists w' r piece,
        Java.run_loop (S fuel) workerId n w
        = Java.run_loop fuel workerId (Java.wrap (n + 1)) w'
        /\ Java.queue (Java.taskQueue w') = rest
        /\ Java.resultWriter w' = Java.resultWriter w ++ [piece]
        /\ no_newline r
        /\ (piece = r +++ newline \/ proper_prefix piece (r +++ newline))
  | [] =>
      fst (Java.run_loop (S fuel) workerId n w) = Some n
      /\ Java.resultWriter (snd (Java.run_loop (S fuel) workerId n w))
         = Java.resultWriter w
  end.
Proof.
  destruct w as [[q] rw lg se ans]. cbn [Java.queue Java.taskQueue].
  destruct q as [|task rest].
  - cbn [Java.run_loop]. unfold Java.bind, Java.getTask, Java.poll, Java.log,
      Java.ask, Java.ret, file_write. cbn -[String.append itoa].
    destruct ans as [|a ans]; cbn -[String.append itoa]; [done|].
    by destruct (Java.a_io a).
  - cbn [Java.run_loop]. unfold Java.bind, Java.getTask, Java.poll, Java.processTask.
    unfold Java.log, Java.writeResult, Java.System_err_println, Java.ask,
      Java.bind, Java.ret, file_write.
    cbn -[String.append Java.run_loop Task_String Java.wrap itoa fragment].
    repeat (match goal with
            | |- context [match ?x with _ => _ end] => is_var x; destruct x
            | |- context [match Java.a_io ?a with _ => _ end] => destruct (Java.a_io a)
            | |- context [if Java.a_interrupted ?a then _ else _] =>
                destruct (Java.a_interrupted a)
            end; cbn -[String.append Java.run_loop Task_String Java.wrap itoa fragment]);
      eexists _, _, _; (split; [reflexivity|]);
      cbn [Java.queue Java.taskQueue Java.resultWriter];
      (split; [reflexivity|]); (split; [reflexivity|]); split; revgoals;
      first [ left; reflexivity
            | right; apply fragment_proper, line_nonempty
            | no_nl ].
Qed.

Lemma piece_at_most_one_line r piece :
  no_newline r ->
  piece = r +++ newline \/ proper_prefix piece (r +++ newline) ->
  (length (lines_of [piece]) <= 1)%nat.
Proof.
  intros Hr Hp. rewrite length_lines_of.
  change (file_bytes [piece]) with (list_byte_of_string piece ++ []).
  rewrite app_nil_r.
  destruct Hp as [Hp|Hp].
  - by rewrite (piece_newlines r None).
  - by rewrite (piece_newlines r (Some EmptyString)); [lia | |].
Qed.

(** A Java worker alone on a queue of [k] tasks leaves its loop with
    [k] more in its counter, whatever became of the writes, and with at
    most [k] more lines in the results file. *)
Lemma Java_run_loop_total workerId fuel : forall n w,
  (length (Java.queue (Java.taskQueue w)) < fuel)%nat ->
  - 2 ^ 31 <= n ->
  n + Z.of_nat (length (Java.queue (Java.taskQueue w))) <= Java.MAX_VALUE ->
  exists w',
    Java.run_loop fuel workerId n w
    = (Some (n + Z.of_nat (length (Java.queue (Java.taskQueue w)))), w')
    /\ (length (lines_of (Java.resultWriter w'))
        <= length (lines_of (Java.resultWriter w))
           + length (Java.queue (Java.taskQueue w)))%nat.
Proof.
  induction fuel as [|fuel IH]; intros n w Hfuel Hn Hmax; [lia|].
  pose proof (Java_run_loop_turn fuel workerId n w) as Hturn.
  destruct (Java.queue (Java.taskQueue w)) as [|task rest] eqn:Hq.
  - destruct (Java.run_loop (S fuel) workerId n w) as [r w'] eqn:Hr.
    cbn [fst snd] in Hturn. destruct Hturn as [-> Hrw]. exists w'. split.
    + do 2 f_equal. cbn [length]. lia.
    + rewrite Hrw. lia.
  - destruct Hturn as (w1 & r & piece & -> & Hq1 & Hrw & Hr & Hp). cbn [length] in *.
    assert (Java.wrap (n + 1) = n + 1) as ->
        by (apply Java_wrap_small; lia).
    destruct (IH (n + 1) w1) as (w' & -> & Hlen'); rewrite ?Hq1; try lia.
    rewrite Hq1, Hrw, length_lines_of_app in Hlen'.
    pose proof (piece_at_most_one_line r piece Hr Hp).
    exists w'. split; [do 2 f_equal; lia | lia].
Qed.

Lemma Java_wrap_add_l a b : Java.wrap (Java.wrap a + b) = Java.wrap (a + b).
Proof.
  unfold Java.wrap, Java.int_bits. f_equal.
  replace ((a + 2 ^ (32 - 1)) mod 2 ^ 32 - 2 ^ (32 - 1) + b + 2 ^ (32 - 1))
    with ((a + 2 ^ (32 - 1)) mod 2 ^ 32 + b) by lia.
  rewrite Zplus_mod_idemp_l. f_equal. lia.
Qed.

Lemma Java_processTask_result workerId task w a rest :
  Java.answers w = a :: rest -> Java.a_interrupted a = false ->
  Java.processTask workerId task w
  = (result_line (ID task) workerId (DataValue task)
                 (Java.wrap (DataValue task * 2 + ID task)),
     Java.mkWorld (Java.taskQueue w) (Java.resultWriter w) (Java.logger w)
                  (Java.System_err w) rest).
Proof.
  intros Ha Hi. unfold Java.processTask, Java.bind, Java.ask, Java.ret.
  by rewrite Ha, Hi, Java_wrap_add_l.
Qed.

(** ** Runs *)

Section Runs.

Variables N T : Z.

Lemma exec_reach_from evs : forall tr0 s tr s',
  reach N T tr0 s -> exec N T evs s = Some (tr, s') -> reach N T (tr0 ++ tr) s'.
Proof.
  induction evs as [|e evs IH]; intros tr0 s tr s' Hr H; simplify_eq/=.
  - by rewrite app_nil_r.
  - destruct (step N T e s) as [[l s1]|] eqn:Hstep; [|done].
    destruct (exec N T evs s1) as [[tr1 s2]|] eqn:Hex; simplify_eq.
    replace (tr0 ++ l :: tr1) with ((tr0 ++ [l]) ++ tr1) by by rewrite <- app_assoc.
    eapply IH; [|done]. by eapply reach_step.
Qed.

Lemma exec_reach evs tr s :
  exec N T evs init = Some (tr, s) -> reach N T tr s.
Proof. intros H. apply (exec_reach_from evs [] init); [constructor | done]. Qed.

(** A run can be cut at any label of its trace. *)
Lemma exec_split evs : forall s tr1 l tr2 s',
  exec N T evs s = Some (tr1 ++ l :: tr2, s') ->
  exists evs1 e evs2 s1 s2,
    evs = evs1 ++ e :: evs2
    /\ exec N T evs1 s = Some (tr1, s1)
    /\ step N T e s1 = Some (l, s2)
    /\ exec N T evs2 s2 = Some (tr2, s').
Proof.
  induction evs as [|e evs IH]; intros s tr1 l tr2 s' H; simpl in H.
  - destruct tr1; simplify_eq.
  - destruct (step N T e s) as [[l0 s1]|] eqn:Hstep; [|done].
    destruct (exec N T evs s1) as [[tr s2]|] eqn:Hex; simplify_eq.
    destruct tr1 as [|l1 tr1]; simplify_eq/=.
    + exists [], e, evs, s, s1. by rewrite Hstep, Hex.
    + destruct (IH _ _ _ _ _ Hex) as (evs1 & e1 & evs2 & s3 & s4 & -> & H1 & H2 & H3).
      exists (e :: evs1), e1, evs2, s3, s4. simpl. by rewrite Hstep, H1.
Qed.

Lemma exec_past_preload evs : forall s tr s',
  exec N T evs s = Some (tr, s') ->
  past_preload (main s) = true -> past_preload (main s') = true.
Proof.
  induction evs as [|e evs IH]; intros s tr s' H Hp; simplify_eq/=; [done|].
  destruct (step N T e s) as [[l s1]|] eqn:Hstep; [|done].
  destruct (exec N T evs s1) as [[tr1 s2]|] eqn:Hex; simplify_eq.
  eapply IH; [done|]. clear Hex IH.
  split_step Hstep.
  - main_cases Hstep; done.
  - closer_cases Hstep. done.
  - destruct (Run_step_frame _ _ _ _ _ _ Hstep) as (-> & _). done.
Qed.

Lemma exec_Inv0 evs tr s : exec N T evs init = Some (tr, s) -> Inv0 tr s.
Proof. intros H. by eapply reach_Inv0, exec_reach. Qed.

Lemma all_done_Forall s :
  all_done s = true <-> Forall (fun g => is_done g = true) (pool s).
Proof.
  unfold all_done. induction (pool s) as [|g l IH]; simpl.
  - split; [constructor | done].
  - rewrite andb_true_iff, Forall_cons. tauto.
Qed.

Lemma terminated_all_done evs tr s :
  exec N T evs init = Some (tr, s) -> terminated s -> all_done s = true.
Proof.
  intros H Ht. destruct (exec_Inv0 _ _ _ H) as [_ _ _ _ (_ & Hd & _) _].
  apply all_done_Forall, Hd. unfold terminated in Ht. by rewrite Ht.
Qed.

Hypothesis T_bound : T < max_int.

Lemma exec_Inv evs tr s : exec N T evs init = Some (tr, s) -> Inv T tr s.
Proof. intros H. by eapply reach_Inv, exec_reach. Qed.

(** Once the goroutine that closes the queue exists, or the queue is
    closed, production is over. *)
Lemma production_over_at s e l s' :
  goroutines_inv s -> step N T e s = Some (l, s') ->
  l = LSpawnCloser \/ l = LClose -> past_preload (main s) = true.
Proof.
  intros Hgo H Hl. split_step H.
  - main_cases H; destruct Hl; done.
  - closer_cases H. apply closer_past_preload; [done | congruence].
  - by eapply worker_past_preload.
Qed.

Lemma no_enqueue_around evs tr1 l tr2 s :
  exec N T evs init = Some (tr1 ++ l :: tr2, s) ->
  l = LSpawnCloser \/ l = LClose ->
  enqueued tr1 = preload_task <$> seqZ 1 T /\ enqueued tr2 = [].
Proof.
  intros H Hl. pose proof (exec_Inv _ _ _ H) as [_ Hmain _ _].
  destruct (exec_split _ _ _ _ _ _ H) as (evs1 & e & evs2 & s1 & s2 & -> & H1 & Hs & H2).
  pose proof (exec_Inv _ _ _ H1) as [[Hgo1 _ _ _ _ _] Hmain1 _ _].
  pose proof (production_over_at _ _ _ _ Hgo1 Hs Hl) as Hp1.
  assert (past_preload (main s) = true) as Hp.
  { eapply exec_past_preload; [done|].
    eapply (exec_past_preload [e] s1); [|done]. simpl. by rewrite Hs. }
  assert (enqueued tr1 = preload_task <$> seqZ 1 T) as H1'.
  { unfold main_inv in Hmain1. destruct (main s1); try done; tauto. }
  split; [done|].
  assert (enqueued (tr1 ++ l :: tr2) = preload_task <$> seqZ 1 T) as Hall.
  { unfold main_inv in Hmain. destruct (main s); try done; tauto. }
  unfold enqueued in *. rewrite bind_app, bind_cons, H1' in Hall.
  rewrite <- (app_nil_r (preload_task <$> seqZ 1 T)) in Hall at 2.
  apply app_inv_head in Hall. by apply app_eq_nil in Hall as [_ ?].
Qed.

Lemma closer_started_in_trace tr s :
  reach N T tr s -> closer s <> CNotStarted -> In LSpawnCloser tr.
Proof.
  induction 1 as [|tr s e l s' Hr IH H]; [done|].
  intros Hc. apply in_or_app.
  assert (closer s = CNotStarted \/ closer s <> CNotStarted) as [Hn|Hn]
      by (destruct (closer s); auto); [|by left; apply IH].
  right. split_step H.
  - main_cases H; try done. by constructor.
  - closer_cases H.
  - destruct (Run_step_frame _ _ _ _ _ _ H) as (_ & Hc' & _). congruence.
Qed.

(** C1. For every run, the queue is closed only after the producer has
    enqueued all its tasks: every enqueue precedes the close, and it even
    precedes the [go] statement that starts the goroutine which sleeps and
    then closes the queue, so that whatever the length of its sleep the
    close cannot overtake an enqueue. *)
Theorem close_after_all_enqueues evs tr1 tr2 s :
  exec N T evs init = Some (tr1 ++ LClose :: tr2, s) ->
  (exists tr0 tr1',
      tr1 = tr0 ++ LSpawnCloser :: tr1'
      /\ enqueued tr0 = preload_task <$> seqZ 1 T
      /\ enqueued tr1' = [])
  /\ enqueued tr1 = preload_task <$> seqZ 1 T
  /\ enqueued tr2 = [].
Proof.
  intros H. destruct (no_enqueue_around _ _ _ _ _ H) as [Hall Hnone]; [by right|].
  split; [|done].
  destruct (exec_split _ _ _ _ _ _ H) as (evs1 & e & evs2 & s1 & s2 & -> & H1 & Hs & H2).
  assert (closer s1 <> CNotStarted) as Hc.
  { split_step Hs.
    - main_cases Hs.
    - closer_cases Hs. congruence.
    - run_cases Hs. }
  pose proof (closer_started_in_trace _ _ (exec_reach _ _ _ H1) Hc) as Hin.
  apply in_split in Hin as (tr0 & tr1' & ->).
  exists tr0, tr1'. split; [done|].
  by destruct (no_enqueue_around _ _ _ _ _ H1); [left|].
Qed.

Lemma write_attempts_length tr :
  length (write_attempts tr)
  = (length (written tr) + length (failed_writes tr))%nat.
Proof.
  induction tr as [|l tr IH]; [done|].
  unfold write_attempts, written, failed_writes in *.
  rewrite !bind_cons, !length_app, IH.
  destruct l as [| | | | | | |w t r [err|]| | | |]; simpl; lia.
Qed.

Lemma all_done_writing s : all_done s = true -> writing s = [].
Proof.
  rewrite all_done_Forall. unfold writing.
  induction 1 as [|g l Hg _ IH]; [done|].
  rewrite bind_cons, IH, writing_of_pc.
  unfold is_done in Hg. by destruct (pc g).
Qed.

Lemma all_done_final_count s :
  all_done s = true -> sumZ (final_count <$> pool s) = total_processed s.
Proof.
  rewrite all_done_Forall. unfold total_processed.
  induction 1 as [|g l Hg _ IH]; [done|].
  rewrite !fmap_cons, !sumZ_cons, IH. unfold final_count. by rewrite Hg.
Qed.

(** C2 (amended). When every worker has terminated, the sum of the
    counts the workers reported, which is the sum of their
    [tasksProcessed] counters, equals the number of lines of the results
    file plus the number of result writes that failed: the counter is
    incremented before [WriteResult] is called, so a task whose write
    fails is counted too.  The sum equals the number of lines in the runs
    in which no result write fails.  The loop of the Java worker counts in
    the same place: a turn whose result write fails increments the
    counter, leaves in the results file only what the failed write left,
    logs the error and prints it on [System.err]; and a worker alone on a
    queue of [k] tasks ends with [k] more in its counter whatever became
    of the writes, and with at most [k] more lines in the results file. *)
Theorem processed_count_at_termination evs tr s :
  exec N T evs init = Some (tr, s) ->
  all_done s = true ->
  sumZ (reported tr) = total_processed s
  /\ total_processed s
     = Z.of_nat (length (result_lines s)) + Z.of_nat (length (failed_writes tr))
  /\ (failed_writes tr = [] ->
      total_processed s = Z.of_nat (length (result_lines s)))
  /\ (forall fuel workerId n w task rest now1 now2 now4 fl more,
         Java.queue (Java.taskQueue w) = task :: rest ->
         Java.answers w
         = Java.mkAnswer now1 None false :: Java.mkAnswer now2 None false
           :: Java.mkAnswer now2 (Some fl) false :: Java.mkAnswer now4 None false :: more ->
         Java.run_loop (S fuel) workerId n w
         = Java.run_loop fuel workerId (Java.wrap (n + 1))
             (Java.mkWorld (Java.mkTaskQueue rest)
                (Java.resultWriter w
                 ++ [fragment (reached fl)
                       (result_line (ID task) workerId (DataValue task)
                          (Java.wrap (Java.wrap (DataValue task * 2) + ID task))
                        +++ newline)])
                (Java.logger w
                 ++ ["[" +++ now1 +++ "] " +++ "Worker-" +++ itoa workerId
                         +++ " processing " +++ Task_String task +++ newline;
                     "[" +++ now4 +++ "] " +++ "ERROR: Worker-" +++ itoa workerId
                         +++ " failed to write result for Task " +++ itoa (ID task)
                         +++ ": " +++ reason fl +++ newline])
                (Java.System_err w
                 ++ ["[Worker-" +++ itoa workerId
                     +++ "] ERROR: Failed to write result: " +++ reason fl +++ newline])
                more))
  /\ (forall workerId fuel n w,
        (length (Java.queue (Java.taskQueue w)) < fuel)%nat ->
        - 2 ^ 31 <= n ->
        n + Z.of_nat (length (Java.queue (Java.taskQueue w))) <= Java.MAX_VALUE ->
        exists w',
          Java.run_loop fuel workerId n w
          = (Some (n + Z.of_nat (length (Java.queue (Java.taskQueue w)))), w')
          /\ (length (lines_of (Java.resultWriter w'))
              <= length (lines_of (Java.resultWriter w))
                 + length (Java.queue (Java.taskQueue w)))%nat).
Proof.
  intros H Hd.
  destruct (exec_Inv _ _ _ H) as [[_ _ Hfile [_ Hlab] _ Hrep] _ _ [Hcount _]].
  split; [by rewrite <- all_done_final_count|].
  rewrite Hcount, (all_done_writing _ Hd), write_attempts_length.
  rewrite (result_lines_length _ _ Hfile Hlab).
  split; [simpl; lia|].
  split; [|split; [apply Java_run_loop_write_failure | apply Java_run_loop_total]].
  intros ->. simpl. lia.
Qed.

Lemma ID_preload_tasks (l : list Z) : ID <$> (preload_task <$> l) = l.
Proof. induction l as [|i l IH]; [done|]. rewrite !fmap_cons, IH. done. Qed.

Lemma enqueued_shape tr s :
  main_inv T tr s -> exists k, k <= T /\ enqueued tr = preload_task <$> seqZ 1 k.
Proof.
  unfold main_inv. intros H. destruct (main s).
  1: { subst tr. exists (Z.min 0 T). split; [lia|]. by rewrite seqZ_nil by lia. }
  all: destruct H as [Hi ->]; eexists; split; [|done]; lia.
Qed.

Lemma enqueued_ids tr s :
  main_inv T tr s -> exists k, k <= T /\ ID <$> enqueued tr = seqZ 1 k.
Proof.
  intros H. destruct (enqueued_shape _ _ H) as (k & Hk & ->).
  exists k. by rewrite ID_preload_tasks.
Qed.

Lemma written_sublist tr :
  (fun x => snd (fst x)) <$> written tr `sublist_of` write_attempts tr.
Proof.
  unfold written, write_attempts. induction tr as [|l tr IH]; [done|].
  rewrite !bind_cons, fmap_app. apply sublist_app; [|done].
  destruct l as [| | | | | | |w t r [err|]| | | |]; simpl;
    try done. by apply sublist_cons.
Qed.

Lemma written_results tr0 tr :
  Forall (label_ok tr0) tr ->
  Forall (fun x => snd x = fst (processTask (fst (fst x)) (snd (fst x)))) (written tr).
Proof.
  unfold written. induction 1 as [|l tr Hl _ IH]; [constructor|].
  rewrite bind_cons. apply Forall_app. split; [|done].
  destruct l as [| | | | | | |w t r [err|]| | | |]; try constructor; try done.
  simpl in *. tauto.
Qed.

Lemma written_spawned tr0 tr :
  Forall (label_ok tr0) tr ->
  Forall (fun x => In (fst (fst x)) (spawned tr0)
                   /\ In (fst (fst x), snd (fst x)) (dequeued tr0)) (written tr).
Proof.
  unfold written. induction 1 as [|l tr Hl _ IH]; [constructor|].
  rewrite bind_cons. apply Forall_app. split; [|done].
  destruct l as [| | | | | | |w t r [err|]| | | |]; try constructor; try done.
  simpl in *. tauto.
Qed.

(** The ids of the tasks handed to [WriteResult] so far are pairwise
    different and lie between 1 and [T]. *)
Lemma write_attempts_ids tr s :
  Inv T tr s ->
  NoDup (ID <$> (snd <$> dequeued tr))
  /\ NoDup (ID <$> write_attempts tr)
  /\ Forall (fun id => 1 <= id <= T) (ID <$> write_attempts tr).
Proof.
  intros [[_ Hcons _ _ _ _] Hmain Hfifo _].
  destruct (enqueued_ids _ _ Hmain) as (k & Hk & Hids).
  unfold fifo_inv in Hfifo. rewrite Hfifo, fmap_app in Hids.
  assert (NoDup (ID <$> (snd <$> dequeued tr))) as Hnd.
  { pose proof (NoDup_seqZ 1 k) as Hn. rewrite <- Hids in Hn.
    by apply NoDup_app in Hn as [? _]. }
  assert (forall id, id ∈ ID <$> (snd <$> dequeued tr) -> 1 <= id <= T) as Hr.
  { intros id Hin. assert (id ∈ seqZ 1 k) as Hin'.
    { rewrite <- Hids. apply elem_of_app. by left. }
    apply elem_of_seqZ in Hin'. lia. }
  unfold conserve_inv in Hcons.
  apply (fmap_Permutation ID) in Hcons. rewrite fmap_app in Hcons.
  split; [done|]. split.
  - rewrite Hcons in Hnd. by apply NoDup_app in Hnd as [? _].
  - apply Forall_forall. intros id Hin. apply Hr. rewrite Hcons.
    apply elem_of_app. by left.
Qed.

Lemma written_write_results w t r tr :
  In (w, t, r) (written tr) -> In (r, None) (write_results tr).
Proof.
  unfold written, write_results. induction tr as [|l tr IH]; [done|].
  rewrite !bind_cons, !in_app_iff. intros [Hin|Hin]; [left | right; by apply IH].
  destruct l as [| | | | | | |w' t' r' [e|]| | | |]; try done.
  destruct Hin as [Heq|[]]. simplify_eq. by left.
Qed.

(** A result written without an error is in the file, with its
    newline. *)
Lemma written_in_file tr s w t r :
  file_inv tr s -> In (w, t, r) (written tr) ->
  In (r +++ newline) (rw_file (resultWriter s)).
Proof.
  intros Hfile Hin. apply written_write_results in Hin.
  apply list_elem_of_In, list_elem_of_lookup in Hin as [k Hk].
  destruct (Forall2_lookup_r _ _ _ _ _ Hfile Hk) as (piece & Hp & Hpiece).
  cbn in Hpiece. subst piece. by eapply list_elem_of_In, list_elem_of_lookup_2.
Qed.


Lemma compute_failed_nil tr0 tr : Forall (label_ok tr0) tr -> compute_failed tr = [].
Proof.
  unfold compute_failed. induction 1 as [|l tr Hl _ IH]; [done|].
  rewrite bind_cons, IH. by destruct l.
Qed.

(** C7 (amended). Every line a worker of the Go program writes for a
    task without an error is
    [Task <id> processed by Worker-<workerId> | Original: <value> | Processed: <processedValue>]
    followed by the line terminator, where the task is one that the
    worker [workerId], a worker the program started, took from the queue,
    and [processedValue] is what the worker computed from it; the line is
    in the results file.  Every line of the results file ends with such a
    line, and is such a line when no result write failed: what a failed
    write left in the file comes before it.  The Java [processTask] builds
    the same line from the task and the worker's id when its sleep is not
    interrupted, and [Task <id> interrupted] when it is. *)
Theorem result_line_format evs tr s :
  exec N T evs init = Some (tr, s) ->
  (forall w task r,
      In (w, task, r) (written tr) ->
      In w (spawned tr)
      /\ In (w, task) (dequeued tr)
      /\ r = result_line (ID task) w (DataValue task)
                         (wrap (DataValue task * 2 + ID task))
      /\ In (r +++ newline) (rw_file (resultWriter s)))
  /\ (forall line,
        In line (result_lines s) ->
        exists junk w task,
          In w (spawned tr)
          /\ In (w, task) (dequeued tr)
          /\ line = junk +++ result_line (ID task) w (DataValue task)
                                         (wrap (DataValue task * 2 + ID task))
                    +++ newline
          /\ (failed_writes tr = [] -> junk = EmptyString))
  /\ (forall workerId task w a rest,
         Java.answers w = a :: rest ->
         fst (Java.processTask workerId task w)
         = if Java.a_interrupted a
           then "Task " +++ itoa (ID task) +++ " interrupted"
           else result_line (ID task) workerId (DataValue task)
                            (Java.wrap (DataValue task * 2 + ID task))).
Proof.
  intros H.
  destruct (exec_Inv0 _ _ _ H) as [_ _ Hfile [_ Hlab] _ _].
  assert (forall w task r,
             In (w, task, r) (written tr) ->
             In w (spawned tr)
             /\ In (w, task) (dequeued tr)
             /\ r = result_line (ID task) w (DataValue task)
                                (wrap (DataValue task * 2 + ID task))) as Hw.
  { intros w t r Hin.
    pose proof (proj1 (Forall_forall _ _) (written_results tr tr Hlab) _
                      (proj2 (list_elem_of_In _ _) Hin)) as Hr.
    pose proof (proj1 (Forall_forall _ _) (written_spawned tr tr Hlab) _
                      (proj2 (list_elem_of_In _ _) Hin)) as [Hs Hd].
    cbn [fst snd] in *. split; [done|]. split; [done|].
    by rewrite Hr, processTask_result_line, wrap_add_l. }
  split; [|split].
  - intros w t r Hin. destruct (Hw _ _ _ Hin) as (Hs & Hd & Hr).
    repeat (split; [done|]). by eapply written_in_file.
  - intros line Hin.
    destruct (failed_writes tr) as [|x l] eqn:Hf.
    + rewrite (result_lines_written _ _ Hfile Hlab Hf) in Hin.
      apply in_map_iff in Hin as ([[w t] r] & <- & Hin).
      destruct (Hw _ _ _ Hin) as (Hs & Hd & Hr). cbn [snd].
      exists EmptyString, w, t. by rewrite <- Hr.
    + pose proof (proj1 (Forall_forall _ _) (result_lines_end _ _ Hfile Hlab) _
                        (proj2 (list_elem_of_In _ _) Hin))
        as (junk & w & t & r & Hin' & ->).
      destruct (Hw _ _ _ Hin') as (Hs & Hd & Hr).
      exists junk, w, t. by rewrite <- Hr.
  - intros workerId task w a rest Ha.
    unfold Java.processTask, Java.bind at 1, Java.ask. rewrite Ha.
    destruct (Java.a_interrupted a).
    + unfold Java.bind, Java.ret.
      by destruct (Java.log _ _) as [[] w1].
    + by rewrite Java_wrap_add_l.
Qed.

(** C9. [processTask] returns a nil error for every task, so the branch
    of [Run] that handles a failed computation is never taken: from the
    compute step a worker always goes on to [WriteResult] with the result,
    no run contains a failed computation or a worker in that branch, and
    every dequeued task is held by a worker or has been handed to
    [WriteResult]. *)
Theorem processTask_never_fails :
  (forall w task, snd (processTask w task) = None)
  /\ (forall e i g s task,
        pc g = WProcess task ->
        Run_step e i g s
        = Some (LCompute (W_ID g) task (fst (processTask (W_ID g) task)),
                put i (mkGoroutine (W_ID g)
                                   (WWrite task (fst (processTask (W_ID g) task)))
                                   (wrap (tasksProcessed g + 1))) s))
  /\ (forall evs tr s,
        exec N T evs init = Some (tr, s) ->
        compute_failed tr = []
        /\ Forall (fun g => forall t err, pc g <> WLogFailed t err) (pool s)
        /\ snd <$> dequeued tr ≡ₚ write_attempts tr ++ holding s).
Proof.
  split; [done|]. split.
  { intros e i g s task Hpc. unfold Run_step. by rewrite Hpc. }
  intros evs tr s H.
  destruct (exec_Inv0 _ _ _ H) as [_ Hcons _ [Hheld Hlab] _ _].
  pose proof (compute_failed_nil _ _ Hlab) as Hcf.
  split; [done|]. split.
  - eapply Forall_impl; [exact Hheld|]. intros g [_ Hg] t err Hpc.
    by rewrite Hpc in Hg.
  - unfold conserve_inv in Hcons. by rewrite Hcf in Hcons.
Qed.

Lemma done_after_drained tr0 tr w n :
  Forall (label_ok tr0) tr -> In (LDone w n) tr -> In (LDrained w) tr0.
Proof.
  intros Hlab Hin.
  by apply (proj1 (Forall_forall _ _) Hlab _ (proj2 (list_elem_of_In _ _) Hin)).
Qed.

(** C5 (amended). A failed result write stays in the worker.  When
    [WriteResult] fails the worker keeps the queue and its counter as they
    are, the results file gets only what the failed write left, and the
    worker goes to log the error; the entry names the worker and the task;
    from there, as from the branch for a failed computation, the worker
    goes back to fetch the next task, and the queue is untouched: the task
    is not put back.  A worker leaves its loop only from a fetch on which
    [GetTask] returned no task, and in every run a worker that has
    terminated has made such a fetch.  The loop of the Java worker does the
    same on a failed write, and prints the error on [System.err]; when the
    sleep of its compute step is interrupted it logs the error with the
    worker and without the task, and the task is not abandoned: the line
    [Task <id> interrupted] is written as its result and the task is
    logged as completed.  Whatever the environment answers, the Java loop
    ends only on a turn that finds the queue empty. *)
Theorem per_task_errors_are_local :
  (forall e i g s task result fl,
      pc g = WWrite task result -> io e = Some fl ->
      exists s',
        Run_step e i g s
        = Some (LWrite (W_ID g) task result
                       (Some ("failed to write result: " +++ reason fl)), s')
        /\ pool s'
           = <[i:=set_pc (WLogWriteErr task ("failed to write result: " +++ reason fl)) g]>
               (pool s)
        /\ taskQueue s' = taskQueue s
        /\ rw_file (resultWriter s')
           = rw_file (resultWriter s) ++ [fragment (reached fl) (result +++ newline)]
        /\ proper_prefix (fragment (reached fl) (result +++ newline)) (result +++ newline))
  /\ (forall e i g s task err,
        pc g = WLogWriteErr task err ->
        exists s',
          Run_step e i g s
          = Some (LLog ("ERROR: Worker-" +++ itoa (W_ID g)
                        +++ " failed to write result for Task " +++ itoa (ID task)
                        +++ ": " +++ err), s')
          /\ pool s' = <[i:=set_pc WFetch g]> (pool s)
          /\ taskQueue s' = taskQueue s
          /\ resultWriter s' = resultWriter s)
  /\ (forall e i g s task err,
        pc g = WLogFailed task err ->
        exists s',
          Run_step e i g s
          = Some (LLog ("ERROR: Worker-" +++ itoa (W_ID g)
                        +++ " failed to process Task " +++ itoa (ID task)
                        +++ ": " +++ err), s')
          /\ pool s' = <[i:=set_pc WFetch g]> (pool s)
          /\ taskQueue s' = taskQueue s
          /\ resultWriter s' = resultWriter s)
  /\ (forall e i g s l s' g',
        Run_step e i g s = Some (l, s') ->
        pool s !! i = Some g -> pool s' !! i = Some g' ->
        left_loop g = false -> left_loop g' = true ->
        pc g = WFetch /\ l = LDrained (W_ID g)
        /\ exists task tq, GetTask (taskQueue s) = Ret (task, false, tq))
  /\ (forall evs tr s w n,
        exec N T evs init = Some (tr, s) ->
        In (LDone w n) tr -> In (LDrained w) tr)
  /\ (forall fuel workerId n w task rest now1 now2 now4 fl more,
         Java.queue (Java.taskQueue w) = task :: rest ->
         Java.answers w
         = Java.mkAnswer now1 None false :: Java.mkAnswer now2 None false
           :: Java.mkAnswer now2 (Some fl) false :: Java.mkAnswer now4 None false :: more ->
         Java.run_loop (S fuel) workerId n w
         = Java.run_loop fuel workerId (Java.wrap (n + 1))
             (Java.mkWorld (Java.mkTaskQueue rest)
                (Java.resultWriter w
                 ++ [fragment (reached fl)
                       (result_line (ID task) workerId (DataValue task)
                          (Java.wrap (Java.wrap (DataValue task * 2) + ID task))
                        +++ newline)])
                (Java.logger w
                 ++ ["[" +++ now1 +++ "] " +++ "Worker-" +++ itoa workerId
                         +++ " processing " +++ Task_String task +++ newline;
                     "[" +++ now4 +++ "] " +++ "ERROR: Worker-" +++ itoa workerId
                         +++ " failed to write result for Task " +++ itoa (ID task)
                         +++ ": " +++ reason fl +++ newline])
                (Java.System_err w
                 ++ ["[Worker-" +++ itoa workerId
                     +++ "] ERROR: Failed to write result: " +++ reason fl +++ newline])
                more))
  /\ (forall fuel workerId n w task rest now1 now2 io2 now3 now4 now5 more,
         Java.queue (Java.taskQueue w) = task :: rest ->
         Java.answers w
         = Java.mkAnswer now1 None false :: Java.mkAnswer now2 io2 true
           :: Java.mkAnswer now3 None false :: Java.mkAnswer now4 None false
           :: Java.mkAnswer now5 None false :: more ->
         Java.run_loop (S fuel) workerId n w
         = Java.run_loop fuel workerId (Java.wrap (n + 1))
             (Java.mkWorld (Java.mkTaskQueue rest)
                (Java.resultWriter w
                 ++ ["Task " +++ itoa (ID task) +++ " interrupted" +++ newline])
                (Java.logger w
                 ++ ["[" +++ now1 +++ "] " +++ "Worker-" +++ itoa workerId
                         +++ " processing " +++ Task_String task +++ newline;
                     "[" +++ now3 +++ "] " +++ "ERROR: Worker-" +++ itoa workerId
                         +++ " interrupted during processing" +++ newline;
                     "[" +++ now5 +++ "] " +++ "Worker-" +++ itoa workerId
                         +++ " completed Task " +++ itoa (ID task) +++ newline])
                (Java.System_err w) more))
  /\ (forall fuel workerId n w,
        match Java.queue (Java.taskQueue w) with
        | task :: rest =>
            exists w' r piece,
              Java.run_loop (S fuel) workerId n w
              = Java.run_loop fuel workerId (Java.wrap (n + 1)) w'
              /\ Java.queue (Java.taskQueue w') = rest
              /\ Java.resultWriter w' = Java.resultWriter w ++ [piece]
              /\ no_newline r
              /\ (piece = r +++ newline \/ proper_prefix piece (r +++ newline))
        | [] =>
            fst (Java.run_loop (S fuel) workerId n w) = Some n
            /\ Java.resultWriter (snd (Java.run_loop (S fuel) workerId n w))
               = Java.resultWriter w
        end).
Proof.
  split; [|split; [|split; [|split; [|split; [|split; [|split]]]]]];
    [..| apply Java_run_loop_write_failure | apply Java_run_loop_interrupted
     | apply Java_run_loop_turn].
  - intros e i g s task result fl Hpc Hio. unfold Run_step.
    rewrite Hpc, Hio. unfold WriteResult, file_write, Errorf.
    cbn -[fragment String.append]. rewrite append_empty_r.
    eexists. split; [done|]. repeat (split; [done|]).
    apply fragment_proper, line_nonempty.
  - intros e i g s task err Hpc. unfold Run_step. rewrite Hpc.
    assert (Sprintf "ERROR: %s failed to write result for Task %d: %v"
                    [ArgStr (workerName g); ArgInt (ID task); ArgStr err]
            = "ERROR: Worker-" +++ itoa (W_ID g)
              +++ " failed to write result for Task " +++ itoa (ID task)
              +++ ": " +++ err) as ->.
    { unfold workerName. simpl.
      by rewrite !append_empty_r, ?append_assoc_str. }
    eexists. split; [reflexivity | done].
  - intros e i g s task err Hpc. unfold Run_step. rewrite Hpc.
    assert (Sprintf "ERROR: %s failed to process Task %d: %v"
                    [ArgStr (workerName g); ArgInt (ID task); ArgStr err]
            = "ERROR: Worker-" +++ itoa (W_ID g)
              +++ " failed to process Task " +++ itoa (ID task)
              +++ ": " +++ err) as ->.
    { unfold workerName. simpl.
      by rewrite !append_empty_r, ?append_assoc_str. }
    eexists. split; [reflexivity | done].
  - intros e i g s l s' g' H Hg Hg' Hin Hout.
    assert (i < length (pool s))%nat as Hi by (by eapply lookup_lt_Some).
    pose proof H as H0. unfold left_loop in *.
    run_cases H; rewrite ?Hpc in *; try done;
      rewrite list_lookup_insert_eq in Hg' by done; simplify_eq; try done.
    split; [done|]. split; [done|].
    unfold Run_step in H0. rewrite Hpc in H0.
    destruct (GetTask (taskQueue s)) as [[[t b] tq]| |]; try done.
    destruct b; simplify_eq. eauto.
  - intros evs tr s w n H Hin.
    destruct (exec_Inv0 _ _ _ H) as [_ _ _ [_ Hlab] _ _].
    by eapply done_after_drained.
Qed.

End Runs.

(** ** Complete runs *)

Lemma written_all_attempts tr :
  failed_writes tr = [] ->
  (fun x => snd (fst x)) <$> written tr = write_attempts tr.
Proof.
  unfold failed_writes, written, write_attempts.
  induction tr as [|l tr IH]; [done|].
  rewrite !bind_cons, fmap_app. intros H. apply app_eq_nil in H as [Hl Htr].
  rewrite (IH Htr). f_equal.
  by destruct l as [| | | | | | |w t r [err|]| | | |].
Qed.

Lemma all_done_holding s : all_done s = true -> holding s = [].
Proof.
  rewrite all_done_Forall. unfold holding.
  induction 1 as [|g l Hg _ IH]; [done|].
  rewrite bind_cons, IH, holding_of_pc.
  unfold is_done in Hg. by destruct (pc g).
Qed.

(** When [main] has returned and there was a worker, every task has
    been dequeued, in the order of its enqueuing, and handed to
    [WriteResult]. *)
Lemma all_tasks_attempted N T evs tr s :
  N < max_int -> T < max_int -> 1 <= N ->
  exec N T evs init = Some (tr, s) ->
  terminated s ->
  snd <$> dequeued tr = preload_task <$> seqZ 1 T
  /\ write_attempts tr ≡ₚ preload_task <$> seqZ 1 T.
Proof.
  intros HN HT HN1 H Ht.
  pose proof (terminated_all_done _ _ _ _ _ H Ht) as Hd.
  pose proof (exec_Inv _ _ HT _ _ _ H)
    as [[_ Hcons _ [_ Hlab] (_ & _ & Hleft) _] Hmain Hfifo _].
  pose proof (reach_spawn_inv N T HN _ _ (exec_reach _ _ _ _ _ H)) as [Hids Hsp].
  unfold terminated in Ht. unfold main_inv in Hmain. rewrite Ht in Hmain, Hsp.
  destruct Hmain as [HT0 Henq].
  assert (buf (tasks (taskQueue s)) = []) as Hbuf.
  { apply Hleft. rewrite seqZ_cons in Hsp by lia. rewrite <- Hids in Hsp.
    pose proof (proj1 (all_done_Forall _) Hd) as Hall.
    destruct (pool s) as [|g l]; [done|].
    apply Exists_cons. left. apply Forall_cons in Hall as [Hg _].
    unfold is_done in Hg. unfold left_loop. by destruct (pc g). }
  unfold fifo_inv in Hfifo. rewrite Hbuf, app_nil_r in Hfifo.
  split; [congruence|].
  unfold conserve_inv in Hcons.
  rewrite (compute_failed_nil _ _ Hlab), (all_done_holding _ Hd) in Hcons.
  rewrite !app_nil_r in Hcons. rewrite <- Hcons. by rewrite <- Hfifo, Henq.
Qed.



(** ** The claims on single operations *)

(** C3 (amended). In the Go implementation [GetTask] returns
    [hasTask = false] exactly when the channel is closed and empty; when
    it is empty and not closed the call blocks; when it is not empty the
    call returns its oldest task with [hasTask = true] and removes it.
    The Java queue has no close operation: [getTask] never blocks and
    returns no task exactly when the queue is empty. *)
Theorem dequeue_contract :
  (forall tq : TaskQueue,
      ((exists task tq', GetTask tq = Ret (task, false, tq'))
       <-> closed (tasks tq) = true /\ buf (tasks tq) = [])
      /\ (closed (tasks tq) = false -> buf (tasks tq) = [] -> GetTask tq = Block)
      /\ (forall task rest,
             buf (tasks tq) = task :: rest ->
             GetTask tq
             = Ret (task, true, mkTaskQueue (mkChan rest (cap (tasks tq)) (closed (tasks tq)))))
      /\ (forall task tq', GetTask tq = Ret (task, true, tq') -> In task (buf (tasks tq))))
  /\ (forall jq : Java.TaskQueue,
         (fst (Java.poll jq) = None <-> Java.queue jq = [])
         /\ (forall task rest,
                Java.queue jq = task :: rest ->
                Java.poll jq = (Some task, Java.mkTaskQueue rest))).
Proof.
  split.
  - intros [[b c cl]]. unfold GetTask, chan_recv. cbn [tasks buf cap closed].
    split; [|split; [|split]].
    + split.
      * intros (task & tq' & H). destruct b; [destruct cl|]; by simplify_eq.
      * intros [-> ->]. eauto.
    + by intros -> ->.
    + by intros task rest ->.
    + intros task tq' H. destruct b; [destruct cl|]; simplify_eq. by left.
  - intros [q]. unfold Java.poll. cbn [Java.queue].
    split; [by destruct q | by intros task rest ->].
Qed.

(** C10. [Logger.Log] never reports a failure: it has no result, and
    when the write to the log file fails, the file gets what the failed
    write left, the error goes to the standard logger, and the worker that
    called [Log] goes on exactly as if the write had succeeded;
    [WriteResult], on the contrary, returns the error of a failed write to
    the worker, and no error when the write succeeds.  The same holds of
    the Java [Logger.log] and [ResultWriter.writeResult]. *)
Theorem Log_swallows_write_errors :
  (forall now stamp fl l m,
      Log now stamp (Some fl) l m
      = (mkLogger (log_file l ++ [fragment (reached fl) (log_entry now m)]),
         [stamp +++ " ERROR: Failed to write log: " +++ reason fl +++ newline]))
  /\ (forall e e' i g s m s1,
         Run_step e i g s = Some (LLog m, s1) ->
         exists s2,
           Run_step e' i g s = Some (LLog m, s2)
           /\ pool s2 = pool s1 /\ taskQueue s2 = taskQueue s1
           /\ resultWriter s2 = resultWriter s1 /\ wg s2 = wg s1
           /\ main s2 = main s1 /\ closer s2 = closer s1)
  /\ (forall io rw result,
         snd (WriteResult io rw result)
         = match io with
           | Some fl => Some ("failed to write result: " +++ reason fl)
           | None => None
           end)
  /\ (forall e i g s task result fl,
         pc g = WWrite task result -> io e = Some fl ->
         exists s',
           Run_step e i g s
           = Some (LWrite (W_ID g) task result
                          (Some ("failed to write result: " +++ reason fl)), s')
           /\ pool s'
              = <[i:=set_pc (WLogWriteErr task ("failed to write result: " +++ reason fl)) g]>
                  (pool s))
  /\ (forall m w a rest,
         Java.answers w = a :: rest -> forall fl, Java.a_io a = Some fl ->
         Java.log m w
         = (tt, Java.mkWorld (Java.taskQueue w) (Java.resultWriter w)
                  (Java.logger w
                   ++ [fragment (reached fl)
                         (("[" +++ Java.a_now a +++ "] " +++ m) +++ newline)])
                  (Java.System_err w
                   ++ ["ERROR: Failed to write log: " +++ reason fl +++ newline])
                  rest))
  /\ (forall result w a rest,
         Java.answers w = a :: rest -> forall fl, Java.a_io a = Some fl ->
         Java.writeResult result w
         = (Some (reason fl),
            Java.mkWorld (Java.taskQueue w)
              (Java.resultWriter w ++ [fragment (reached fl) (result +++ newline)])
              (Java.logger w) (Java.System_err w) rest)).
Proof.
  split; [|split; [|split; [|split; [|split]]]].
  - intros now stamp fl l m. by rewrite Log_failed.
  - intros e e' i g s m s1 H. unfold Run_step in *.
    destruct (pc g); cases_in H; eexists; (split; [reflexivity|done]).
  - intros [fl|] [f] result; unfold WriteResult, file_write, Errorf; [|done].
    cbn -[fragment String.append]. by rewrite append_empty_r.
  - intros e i g s task result fl Hpc Hio. unfold Run_step.
    rewrite Hpc, Hio. unfold WriteResult, file_write, Errorf.
    cbn -[fragment String.append]. rewrite append_empty_r.
    eexists. split; done.
  - intros m w a rest Ha fl Hio.
    unfold Java.log, Java.bind, Java.ask, file_write. by rewrite Ha, Hio.
  - intros result w a rest Ha fl Hio.
    unfold Java.writeResult, Java.bind, Java.ask, file_write. by rewrite Ha, Hio.
Qed.


(** ** The theorems on concrete runs *)

Example run_B_terminates :
  terminated (state_of 5 20 run_B) /\ length (result_lines (state_of 5 20 run_B)) = 20%nat.
Proof. vm_compute. split; reflexivity. Qed.

Example run_D_loses_one_line :
  terminated (state_of 5 20 run_D)
  /\ length (result_lines (state_of 5 20 run_D)) = 19%nat
  /\ total_processed (state_of 5 20 run_D) = 20
  /\ (snd <$> (fst <$> failed_writes (trace_of 5 20 run_D))) = [preload_task 7].
Proof. vm_compute. repeat split; reflexivity. Qed.

Example run_A_is_scenario_A :
  terminated (state_of 1 1 run_A)
  /\ failed_writes (trace_of 1 1 run_A) = []
  /\ result_lines (state_of 1 1 run_A)
     = ["Task 1 processed by Worker-1 | Original: 100 | Processed: 201" +++ newline].
Proof. vm_compute. repeat split; reflexivity. Qed.

(** With a log file that cannot be written the run is the same for the
    workers: twenty result lines, a log without a single complete line,
    and the complaints on standard error. *)
Example run_without_log_completes :
  terminated (state_of 5 20 run_without_log)
  /\ length (result_lines (state_of 5 20 run_without_log)) = 20%nat
  /\ lines_of (log_file (logger (state_of 5 20 run_without_log))) = []
  /\ length (stderr (state_of 5 20 run_without_log)) = 79%nat
  /\ hd EmptyString (stderr (state_of 5 20 run_without_log))
     = "2025/11/02 10:00:00 ERROR: Failed to write log: no space left on device"
       +++ newline.
Proof. vm_compute. repeat split; reflexivity. Qed.

Example Java_scenario_A_result :
  fst (Java_scenario_A []) = Some 1
  /\ Java.resultWriter (snd (Java_scenario_A []))
     = ["Task 1 processed by Worker-1 | Original: 100 | Processed: 201" +++ newline].
Proof. vm_compute. split; reflexivity. Qed.

(** The Java worker with a failing result write: counted, not written,
    and reported on [System.err]. *)
Example Java_scenario_A_failing :
  let answers := [Java.fine; Java.fine; Java.fine; Java.fine;
                  Java.mkAnswer "2025-11-02 10:00:00.000"
                                (Some (mkFailure "disk full" 6)) false] in
  fst (Java_scenario_A answers) = Some 1
  /\ Java.resultWriter (snd (Java_scenario_A answers)) = ["Task 1"]
  /\ lines_of (Java.resultWriter (snd (Java_scenario_A answers))) = []
  /\ Java.System_err (snd (Java_scenario_A answers))
     = ["[Worker-1] ERROR: Failed to write result: disk full" +++ newline].
Proof. vm_compute. repeat split; reflexivity. Qed.

Lemma close_after_all_enqueues_witness :
  let tr := trace_of 5 20 run_B in
  (exists tr0 tr1',
      fst (split_at_close tr) = tr0 ++ LSpawnCloser :: tr1'
      /\ enqueued tr0 = preload_task <$> seqZ 1 20
      /\ enqueued tr1' = [])
  /\ enqueued (fst (split_at_close tr)) = preload_task <$> seqZ 1 20
  /\ enqueued (snd (split_at_close tr)) = [].
Proof.
  apply (close_after_all_enqueues 5 20 eq_refl run_B _ _ (state_of 5 20 run_B)).
  vm_compute. reflexivity.
Defined.

Lemma processed_count_at_termination_witness :
  sumZ (reported (trace_of 5 20 run_D)) = total_processed (state_of 5 20 run_D)
  /\ total_processed (state_of 5 20 run_D)
     = Z.of_nat (length (result_lines (state_of 5 20 run_D)))
       + Z.of_nat (length (failed_writes (trace_of 5 20 run_D))).
Proof.
  destruct (processed_count_at_termination 5 20 eq_refl run_D
              (trace_of 5 20 run_D) (state_of 5 20 run_D)) as (Hr & Hc & _).
  - vm_compute. reflexivity.
  - vm_compute. reflexivity.
  - split; [exact Hr | exact Hc].
Defined.

(** C2, as stated, fails: one worker, one task, and the result write
    fails.  The worker terminates with [tasksProcessed = 1] and the
    results file has no line. *)
Lemma count_exceeds_lines_on_write_failure :
  let s := state_of 1 1 run_A_failing in
  exec 1 1 run_A_failing init = Some (trace_of 1 1 run_A_failing, s)
  /\ terminated s
  /\ all_done s = true
  /\ reported (trace_of 1 1 run_A_failing) = [1]
  /\ total_processed s = 1
  /\ result_lines s = []
  /\ total_processed s <> Z.of_nat (length (result_lines s)).
Proof. vm_compute. repeat split; try reflexivity. discriminate. Qed.

(** C3, as stated, fails on the Java queue: a queue that was just
    created, that is empty and that nothing has closed, answers [getTask]
    with no task at once. *)
Lemma Java_getTask_on_open_empty_queue :
  Java.getTask (Java.start []) = (None, Java.start []).
Proof. reflexivity. Qed.


(** * Further properties *)

(** ** The queue, by itself *)

Lemma AddTasks_open l : forall tq,
  closed (tasks tq) = false ->
  Z.of_nat (length (buf (tasks tq))) + Z.of_nat (length l) <= cap (tasks tq) ->
  AddTasks tq l
  = Ret (mkTaskQueue (mkChan (buf (tasks tq) ++ l) (cap (tasks tq)) false)).
Proof.
  induction l as [|t l IH]; intros [[b c cl]] Hopen Hroom; cbn in *; subst cl.
  - by rewrite app_nil_r.
  - unfold AddTask, chan_send. cbn [tasks buf cap closed].
    destruct (Z.ltb_spec (Z.of_nat (length b)) c); [|lia].
    rewrite IH; cbn [tasks buf cap closed]; rewrite ?length_app; cbn [length]; [|done|lia].
    by rewrite <- app_assoc.
Qed.

Lemma AddTasks_full l : forall tq,
  closed (tasks tq) = false ->
  cap (tasks tq) < Z.of_nat (length (buf (tasks tq))) + Z.of_nat (length l) ->
  Z.of_nat (length (buf (tasks tq))) <= cap (tasks tq) ->
  AddTasks tq l = Block.
Proof.
  induction l as [|t l IH]; intros [[b c cl]] Hopen Hfull Hle; cbn in *; subst cl; [lia|].
  unfold AddTask, chan_send. cbn [tasks buf cap closed].
  destruct (Z.ltb_spec (Z.of_nat (length b)) c); [|done].
  apply IH; cbn [tasks buf cap closed]; rewrite ?length_app; cbn [length]; [done|lia|lia].
Qed.

Lemma GetTasks_buf l : forall tq rest,
  buf (tasks tq) = l ++ rest ->
  GetTasks (length l) tq
  = Ret ((fun t => (t, true)) <$> l,
         mkTaskQueue (mkChan rest (cap (tasks tq)) (closed (tasks tq)))).
Proof.
  induction l as [|t l IH]; intros [[b c cl]] rest Hb; cbn in Hb; subst b; [done|].
  cbn [length GetTasks]. unfold GetTask, chan_recv. cbn [tasks buf cap closed app].
  by rewrite (IH _ rest).
Qed.

Lemma GetTasks_exhausted k c :
  GetTasks k (mkTaskQueue (mkChan [] c true))
  = Ret (replicate k (zeroTask, false), mkTaskQueue (mkChan [] c true)).
Proof. induction k as [|k IH]; [done|]. cbn [GetTasks replicate]. cbn. by rewrite IH. Qed.

Lemma GetTasks_app n m : forall tq l tq',
  GetTasks n tq = Ret (l, tq') ->
  GetTasks (n + m) tq
  = match GetTasks m tq' with
    | Ret (l', tq'') => Ret (l ++ l', tq'')
    | Block => Block
    | Panic msg => Panic msg
    end.
Proof.
  induction n as [|n IH]; intros tq l tq' H; simplify_eq/=.
  - by destruct (GetTasks m tq') as [[l' tq'']| |].
  - destruct (GetTask tq) as [[[t ok] tq1]| |]; try done.
    destruct (GetTasks n tq1) as [[l1 tq2]| |] eqn:H1; simplify_eq.
    rewrite (IH _ _ _ H1). by destruct (GetTasks m tq') as [[l' tq'']| |].
Qed.

(** ** countBytes *)

Lemma occurrences_le b s : (occurrences b s <= length s)%nat.
Proof. unfold occurrences. apply length_filter. Qed.

Lemma occurrences_zero b s : occurrences b s = 0%nat <-> ~ In b s.
Proof.
  induction s as [|c s IH]; [split; [by intros _ [] | done]|].
  rewrite occurrences_cons. cbn [In].
  destruct (Byte.eqb c b) eqn:Hcb.
  - apply Byte.byte_dec_bl in Hcb. split; [done | intros Hn; destruct Hn; by left].
  - cbn [Nat.add]. rewrite IH. split; [|tauto].
    intros Hn [Heq|Hs]; [|done].
    apply Byte.byte_dec_lb in Heq. congruence.
Qed.

Lemma countBytes_loop_occ b s : forall count,
  0 <= count ->
  count + Z.of_nat (occurrences b s) <= max_int ->
  countBytes_loop count s b = count + Z.of_nat (occurrences b s).
Proof.
  induction s as [|c s IH]; intros count H0 Hmax; cbn [countBytes_loop].
  - unfold occurrences. cbn. lia.
  - rewrite occurrences_cons in *. destruct (Byte.eqb c b).
    + rewrite wrap_small by (unfold in_int, min_int, max_int, int_bits in *; lia).
      rewrite IH; lia.
    + rewrite IH; cbn [Nat.add] in *; lia.
Qed.

Lemma countBytes_occ b s :
  Z.of_nat (occurrences b s) <= max_int ->
  countBytes s b = Z.of_nat (occurrences b s).
Proof. intros H. unfold countBytes. rewrite countBytes_loop_occ; lia. Qed.

(** ** displaySummary *)

Lemma read_loop_occ now stamp io l reads : forall bs count,
  bytes_read reads = Some bs ->
  0 <= count ->
  count + Z.of_nat (occurrences Byte.x0a bs) <= max_int ->
  read_loop now stamp io reads count l
  = Some (count + Z.of_nat (occurrences Byte.x0a bs), l, []).
Proof.
  induction reads as [|r reads IH]; intros bs count Hb H0 Hmax; [done|].
  destruct r as [chunk|chunk|chunk err]; cbn [bytes_read read_loop lineSep hd] in *.
  - destruct (bytes_read reads) as [bs'|] eqn:Hr; simplify_eq.
    rewrite occurrences_app in *.
    rewrite countBytes_occ by lia.
    rewrite wrap_small by (unfold in_int, min_int, max_int, int_bits in *; lia).
    rewrite (IH bs') by (done || lia). do 3 f_equal. lia.
  - simplify_eq. rewrite countBytes_occ by lia.
    by rewrite wrap_small by (unfold in_int, min_int, max_int, int_bits in *; lia).
  - done.
Qed.

Lemma read_loop_error now stamp io l reads : forall bs count,
  bytes_before_error reads = Some bs ->
  0 <= count ->
  count + Z.of_nat (occurrences Byte.x0a bs) <= max_int ->
  exists err,
    In err (reads ≫= (fun r => match r with ReadErr _ e => [e] | _ => [] end))
    /\ read_loop now stamp io reads count l
       = Some (count + Z.of_nat (occurrences Byte.x0a bs),
               fst (Log now stamp io l ("ERROR: Failed to read results file: " +++ err)),
               snd (Log now stamp io l ("ERROR: Failed to read results file: " +++ err))).
Proof.
  induction reads as [|r reads IH]; intros bs count Hb H0 Hmax; [done|].
  destruct r as [chunk|chunk|chunk err]; cbn [bytes_before_error read_loop lineSep hd] in *.
  - destruct (bytes_before_error reads) as [bs'|] eqn:Hr; simplify_eq.
    rewrite occurrences_app in *.
    rewrite countBytes_occ by lia.
    rewrite wrap_small by (unfold in_int, min_int, max_int, int_bits in *; lia).
    destruct (IH bs' (count + Z.of_nat (occurrences Byte.x0a chunk)))
      as (err & Hin & ->); [done | lia | lia |].
    exists err. split; [done|]. do 3 f_equal. lia.
  - done.
  - simplify_eq. exists err. split; [by left|].
    cbn [Sprintf render]. rewrite append_empty_r.
    unfold occurrences. cbn. do 3 f_equal. lia.
Qed.

Lemma bytes_read_chunks size : forall fuel bs,
  (0 < size)%nat -> (length bs < fuel)%nat ->
  bytes_read (chunks fuel size bs) = Some bs.
Proof.
  induction fuel as [|fuel IH]; intros bs Hsize Hfuel; [lia|].
  destruct bs as [|b bs]; [done|].
  cbn [chunks bytes_read]. rewrite IH; [by rewrite take_drop | done |].
  rewrite length_drop. cbn [length] in *. lia.
Qed.

(** ** More invariants of the reachable states *)

Lemma GetTask_cap tq t ok tq' :
  GetTask tq = Ret (t, ok, tq') -> cap (tasks tq') = cap (tasks tq).
Proof.
  unfold GetTask, chan_recv. destruct tq as [[b c cl]]; simpl.
  destruct b; [destruct cl|]; intros; by simplify_eq/=.
Qed.

Lemma sumZ_running_pos l :
  sumZ (running_of <$> l) <> 0 ->
  exists k g, l !! k = Some g /\ is_done g = false.
Proof.
  induction l as [|g l IH]; [done|]. rewrite fmap_cons, sumZ_cons.
  destruct (is_done g) eqn:Hd.
  - unfold running_of at 1. rewrite Hd. intros H.
    destruct IH as (k & g' & Hk & Hg'); [lia|]. by exists (S k), g'.
  - intros _. by exists 0%nat, g.
Qed.

Lemma running_nonneg l : Forall (fun g => 0 <= running_of g) l.
Proof.
  apply Forall_forall. intros g _. unfold running_of. destruct (is_done g); lia.
Qed.

Section MoreInvariants.

Variables N T : Z.

Lemma cap_inv_step s e l s' :
  cap_inv T s -> step N T e s = Some (l, s') -> cap_inv T s'.
Proof.
  intros Hcap H. unfold cap_inv in *. split_step H.
  - main_cases H; intros _; try done; apply Hcap; done.
  - closer_cases H. intros Hm. by apply Hcap.
  - destruct (Run_step_frame _ _ _ _ _ _ H) as (Hm' & _). rewrite Hm'. intros Hm.
    rewrite <- (Hcap Hm). clear Hcap.
    unfold Run_step in H. destruct (pc g) eqn:Hpc; try (cases_in H; done).
    destruct (GetTask (taskQueue s)) as [[[t ok] tq]| |] eqn:HG; try done.
    pose proof (GetTask_cap _ _ _ _ HG). by destruct ok; simplify_eq.
Qed.

Lemma reach_cap_inv tr s : reach N T tr s -> cap_inv T s.
Proof.
  induction 1; [|by eapply cap_inv_step].
  intros Hm. by destruct Hm.
Qed.

Lemma logged_snoc tr l :
  logged (tr ++ [l]) = logged tr ++ match l with LLog m => [m] | _ => [] end.
Proof. unfold logged. by rewrite bind_snoc. Qed.

Lemma log_inv_Log tr e m lg se :
  log_inv_of tr lg se ->
  log_inv_of (tr ++ [LLog m]) (fst (Log (now e) (stamp e) (io e) lg m))
             (se ++ snd (Log (now e) (stamp e) (io e) lg m)).
Proof.
  intros Hacc. unfold log_inv_of in *. rewrite logged_snoc.
  destruct (io e) as [fl|].
  - rewrite Log_failed. cbn [fst snd log_file].
    eapply account_failed; [done|]. apply fragment_proper, log_entry_nonempty.
  - rewrite Log_written. cbn [fst snd log_file]. rewrite app_nil_r.
    by apply account_written.
Qed.

Lemma log_account_length ms f errs :
  log_account ms f errs ->
  length f = length ms /\ (length errs <= length ms)%nat.
Proof.
  induction 1 as [|ms f errs now0 m _ [IH1 IH2]
                  |ms f errs now0 stamp0 err piece m _ [IH1 IH2] _];
    rewrite ?length_app; cbn [length]; lia.
Qed.

Lemma log_account_pieces ms f errs :
  log_account ms f errs ->
  Forall2 (fun piece m =>
             exists now0, piece = log_entry now0 m
                          \/ proper_prefix piece (log_entry now0 m)) f ms.
Proof.
  induction 1 as [|ms f errs now0 m _ IH|ms f errs now0 stamp0 err piece m _ IH Hp].
  - constructor.
  - apply Forall2_app; [done|]. constructor; [|constructor]. exists now0. by left.
  - apply Forall2_app; [done|]. constructor; [|constructor]. exists now0. by right.
Qed.

Lemma log_account_complaints ms f errs :
  log_account ms f errs ->
  Forall (fun line => exists stamp0 err, line = log_complaint stamp0 err) errs.
Proof.
  induction 1 as [|ms f errs now0 m _ IH|ms f errs now0 stamp0 err piece m _ IH Hp];
    [constructor | done |].
  apply Forall_app. split; [done|]. apply Forall_singleton. by exists stamp0, err.
Qed.

Lemma log_account_quiet ms f errs :
  log_account ms f errs -> errs = [] ->
  exists nows, length nows = length ms /\ f = zip_with log_entry nows ms.
Proof.
  induction 1 as [|ms f errs now0 m _ IH|ms f errs now0 stamp0 err piece m _ IH Hp];
    intros Herrs.
  - by exists [].
  - destruct (IH Herrs) as (nows & Hn & ->).
    exists (nows ++ [now0]). rewrite length_app, length_app. cbn [length].
    split; [lia|]. by rewrite zip_with_app.
  - by apply app_eq_nil in Herrs as [_ ?].
Qed.

Lemma log_inv_other tr l lg se :
  (forall m, l <> LLog m) -> log_inv_of tr lg se -> log_inv_of (tr ++ [l]) lg se.
Proof.
  intros Hl H. unfold log_inv_of in *. rewrite logged_snoc.
  destruct l; try (by rewrite app_nil_r). by destruct (Hl message).
Qed.

Lemma log_inv_step tr s e l s' :
  log_inv tr s -> step N T e s = Some (l, s') -> log_inv (tr ++ [l]) s'.
Proof.
  intros Hlog H. unfold log_inv in *.
  split_step H.
  - main_cases H; first [by apply log_inv_Log | by apply log_inv_other].
  - closer_cases H. by apply log_inv_other.
  - run_cases H; first [by apply log_inv_Log | by apply log_inv_other].
Qed.

Lemma reach_log_inv tr s : reach N T tr s -> log_inv tr s.
Proof.
  induction 1; [|by eapply log_inv_step].
  constructor.
Qed.

Hypothesis T_bound : T < max_int.
Hypothesis N_bound : N < max_int.

(** Every step brings the end one step nearer, and a call of [Log]
    uses up one of the calls to come. *)
Lemma left_step tr s e l s' :
  Inv T tr s -> spawn_inv N tr s -> step N T e s = Some (l, s') ->
  steps_left N T s' = steps_left N T s - 1
  /\ logs_left N T s' + Z.of_nat (length (logged (tr ++ [l])))
     = logs_left N T s + Z.of_nat (length (logged tr)).
Proof.
  intros [[Hgo _ _ _ _ _] Hmain Hfifo _] [_ Hsp] H. unfold steps_left, logs_left.
  rewrite logged_snoc, length_app.
  split_step H.
  - unfold main_inv in Hmain.
    assert (main s = MInit -> buf (tasks (taskQueue s)) = []) as Hb0.
    { intros Hm. rewrite Hm in Hmain. subst tr. unfold fifo_inv in Hfifo.
      symmetry. exact Hfifo. }
    assert (past_spawn (main s) = false -> closer_left (closer s) = 1) as Hc0.
    { intros Hp. destruct Hgo as (_ & Hc & _). apply Hc in Hp. by rewrite Hp. }
    main_cases H; rewrite ?Hm in *; cbn [main_left main_logs_left closer_left length];
      try rewrite (Hb0 eq_refl); try rewrite (Hc0 eq_refl);
      rewrite ?fmap_app, ?sumZ_app, ?length_app;
      cbn [fmap list_fmap sumZ foldr length worker_left worker_logs_left pc];
      rewrite ?wrap_small by (unfold in_int, min_int, max_int, int_bits in *; lia);
      lia.
  - closer_cases H. cbn [closer_left length]. lia.
  - destruct (Run_step_frame _ _ _ _ _ _ H) as (Hm' & Hc' & _). rewrite Hm', Hc'.
    run_cases H;
      rewrite (sumZ_insert (fun g => worker_left (pc g)) _ _ _ _ Hg);
      rewrite (sumZ_insert (fun g => worker_logs_left (pc g)) _ _ _ _ Hg);
      proj; rewrite ?Hpc, ?Hbuf; cbn [worker_left worker_logs_left length]; lia.
Qed.

Lemma exits_inv_step tr s e l s' :
  exits_inv tr s -> step N T e s = Some (l, s') -> exits_inv (tr ++ [l]) s'.
Proof.
  intros [Hd Hr] H. unfold exits_inv, drained, reported in *.
  rewrite !bind_snoc, !length_app.
  split_step H.
  - main_cases H; rewrite ?fmap_app, ?sumZ_app; cbn; lia.
  - closer_cases H. cbn. lia.
  - run_cases H;
      rewrite (sumZ_insert (fun g => if left_loop g then 1 else 0) _ _ _ _ Hg);
      rewrite (sumZ_insert (fun g => if is_done g then 1 else 0) _ _ _ _ Hg);
      rewrite <- Hd, <- Hr; cbn beta;
      unfold left_loop, is_done; proj; rewrite ?Hpc; cbn [length]; lia.
Qed.

Lemma reach_exits_inv tr s : reach N T tr s -> exits_inv tr s.
Proof. induction 1; [done | by eapply exits_inv_step]. Qed.

Lemma sumZ_ones {A} (f : A -> bool) (l : list A) :
  Forall (fun a => f a = true) l ->
  sumZ ((fun a => if f a then 1 else 0) <$> l) = Z.of_nat (length l).
Proof.
  induction 1 as [|a l Ha _ IH]; [done|].
  rewrite fmap_cons, sumZ_cons, IH, Ha. cbn [length]. lia.
Qed.

End MoreInvariants.

(** ** Which goroutine a step belongs to *)

Lemma step_main N T now stamp io s :
  main s <> MExit ->
  step N T (mkEvent AMain now stamp io) s = main_step N T (mkEvent AMain now stamp io) s.
Proof. unfold step. by destruct (main s). Qed.

Lemma step_closer N T now stamp io s :
  main s <> MExit -> step N T (mkEvent ACloser now stamp io) s = closer_step s.
Proof. unfold step. by destruct (main s). Qed.

Lemma step_worker N T now stamp io s k g :
  main s <> MExit -> pool s !! k = Some g ->
  step N T (mkEvent (AWorker k) now stamp io) s = Run_step (mkEvent (AWorker k) now stamp io) k g s.
Proof. unfold step. intros Hm Hk. cbn [who]. rewrite Hk. by destruct (main s). Qed.

Lemma exec_length N T evs : forall s tr s',
  exec N T evs s = Some (tr, s') -> length tr = length evs.
Proof.
  induction evs as [|e evs IH]; intros s tr s' H; simplify_eq/=; [done|].
  destruct (step N T e s) as [[l s1]|]; [|done].
  destruct (exec N T evs s1) as [[tr1 s2]|] eqn:Hex; simplify_eq.
  cbn [length]. by rewrite (IH _ _ _ Hex).
Qed.

Lemma exec_app N T evs1 evs2 : forall s tr1 s1 tr2 s2,
  exec N T evs1 s = Some (tr1, s1) -> exec N T evs2 s1 = Some (tr2, s2) ->
  exec N T (evs1 ++ evs2) s = Some (tr1 ++ tr2, s2).
Proof.
  induction evs1 as [|e evs1 IH]; intros s tr1 s1 tr2 s2 H1 H2; simplify_eq/=; [done|].
  destruct (step N T e s) as [[l s0]|]; [|done].
  destruct (exec N T evs1 s0) as [[tr0 s3]|] eqn:Hex; simplify_eq.
  by rewrite (IH _ _ _ _ _ Hex H2).
Qed.

Lemma worker_left_nonneg l :
  0 <= sumZ ((fun g => worker_left (pc g)) <$> l)
  /\ 0 <= sumZ ((fun g => worker_logs_left (pc g)) <$> l).
Proof.
  split; apply sumZ_nonneg, Forall_fmap, Forall_forall; intros g _; cbn;
    destruct (pc g); cbn; lia.
Qed.

Lemma left_nonneg N T s : 0 <= steps_left N T s /\ 0 <= logs_left N T s.
Proof.
  unfold steps_left, logs_left. destruct (worker_left_nonneg (pool s)).
  assert (0 <= main_left N T (main s) /\ 0 <= main_logs_left N T (main s))
    by (destruct (main s); cbn; lia).
  assert (0 <= closer_left (closer s)) by (destruct (closer s); cbn; lia).
  lia.
Qed.

Lemma all_done_nothing_left l :
  Forall (fun g => is_done g = true) l ->
  sumZ ((fun g => worker_left (pc g)) <$> l) = 0
  /\ sumZ ((fun g => worker_logs_left (pc g)) <$> l) = 0.
Proof.
  induction 1 as [|g l Hg _ [IH1 IH2]]; [done|].
  rewrite !fmap_cons, !sumZ_cons, IH1, IH2.
  unfold is_done in Hg. by destruct (pc g).
Qed.

Lemma closer_closed_in_trace N T tr s :
  reach N T tr s -> closer s = CClosed -> In LClose tr.
Proof.
  induction 1 as [|tr s e l s' Hr IH H]; [done|].
  intros Hc. apply in_or_app.
  assert (closer s = CClosed \/ closer s <> CClosed) as [Hn|Hn]
      by (destruct (closer s); auto); [by left; apply IH|].
  right. split_step H.
  - main_cases H; done.
  - closer_cases H. by left.
  - destruct (Run_step_frame _ _ _ _ _ _ H) as (_ & Hc' & _). congruence.
Qed.

(** ** Progress and the length of a run *)

Section Progress.

Variables N T : Z.
Hypothesis T_bound : T < max_int.

(** In [preloadTasks] the channel has room for the next task. *)
Lemma preload_has_room tr s i :
  reach N T tr s -> main s = MPreload i -> i <= T ->
  exists tq, AddTask (taskQueue s) (preload_task i) = Ret tq.
Proof.
  intros Hr Hm Hi.
  pose proof (reach_cap_inv _ _ _ _ Hr) as Hcap.
  pose proof (reach_Inv N T T_bound _ _ Hr) as [[Hgo _ _ _ _ _] Hmain Hfifo _].
  unfold main_inv in Hmain. rewrite Hm in Hmain. destruct Hmain as [Hi1 Henq].
  destruct Hgo as (_ & Hc & Hcl).
  assert (closed (tasks (taskQueue s)) = false) as Hopen.
  { apply not_true_is_false. intros Hx.
    apply Hcl in Hx. rewrite Hm in Hc. cbn in Hc.
    destruct Hc as [_ Hc]. specialize (Hc eq_refl). congruence. }
  unfold fifo_inv in Hfifo. apply (f_equal length) in Hfifo.
  rewrite Henq, length_fmap, length_seqZ, length_app, length_fmap in Hfifo.
  unfold AddTask, chan_send. rewrite Hopen.
  rewrite (Hcap ltac:(congruence)).
  destruct (Z.ltb_spec (Z.of_nat (length (buf (tasks (taskQueue s))))) T); [eauto | lia].
Qed.

(** The closing goroutine finds the channel open. *)
Lemma closer_finds_open tr s :
  reach N T tr s -> closer s = CSleeping ->
  exists tq, Close (taskQueue s) = Ret tq.
Proof.
  intros Hr Hc.
  pose proof (reach_Inv0 N T _ _ Hr) as [(_ & _ & Hcl) _ _ _ _ _].
  assert (closed (tasks (taskQueue s)) = false) as Hopen.
  { apply not_true_is_false. intros Hx. apply Hcl in Hx. congruence. }
  unfold Close, chan_close. rewrite Hopen. eauto.
Qed.

(** A worker that is not done is counted by the WaitGroup. *)
Lemma running_counted tr s k g :
  reach N T tr s -> pool s !! k = Some g -> is_done g = false -> 1 <= wg s.
Proof.
  intros Hr Hk Hd.
  pose proof (reach_Inv0 N T _ _ Hr) as [_ _ _ _ (Hwg & _) _].
  pose proof (sumZ_lookup_le running_of _ _ _ (running_nonneg (pool s)) Hk) as Hle.
  unfold running_of at 1 in Hle. rewrite Hd in Hle. lia.
Qed.

Lemma worker_enabled tr s k g :
  reach N T tr s -> main s <> MExit -> pool s !! k = Some g -> is_done g = false ->
  (pc g = WFetch ->
   closed (tasks (taskQueue s)) = true \/ buf (tasks (taskQueue s)) <> []) ->
  enabled N T (AWorker k) s.
Proof.
  intros Hr Hm Hk Hd Hfetch now0 stamp0 io0.
  rewrite (step_worker _ _ _ _ _ _ _ _ Hm Hk). unfold Run_step.
  pose proof (running_counted _ _ _ _ Hr Hk Hd) as Hwg.
  destruct (pc g) eqn:Hpc; try (by eexists).
  - unfold GetTask, chan_recv.
    destruct (buf (tasks (taskQueue s))) as [|t rest]; [|by eexists].
    destruct (Hfetch eq_refl) as [-> | Hne]; [by eexists | done].
  - cbn [io]. unfold WriteResult, file_write. destruct io0; by eexists.
  - destruct (Z.ltb_spec (wg s - 1) 0); [lia | by eexists].
  - unfold is_done in Hd. by rewrite Hpc in Hd.
Qed.

Lemma reach_no_deadlock tr s :
  0 <= T -> reach N T tr s -> main s <> MExit -> exists a, enabled N T a s.
Proof.
  intros HT Hr Hne.
  pose proof (reach_Inv0 N T _ _ Hr) as [(_ & Hc & Hcl) _ _ _ (Hwg & _) _].
  destruct (main s) eqn:Hm; try done.
  - exists AMain. intros now stamp io. rewrite step_main by congruence.
    unfold main_step. rewrite Hm. unfold NewTaskQueue, make_chan.
    destruct (Z.ltb_spec T 0); [lia | by eexists].
  - exists AMain. intros now stamp io. rewrite step_main by congruence.
    unfold main_step. rewrite Hm. destruct (Z.leb_spec i T); [|by eexists].
    destruct (preload_has_room _ _ _ Hr Hm) as [tq ->]; [done | by eexists].
  - exists AMain. intros now stamp io. rewrite step_main by congruence.
    unfold main_step. rewrite Hm. by eexists.
  - exists AMain. intros now stamp io. rewrite step_main by congruence.
    unfold main_step. rewrite Hm. by eexists.
  - exists AMain. intros now stamp io. rewrite step_main by congruence.
    unfold main_step. rewrite Hm. destruct (i <=? N); by eexists.
  - destruct (Z.eqb_spec (wg s) 0) as [Hz|Hnz].
    { exists AMain. intros now stamp io. rewrite step_main by congruence.
      unfold main_step. rewrite Hm, Hz. by eexists. }
    rewrite Hwg in Hnz. destruct (sumZ_running_pos _ Hnz) as (k & g & Hk & Hd).
    destruct (closer s) eqn:Hcl0.
    + destruct Hc as [Hc _]. by specialize (Hc eq_refl).
    + exists ACloser. intros now stamp io. rewrite step_closer by congruence.
      unfold closer_step. rewrite Hcl0.
      destruct (closer_finds_open _ _ Hr Hcl0) as [tq ->]. by eexists.
    + exists (AWorker k). eapply worker_enabled; try done; [congruence|].
      intros _. left. by apply Hcl.
  - exists AMain. intros now stamp io. rewrite step_main by congruence.
    unfold main_step. rewrite Hm. by eexists.
  - exists AMain. intros now stamp io. rewrite step_main by congruence.
    unfold main_step. rewrite Hm. by eexists.
Qed.

Hypothesis N_bound : N < max_int.

Lemma reach_left tr s :
  reach N T tr s ->
  Z.of_nat (length tr) + steps_left N T s = 7 * Z.max 0 T + 6 * Z.max 0 N + 8
  /\ Z.of_nat (length (logged tr)) + logs_left N T s = 3 * Z.max 0 T + 3 * Z.max 0 N + 4.
Proof.
  induction 1 as [|tr s e l s' Hr [IH1 IH2] H].
  - unfold steps_left, logs_left. cbn. lia.
  - destruct (left_step N T T_bound N_bound tr s e l s') as [H1 H2];
      [by apply (reach_Inv N) | by apply (reach_spawn_inv N T) | done |].
    rewrite length_app. cbn [length]. lia.
Qed.

(** When [main] has returned and there was a worker, nothing is left to
    do: the queue is closed and empty and every goroutine is at its
    end. *)
Lemma terminated_nothing_left tr s :
  1 <= N -> reach N T tr s -> main s = MExit ->
  closed (tasks (taskQueue s)) = true /\ buf (tasks (taskQueue s)) = []
  /\ closer s = CClosed
  /\ steps_left N T s = 0 /\ logs_left N T s = 0.
Proof.
  intros HN Hr Hm.
  pose proof (reach_Inv0 N T _ _ Hr) as [(_ & _ & Hcl) _ _ _ (_ & Hdone & Hleft) _].
  pose proof (reach_spawn_inv N T N_bound _ _ Hr) as [Hids Hsp].
  rewrite Hm in Hsp, Hdone. specialize (Hdone eq_refl).
  assert (closed (tasks (taskQueue s)) = true /\ buf (tasks (taskQueue s)) = [])
    as [Hclosed Hbuf].
  { apply Hleft. rewrite seqZ_cons in Hsp by lia. rewrite <- Hids in Hsp.
    destruct (pool s) as [|g l]; [done|].
    apply Exists_cons. left. apply Forall_cons in Hdone as [Hg _].
    unfold is_done in Hg. unfold left_loop. by destruct (pc g). }
  pose proof (proj1 Hcl Hclosed) as Hc.
  destruct (all_done_nothing_left _ Hdone) as [H1 H2].
  unfold steps_left, logs_left. rewrite Hm, Hc, Hbuf, H1, H2. by cbn.
Qed.

Lemma can_finish_from n : forall tr s,
  0 <= T -> reach N T tr s -> steps_left N T s <= Z.of_nat n ->
  exists evs' tr' s',
    exec N T evs' s = Some (tr', s') /\ terminated s'
    /\ Forall (fun e => io e = None) evs'.
Proof.
  induction n as [|n IH]; intros tr s HT Hr Hn.
  - assert (main s = MExit \/ main s <> MExit) as [Hm|Hm]
        by (destruct (main s); auto; right; done).
    { by exists [], [], s. }
    destruct (reach_no_deadlock _ _ HT Hr Hm) as [a Ha].
    destruct (Ha EmptyString EmptyString None) as [[l s1] Hs].
    destruct (left_step N T T_bound N_bound tr s
                (mkEvent a EmptyString EmptyString None) l s1)
      as [H1 _];
      [by apply (reach_Inv N) | by apply (reach_spawn_inv N T) | done |].
    pose proof (left_nonneg N T s1). lia.
  - assert (main s = MExit \/ main s <> MExit) as [Hm|Hm]
        by (destruct (main s); auto; right; done).
    { by exists [], [], s. }
    destruct (reach_no_deadlock _ _ HT Hr Hm) as [a Ha].
    destruct (Ha EmptyString EmptyString None) as [[l s1] Hs].
    destruct (left_step N T T_bound N_bound tr s
                (mkEvent a EmptyString EmptyString None) l s1)
      as [H1 _];
      [by apply (reach_Inv N) | by apply (reach_spawn_inv N T) | done |].
    destruct (IH (tr ++ [l]) s1) as (evs' & tr' & s' & Hex & Ht & Hq);
      [done | by eapply reach_step | lia |].
    exists (mkEvent a EmptyString EmptyString None :: evs'), (l :: tr'), s'.
    split; [|split; [done|by constructor]]. cbn [exec]. by rewrite Hs, Hex.
Qed.



End Progress.

(** ** The queue and the summary, as functions *)

(** X1. On a new queue of capacity [c], adding the tasks of a list no
    longer than [c] never blocks, and as many calls of [GetTask] then
    return these tasks in the order in which they were added, each with
    [true], and leave the queue as it was created, where one more
    [GetTask] blocks; adding more than [c] tasks blocks the caller. *)
Theorem queue_round_trip c l :
  0 <= c ->
  exists tq0,
    NewTaskQueue c = Ret tq0
    /\ (Z.of_nat (length l) <= c ->
        exists tq1,
          AddTasks tq0 l = Ret tq1
          /\ buf (tasks tq1) = l
          /\ GetTasks (length l) tq1 = Ret ((fun t => (t, true)) <$> l, tq0)
          /\ GetTask tq0 = Block)
    /\ (c < Z.of_nat (length l) -> AddTasks tq0 l = Block).
Proof.
  intros Hc. exists (mkTaskQueue (mkChan [] c false)). split; [|split].
  - unfold NewTaskQueue, make_chan. destruct (Z.ltb_spec c 0); [lia | done].
  - intros Hl. eexists. split; [|split; [|split]].
    + apply AddTasks_open; cbn; [done | lia].
    + done.
    + by rewrite (GetTasks_buf l _ []) by (cbn; by rewrite app_nil_r).
    + done.
  - intros Hl. apply AddTasks_full; cbn; [done | lia | lia].
Qed.

(** X2. Closing an open queue keeps the tasks it holds: the calls of
    [GetTask] that follow return them in order with [true], and every
    further call returns the zero task with [false] and leaves the queue
    closed and empty.  On the closed queue [AddTask] panics and a second
    [Close] panics. *)
Theorem close_then_drain tq k :
  closed (tasks tq) = false ->
  exists tq',
    Close tq = Ret tq'
    /\ GetTasks (length (buf (tasks tq)) + k) tq'
       = Ret (((fun t => (t, true)) <$> buf (tasks tq)) ++ replicate k (zeroTask, false),
              mkTaskQueue (mkChan [] (cap (tasks tq)) true))
    /\ (forall t, AddTask tq' t = Panic "send on closed channel")
    /\ Close tq' = Panic "close of closed channel".
Proof.
  destruct tq as [[b c cl]]. cbn [tasks buf cap closed]. intros ->.
  exists (mkTaskQueue (mkChan b c true)).
  split; [reflexivity|]. split; [|split; [|done]]; [|done].
  pose proof (GetTasks_buf b (mkTaskQueue (mkChan b c true)) []
                           ltac:(cbn; by rewrite app_nil_r)) as Hg.
  rewrite (GetTasks_app _ k _ _ _ Hg).
  cbn [tasks cap closed]. by rewrite GetTasks_exhausted.
Qed.

(** X3. [countBytes] returns the number of occurrences of the byte in
    the slice: it is zero exactly when the byte does not occur, it is at
    most the length of the slice, and the count of a concatenation is the
    sum of the counts. *)
Theorem countBytes_counts s1 s2 b :
  Z.of_nat (length (s1 ++ s2)) <= max_int ->
  countBytes s1 b = Z.of_nat (occurrences b s1)
  /\ 0 <= countBytes s1 b <= Z.of_nat (length s1)
  /\ (countBytes s1 b = 0 <-> ~ In b s1)
  /\ countBytes (s1 ++ s2) b = countBytes s1 b + countBytes s2 b.
Proof.
  rewrite length_app. intros Hlen.
  pose proof (occurrences_le b s1). pose proof (occurrences_le b s2).
  rewrite !countBytes_occ by (rewrite ?occurrences_app; lia).
  split; [done|]. split; [lia|]. split.
  - rewrite <- occurrences_zero. lia.
  - rewrite occurrences_app. lia.
Qed.

(** X4. [displaySummary] counts the line separators of the results
    file however the reads cut the file into pieces: when the file is
    opened and the reads deliver its bytes up to [io.EOF], the number
    printed is the number of line separators in the file and nothing is
    logged; in particular for reads of any fixed positive size.  When a
    read fails, the number printed counts the bytes read before the
    failure only, and the error is logged.  When the file cannot be
    opened, the error is logged and no number is printed. *)
Theorem displaySummary_counts_line_separators now stamp io l bs :
  Z.of_nat (length bs) <= max_int ->
  (forall reads,
      bytes_read reads = Some bs ->
      displaySummary now stamp io None reads l
      = Some (Some (Z.of_nat (occurrences Byte.x0a bs)), l, []))
  /\ (forall size,
         (0 < size)%nat ->
         displaySummary now stamp io None (chunks (S (length bs)) size bs) l
         = Some (Some (Z.of_nat (occurrences Byte.x0a bs)), l, []))
  /\ (forall reads,
         bytes_before_error reads = Some bs ->
         exists err,
           In err (reads ≫= (fun r => match r with ReadErr _ e => [e] | _ => [] end))
           /\ displaySummary now stamp io None reads l
              = Some (Some (Z.of_nat (occurrences Byte.x0a bs)),
                      fst (Log now stamp io l ("ERROR: Failed to read results file: " +++ err)),
                      snd (Log now stamp io l ("ERROR: Failed to read results file: " +++ err))))
  /\ (forall err reads,
         displaySummary now stamp io (Some err) reads l
         = Some (None,
                 fst (Log now stamp io l ("ERROR: Failed to open results file: " +++ err)),
                 snd (Log now stamp io l ("ERROR: Failed to open results file: " +++ err)))).
Proof.
  intros Hlen. pose proof (occurrences_le Byte.x0a bs) as Hocc.
  assert (forall reads,
             bytes_read reads = Some bs ->
             displaySummary now stamp io None reads l
             = Some (Some (Z.of_nat (occurrences Byte.x0a bs)), l, [])) as Hread.
  { intros reads Hr. unfold displaySummary.
    by rewrite (read_loop_occ now stamp io l reads bs 0 Hr) by lia. }
  split; [done|]. split; [|split].
  - intros size Hsize. apply Hread. apply bytes_read_chunks; [done | lia].
  - intros reads Hr. unfold displaySummary.
    destruct (read_loop_error now stamp io l reads bs 0 Hr) as (err & Hin & ->); [lia | lia |].
    by exists err.
  - intros err reads. unfold displaySummary. cbn [Sprintf render].
    by rewrite append_empty_r.
Qed.

(** ** The files *)

Lemma Log_prefix now stamp io l m :
  log_file l `prefix_of` log_file (fst (Log now stamp io l m)).
Proof.
  destruct io as [fl|]; rewrite ?Log_failed, ?Log_written; cbn [fst log_file];
    by eexists.
Qed.

Lemma written_cons l tr :
  written (l :: tr)
  = match l with LWrite w t r None => [(w, t, r)] | _ => [] end ++ written tr.
Proof. reflexivity. Qed.

Lemma step_files N T e s l s' :
  step N T e s = Some (l, s') ->
  (exists pieces,
      rw_file (resultWriter s') = rw_file (resultWriter s) ++ pieces
      /\ Forall2 (fun piece a => piece_of (fst a +++ newline) (snd a) piece)
                 pieces (write_results [l]))
  /\ log_file (logger s) `prefix_of` log_file (logger s')
  /\ stderr s `prefix_of` stderr s'.
Proof.
  intros H.
  split_step H.
  - main_cases H;
      (split; [exists []; split; [by rewrite app_nil_r | apply Forall2_nil_2]|]);
      split; try done; first [apply Log_prefix | by eexists].
  - closer_cases H.
    split; [exists []; split; [by rewrite app_nil_r | apply Forall2_nil_2]|done].
  - run_cases H;
      (split;
       [first [ exists []; split; [by rewrite app_nil_r | apply Forall2_nil_2]
              | eexists; split; [exact Hfile|];
                cbn -[fragment String.append]; apply Forall2_cons_2;
                [|apply Forall2_nil_2];
                first [ apply fragment_proper, line_nonempty | done ] ]
       | split; try done; first [apply Log_prefix | by eexists] ]).
Qed.

Lemma line_task_ids_written tr0 tr :
  Forall (label_ok tr0) tr ->
  line_task_ids ((fun x => snd x +++ newline) <$> written tr)
  = Some (ID <$> ((fun x => snd (fst x)) <$> written tr)).
Proof.
  intros Hlab. unfold line_task_ids.
  apply mapM_Some_2. rewrite <- list_fmap_compose.
  apply Forall2_fmap, Forall_Forall2_diag.
  eapply Forall_impl; [apply (written_results tr0), Hlab|].
  intros [[w t] r] Hr. cbn [fst snd] in *. subst r.
  rewrite processTask_result_line. apply line_task_id_result_line.
Qed.

Lemma write_results_nil tr : write_attempts tr = [] -> write_results tr = [].
Proof.
  unfold write_attempts, write_results. induction tr as [|l tr IH]; [done|].
  rewrite !bind_cons. intros H. apply app_eq_nil in H as [Hl Htr].
  rewrite (IH Htr). by destruct l.
Qed.

Lemma write_attempts_spawned tr0 tr :
  Forall (label_ok tr0) tr -> spawned tr0 = [] -> write_attempts tr = [].
Proof.
  unfold write_attempts. induction 1 as [|l tr Hl _ IH]; intros Hnil; [done|].
  rewrite bind_cons, IH by done. destruct l; try done.
  destruct Hl as [Hw _]. by rewrite Hnil in Hw.
Qed.

(** ** Runs, continued *)

Section MoreRuns.

Variables N T : Z.

Lemma exec_files evs : forall s tr s',
  exec N T evs s = Some (tr, s') ->
  (exists pieces,
      rw_file (resultWriter s') = rw_file (resultWriter s) ++ pieces
      /\ Forall2 (fun piece a => piece_of (fst a +++ newline) (snd a) piece)
                 pieces (write_results tr))
  /\ log_file (logger s) `prefix_of` log_file (logger s')
  /\ stderr s `prefix_of` stderr s'.
Proof.
  induction evs as [|e evs IH]; intros s tr s' H; simplify_eq/=.
  - split; [|done]. exists []. split; [by rewrite app_nil_r | constructor].
  - destruct (step N T e s) as [[l s1]|] eqn:Hstep; [|done].
    destruct (exec N T evs s1) as [[tr1 s2]|] eqn:Hex; simplify_eq.
    destruct (step_files _ _ _ _ _ _ Hstep) as ((p1 & H1 & Hp1) & H2 & H3).
    destruct (IH _ _ _ Hex) as ((p2 & H4 & Hp2) & H5 & H6).
    split; [|split; by etrans].
    exists (p1 ++ p2). split; [by rewrite H4, H1, <- app_assoc|].
    rewrite write_results_cons. rewrite write_results_cons in Hp1.
    change (write_results []) with (@nil (string * option error)) in Hp1.
    rewrite app_nil_r in Hp1. by apply Forall2_app.
Qed.

(** X5. The results file and the log file are only appended to: along
    any run, from any state, the results file at the end is the results
    file at the start followed by one piece for each call of
    [WriteResult], in the order of the calls: the result and a newline if
    the call returned no error, a proper part of that, possibly nothing,
    if it returned one; the log file and standard error keep what they
    held. *)
Theorem files_are_append_only evs s tr s' :
  exec N T evs s = Some (tr, s') ->
  (exists pieces,
      rw_file (resultWriter s') = rw_file (resultWriter s) ++ pieces
      /\ Forall2 (fun piece a => piece_of (fst a +++ newline) (snd a) piece)
                 pieces (write_results tr))
  /\ log_file (logger s) `prefix_of` log_file (logger s')
  /\ stderr s `prefix_of` stderr s'.
Proof. apply exec_files. Qed.

(** X6. Every call of [Log] is accounted for.  The log file holds one
    piece for each call, in the order of the calls: the entry of the call
    (the time stamp in brackets, a space, the message and the line
    terminator) if its write succeeded, a proper part of the entry if it
    failed; each failed write put one line on standard error, which is the
    date and time of the standard logger followed by
    [ERROR: Failed to write log:] and the error; when nothing went to
    standard error, the log file holds the entry of each call. *)
Theorem log_calls_accounted evs tr s :
  exec N T evs init = Some (tr, s) ->
  log_account (logged tr) (log_file (logger s)) (stderr s)
  /\ length (log_file (logger s)) = length (logged tr)
  /\ (length (stderr s) <= length (logged tr))%nat
  /\ Forall2 (fun piece m =>
                exists now,
                  piece = "[" +++ now +++ "] " +++ m +++ newline
                  \/ proper_prefix piece ("[" +++ now +++ "] " +++ m +++ newline))
             (log_file (logger s)) (logged tr)
  /\ Forall (fun line => exists stamp err,
                 line = stamp +++ " ERROR: Failed to write log: " +++ err +++ newline)
            (stderr s)
  /\ (stderr s = [] ->
      exists nows,
        length nows = length (logged tr)
        /\ log_file (logger s)
           = zip_with (fun now m => "[" +++ now +++ "] " +++ m +++ newline)
                      nows (logged tr)).
Proof.
  intros H. pose proof (reach_log_inv N T tr s (exec_reach _ _ _ _ _ H)) as Hacc.
  unfold log_inv, log_inv_of in Hacc.
  split; [done|].
  destruct (log_account_length _ _ _ Hacc) as [Hlen Hle].
  split; [done|]. split; [done|].
  split; [exact (log_account_pieces _ _ _ Hacc)|].
  split; [exact (log_account_complaints _ _ _ Hacc)|].
  exact (log_account_quiet _ _ _ Hacc).
Qed.

(** Once every worker is done and [main] is past [wg.Wait], the workers
    take no step. *)
Lemma step_after_wait e s l s' :
  step N T e s = Some (l, s') ->
  past_wait (main s) = true -> Forall (fun g => is_done g = true) (pool s) ->
  past_wait (main s') = true /\ pool s' = pool s
  /\ buf (tasks (taskQueue s')) = buf (tasks (taskQueue s))
  /\ dequeued [l] = [] /\ write_attempts [l] = [] /\ enqueued [l] = [].
Proof.
  intros H Hp Hd. split_step H.
  - main_cases H; done.
  - closer_cases H. done.
  - pose proof (Forall_lookup_1 _ _ _ _ Hd Hg) as Hdg. cbn beta in Hdg.
    unfold is_done in Hdg. unfold Run_step in H.
    destruct (pc g); done.
Qed.

Lemma exec_after_wait evs : forall s tr s',
  exec N T evs s = Some (tr, s') ->
  past_wait (main s) = true -> Forall (fun g => is_done g = true) (pool s) ->
  pool s' = pool s
  /\ buf (tasks (taskQueue s')) = buf (tasks (taskQueue s))
  /\ dequeued tr = [] /\ write_attempts tr = [] /\ enqueued tr = [].
Proof.
  induction evs as [|e evs IH]; intros s tr s' H Hp Hd; simplify_eq/=; [done|].
  destruct (step N T e s) as [[l s1]|] eqn:Hstep; [|done].
  destruct (exec N T evs s1) as [[tr1 s2]|] eqn:Hex; simplify_eq.
  destruct (step_after_wait _ _ _ _ Hstep Hp Hd) as (Hp1 & Hpool & Hbuf & Hd1 & Hw1 & He1).
  destruct (IH _ _ _ Hex Hp1) as (Hpool' & Hbuf' & Hd2 & Hw2 & He2);
    [by rewrite Hpool|].
  split; [congruence|]. split; [congruence|].
  change (l :: tr1) with ([l] ++ tr1).
  unfold dequeued, write_attempts, enqueued in *.
  rewrite !bind_app, Hd1, Hw1, He1, Hd2, Hw2, He2. done.
Qed.

Hypothesis T_bound : T < max_int.

(** X7. In every run the queue is never misused: while [main] preloads,
    the channel is open and has room for the next task, so [AddTask]
    returns without blocking; the closing goroutine finds the channel
    open, so [Close] does not panic; a worker about to call [wg.Done]
    finds the counter positive; and the channel keeps the capacity [T]
    [main] gave it and never holds more than [T] tasks. *)
Theorem queue_never_misused evs tr s :
  exec N T evs init = Some (tr, s) ->
  (forall i, main s = MPreload i -> i <= T ->
             exists tq, AddTask (taskQueue s) (preload_task i) = Ret tq)
  /\ (closer s = CSleeping -> exists tq, Close (taskQueue s) = Ret tq)
  /\ (forall k g, pool s !! k = Some g -> pc g = WExit -> 0 <= wg s - 1)
  /\ (main s <> MInit -> cap (tasks (taskQueue s)) = T)
  /\ Z.of_nat (length (buf (tasks (taskQueue s)))) <= Z.max 0 T.
Proof.
  intros H. pose proof (exec_reach _ _ _ _ _ H) as Hr.
  split; [|split; [|split; [|split]]].
  - intros i Hm Hi. exact (preload_has_room N T T_bound tr s i Hr Hm Hi).
  - exact (closer_finds_open N T tr s Hr).
  - intros k g Hk Hpc.
    assert (is_done g = false) as Hd by (unfold is_done; by rewrite Hpc).
    pose proof (running_counted N T _ _ _ _ Hr Hk Hd). lia.
  - exact (reach_cap_inv _ _ _ _ Hr).
  - pose proof (reach_Inv N T T_bound _ _ Hr) as [_ Hmain Hfifo _].
    destruct (enqueued_shape _ _ _ Hmain) as (k & Hk & Henq).
    unfold fifo_inv in Hfifo. apply (f_equal length) in Hfifo.
    rewrite Henq, length_fmap, length_seqZ, length_app in Hfifo. lia.
Qed.

(** X8. No run deadlocks: in every state a run reaches in which [main]
    has not returned, some goroutine can take a step, whatever the
    environment answers. *)
Theorem no_deadlock evs tr s :
  0 <= T ->
  exec N T evs init = Some (tr, s) ->
  ~ terminated s ->
  exists a, enabled N T a s.
Proof.
  intros HT H Hnt. eapply reach_no_deadlock; [done | done | by eapply exec_reach | done].
Qed.

(** X9. The tasks leave the queue in the order of their ids: the tasks
    dequeued so far, by all workers together, are the tasks 1, 2, ... up
    to their number, and the queue holds the tasks that follow, in
    order. *)
Theorem tasks_delivered_in_order evs tr s :
  exec N T evs init = Some (tr, s) ->
  let d := Z.of_nat (length (dequeued tr)) in
  let b := Z.of_nat (length (buf (tasks (taskQueue s)))) in
  snd <$> dequeued tr = preload_task <$> seqZ 1 d
  /\ buf (tasks (taskQueue s)) = preload_task <$> seqZ (1 + d) b
  /\ d + b <= Z.max 0 T.
Proof.
  intros H d b.
  pose proof (exec_Inv _ _ T_bound _ _ _ H) as [_ Hmain Hfifo _].
  destruct (enqueued_shape _ _ _ Hmain) as (k & Hk & Henq).
  unfold fifo_inv in Hfifo. rewrite Henq in Hfifo.
  pose proof (f_equal length Hfifo) as Hlen.
  rewrite length_fmap, length_seqZ, length_app, length_fmap in Hlen.
  assert (seqZ 1 k = seqZ 1 d ++ seqZ (1 + d) b) as Hk'.
  { rewrite <- seqZ_app by lia.
    destruct (Z.le_gt_cases 0 k); [f_equal; lia|].
    rewrite !seqZ_nil by lia. done. }
  rewrite Hk', fmap_app in Hfifo.
  apply app_inj_1 in Hfifo as [H1 H2].
  - split; [done|]. split; [done | lia].
  - rewrite !length_fmap, length_seqZ. lia.
Qed.

(** X10. A worker leaves its loop only when every task has been taken:
    when a worker finds the queue closed and empty, the queue has been
    closed, all [T] tasks have been dequeued before, and no task is
    enqueued or dequeued afterwards. *)
Theorem drained_means_all_taken evs tr1 w tr2 s :
  exec N T evs init = Some (tr1 ++ LDrained w :: tr2, s) ->
  In LClose tr1
  /\ snd <$> dequeued tr1 = preload_task <$> seqZ 1 T
  /\ dequeued tr2 = []
  /\ enqueued tr2 = [].
Proof.
  intros H.
  destruct (exec_split _ _ _ _ _ _ _ _ H) as (evs1 & e & evs2 & s1 & s2 & -> & H1 & Hs & H2).
  pose proof (exec_reach _ _ _ _ _ H1) as Hr1.
  pose proof (reach_Inv N T T_bound _ _ Hr1) as [[Hgo1 _ _ _ _ _] Hmain1 Hfifo1 _].
  assert (closed (tasks (taskQueue s1)) = true /\ buf (tasks (taskQueue s1)) = [])
    as [Hclosed Hbuf].
  { split_step Hs.
    - main_cases Hs.
    - closer_cases Hs.
    - run_cases Hs. done. }
  destruct Hgo1 as (Hp1 & Hc1 & Hcl1).
  pose proof (proj1 Hcl1 Hclosed) as Hcc.
  assert (past_preload (main s1) = true) as Hpp.
  { apply closer_past_preload; [done | congruence]. }
  assert (enqueued tr1 = preload_task <$> seqZ 1 T) as Henq1.
  { unfold main_inv in Hmain1. destruct (main s1); try done; tauto. }
  unfold fifo_inv in Hfifo1. rewrite Hbuf, app_nil_r in Hfifo1.
  split; [by eapply closer_closed_in_trace|]. split; [congruence|].
  pose proof (exec_Inv _ _ T_bound _ _ _ H) as [_ Hmain Hfifo _].
  assert (past_preload (main s) = true) as Hp.
  { eapply exec_past_preload; [done|].
    eapply (exec_past_preload _ _ [e] s1); [|done]. simpl. by rewrite Hs. }
  assert (enqueued (tr1 ++ LDrained w :: tr2) = preload_task <$> seqZ 1 T) as Hall.
  { unfold main_inv in Hmain. destruct (main s); try done; tauto. }
  unfold fifo_inv in Hfifo. rewrite Hall in Hfifo.
  unfold enqueued, dequeued in *.
  rewrite bind_app, bind_cons in Hall. rewrite bind_app, bind_cons in Hfifo.
  cbn [app] in Hall, Hfifo. rewrite fmap_app, <- Hfifo1, Henq1 in Hfifo.
  rewrite Henq1 in Hall.
  rewrite <- (app_nil_r (preload_task <$> seqZ 1 T)) in Hall at 2.
  apply app_inv_head in Hall. split; [|done].
  rewrite <- (app_nil_r (preload_task <$> seqZ 1 T)) in Hfifo at 1.
  rewrite <- app_assoc in Hfifo. apply app_inv_head in Hfifo.
  symmetry in Hfifo. apply app_eq_nil in Hfifo as [Hd _].
  by apply fmap_nil_inv in Hd.
Qed.

Hypothesis N_bound : N < max_int.

(** X11. Every run is finite and its length is known: a run has at
    most [7 T + 6 N + 8] steps (for non-negative [N] and [T]), the steps
    it has taken and the steps its last state is away from the end always
    add up to that number, and a run in which [main] has returned, with at
    least one worker, has exactly that many steps. *)
Theorem run_length evs tr s :
  exec N T evs init = Some (tr, s) ->
  Z.of_nat (length evs) + steps_left N T s = 7 * Z.max 0 T + 6 * Z.max 0 N + 8
  /\ Z.of_nat (length evs) <= 7 * Z.max 0 T + 6 * Z.max 0 N + 8
  /\ (1 <= N -> terminated s -> Z.of_nat (length evs) = 7 * T + 6 * N + 8).
Proof.
  intros H. pose proof (exec_reach _ _ _ _ _ H) as Hr.
  destruct (reach_left N T T_bound N_bound _ _ Hr) as [Hsteps _].
  rewrite (exec_length _ _ _ _ _ _ H) in Hsteps.
  pose proof (left_nonneg N T s) as [Hnn _].
  split; [done|]. split; [lia|]. intros HN Ht.
  destruct (terminated_nothing_left N T N_bound _ _ HN Hr Ht) as (_ & _ & _ & H0 & _).
  pose proof (reach_Inv N T T_bound _ _ Hr) as [_ Hmain _ _].
  unfold main_inv, terminated in *. rewrite Ht in Hmain. lia.
Qed.

(** X12. Every run can be continued to the end: from every state a run
    reaches there is a continuation after which [main] has returned. *)
Theorem every_run_can_finish evs tr s :
  0 <= T ->
  exec N T evs init = Some (tr, s) ->
  exists evs' tr' s',
    exec N T (evs ++ evs') init = Some (tr ++ tr', s') /\ terminated s'.
Proof.
  intros HT H. pose proof (exec_reach _ _ _ _ _ H) as Hr.
  pose proof (left_nonneg N T s) as [Hnn _].
  destruct (can_finish_from N T T_bound N_bound (Z.to_nat (steps_left N T s)) tr s)
    as (evs' & tr' & s' & Hex & Ht & _); [done | done | lia |].
  exists evs', tr', s'. split; [|done]. by eapply exec_app.
Qed.

(** X13. The number of calls of [Log] is known: a run makes at most
    [3 T + 3 N + 4] of them, and a run in which [main] has returned, with
    at least one worker, has made exactly that many: four by [main], one
    for each task preloaded, three by each worker for itself and two for
    each task processed.  If no write of the log failed, this is the
    number of entries of the log file. *)
Theorem log_has_all_entries evs tr s :
  exec N T evs init = Some (tr, s) ->
  Z.of_nat (length (logged tr)) <= 3 * Z.max 0 T + 3 * Z.max 0 N + 4
  /\ (1 <= N -> terminated s ->
      Z.of_nat (length (logged tr)) = 3 * T + 3 * N + 4
      /\ (stderr s = [] ->
          Z.of_nat (length (log_file (logger s))) = 3 * T + 3 * N + 4)).
Proof.
  intros H. pose proof (exec_reach _ _ _ _ _ H) as Hr.
  destruct (reach_left N T T_bound N_bound _ _ Hr) as [_ Hlogs].
  pose proof (left_nonneg N T s) as [_ Hnn].
  split; [lia|]. intros HN Ht.
  destruct (terminated_nothing_left N T N_bound _ _ HN Hr Ht) as (_ & _ & _ & _ & H0).
  pose proof (reach_Inv N T T_bound _ _ Hr) as [_ Hmain _ _].
  unfold main_inv, terminated in *. rewrite Ht in Hmain.
  assert (Z.of_nat (length (logged tr)) = 3 * T + 3 * N + 4) as Hn by lia.
  split; [done|]. intros Herr.
  destruct (log_account_length _ _ _ (reach_log_inv N T _ _ Hr)) as [Hlen _]. lia.
Qed.

(** X14. No task is lost: when [main] has returned and there was at
    least one worker, the queue is closed and empty, the [T] tasks have
    been dequeued in the order of their ids, each has been handed to
    [WriteResult] once, the lines of the results file and the failed
    writes are together [T], and the counts the workers reported add up to
    [T]; if no write failed, the ids on the lines of the results file are
    the ids 1 to [T], each once. *)
Theorem every_task_processed evs tr s :
  1 <= N ->
  exec N T evs init = Some (tr, s) ->
  terminated s ->
  closed (tasks (taskQueue s)) = true
  /\ buf (tasks (taskQueue s)) = []
  /\ snd <$> dequeued tr = preload_task <$> seqZ 1 T
  /\ write_attempts tr ≡ₚ preload_task <$> seqZ 1 T
  /\ (length (result_lines s) + length (failed_writes tr))%nat = Z.to_nat T
  /\ sumZ (reported tr) = T
  /\ (failed_writes tr = [] ->
      exists ids, line_task_ids (result_lines s) = Some ids /\ ids ≡ₚ seqZ 1 T).
Proof.
  intros HN H Ht. pose proof (exec_reach _ _ _ _ _ H) as Hr.
  destruct (terminated_nothing_left N T N_bound _ _ HN Hr Ht) as (Hcl & Hbuf & _).
  destruct (all_tasks_attempted N T evs tr s) as [Hdeq Hwa]; try done.
  pose proof (reach_Inv N T T_bound _ _ Hr)
    as [[_ _ Hfile [_ Hlab] _ Hrep] Hmain _ [Hcount _]].
  pose proof (terminated_all_done _ _ _ _ _ H Ht) as Hd.
  assert (length (write_attempts tr) = Z.to_nat T) as Hlen.
  { apply Permutation_length in Hwa. by rewrite Hwa, length_fmap, length_seqZ. }
  split; [done|]. split; [done|]. split; [done|]. split; [done|].
  split; [|split].
  - by rewrite (result_lines_length _ _ Hfile Hlab), <- write_attempts_length.
  - unfold report_inv in Hrep.
    rewrite Hrep, (all_done_final_count _ Hd), Hcount, (all_done_writing _ Hd), Hlen.
    unfold main_inv, terminated in *. rewrite Ht in Hmain. cbn [length]. lia.
  - intros Hf. eexists. split.
    + rewrite (result_lines_written _ _ Hfile Hlab Hf).
      by apply (line_task_ids_written tr).
    + rewrite (written_all_attempts _ Hf), Hwa. by rewrite ID_preload_tasks.
Qed.

(** X15. [wg.Wait] returns only when every worker has returned: once
    [main] is past it, the counter is zero, the [N] workers with ids 1 to
    [N] are all done and hold no task, [N] times a worker has found the
    queue closed and empty and [N] times a worker has called [wg.Done],
    and in whatever follows the workers take no step: no task is dequeued,
    no result is written and the results file stays as it is. *)
Theorem wait_returns_after_all_workers evs tr s :
  exec N T evs init = Some (tr, s) ->
  past_wait (main s) = true ->
  wg s = 0
  /\ all_done s = true
  /\ W_ID <$> pool s = seqZ 1 N
  /\ holding s = []
  /\ length (drained tr) = Z.to_nat N
  /\ length (reported tr) = Z.to_nat N
  /\ (forall evs' tr' s',
         exec N T evs' s = Some (tr', s') ->
         pool s' = pool s
         /\ result_lines s' = result_lines s
         /\ dequeued tr' = [] /\ write_attempts tr' = []).
Proof.
  intros H Hp. pose proof (exec_reach _ _ _ _ _ H) as Hr.
  pose proof (reach_Inv0 N T _ _ Hr) as [_ _ _ _ (Hwg & Hdone & _) _].
  pose proof (reach_spawn_inv N T N_bound _ _ Hr) as [Hids Hsp].
  specialize (Hdone Hp).
  pose proof (proj2 (all_done_Forall s) Hdone) as Hall.
  assert (W_ID <$> pool s = seqZ 1 N) as Hpool
      by (rewrite Hids; by destruct (main s)).
  assert (length (pool s) = Z.to_nat N) as Hlen
      by (by rewrite <- (length_fmap W_ID), Hpool, length_seqZ).
  destruct (reach_exits_inv N T _ _ Hr) as [Hdr Hrp].
  rewrite (sumZ_ones is_done _ Hdone) in Hrp.
  rewrite (sumZ_ones left_loop) in Hdr.
  2: { eapply Forall_impl; [exact Hdone|]. intros g Hg. unfold is_done in Hg.
       unfold left_loop. by destruct (pc g). }
  split; [|split; [done|split; [done|split; [|split; [lia|split; [lia|]]]]]].
  - rewrite Hwg. clear -Hdone. induction Hdone as [|g l Hg _ IH]; [done|].
    rewrite fmap_cons, sumZ_cons, IH. unfold running_of. by rewrite Hg.
  - by apply all_done_holding.
  - intros evs' tr' s' H'.
    destruct (exec_after_wait _ _ _ _ H' Hp Hdone) as (Hpool' & _ & Hd & Hw & _).
    split; [done|]. split; [|done].
    destruct (exec_files _ _ _ _ H') as [(pieces & Hrw & Hpieces) _].
    rewrite (write_results_nil _ Hw) in Hpieces. apply Forall2_nil_inv_r in Hpieces.
    unfold result_lines. by rewrite Hrw, Hpieces, app_nil_r.
Qed.

(** X16. The workers are numbered from 1: at any moment the workers
    started so far have the ids 1, 2, ... in the order of their start, at
    most [N] of them, and all [N] once [main] is past the loop that starts
    them; the worker id of every line written to the results file lies
    between 1 and [N]. *)
Theorem workers_are_numbered evs tr s :
  exec N T evs init = Some (tr, s) ->
  (exists k, 0 <= k <= Z.max 0 N /\ W_ID <$> pool s = seqZ 1 k)
  /\ (past_spawn (main s) = true -> W_ID <$> pool s = seqZ 1 N)
  /\ spawned tr = W_ID <$> pool s
  /\ Forall (fun x => 1 <= fst (fst x) <= N) (written tr).
Proof.
  intros H. pose proof (exec_reach _ _ _ _ _ H) as Hr.
  pose proof (reach_spawn_inv N T N_bound _ _ Hr) as [Hids Hsp].
  pose proof (reach_Inv0 N T _ _ Hr) as [_ _ _ [_ Hlab] _ _].
  assert (exists k, 0 <= k <= Z.max 0 N /\ spawned tr = seqZ 1 k) as (k & Hk & Hspk).
  { destruct (main s); try (exists 0; split; [lia | done]);
      try (exists (Z.max 0 N); split; [lia|]; rewrite Hsp;
           destruct (Z.le_gt_cases 0 N);
           [f_equal; lia | by rewrite !seqZ_nil by lia]).
    destruct Hsp as [Hi ->]. exists (i - 1). split; [lia | done]. }
  split; [exists k; split; [done | congruence]|].
  split; [intros Hp; rewrite Hids; by destruct (main s)|].
  split; [done|].
  eapply Forall_impl; [apply (written_spawned tr), Hlab|].
  intros [[w t] r] [Hw _]. cbn [fst snd] in *. rewrite Hspk in Hw.
  apply list_elem_of_In, elem_of_seqZ in Hw. lia.
Qed.

(** X17. After a run, [displaySummary] prints the number of lines of
    the results file, which is the number of result writes that succeeded:
    whatever the pieces in which the reads deliver the file, the number it
    prints is the number of lines, and it logs nothing. *)
Theorem displaySummary_reports_result_lines evs tr s now stamp io reads :
  exec N T evs init = Some (tr, s) ->
  bytes_read reads = Some (file_bytes (rw_file (resultWriter s))) ->
  displaySummary now stamp io None reads (logger s)
  = Some (Some (Z.of_nat (length (result_lines s))), logger s, [])
  /\ length (result_lines s) = length (written tr)
  /\ (length (written tr) + length (failed_writes tr) <= Z.to_nat T)%nat.
Proof.
  intros H Hreads. pose proof (exec_reach _ _ _ _ _ H) as Hr.
  pose proof (reach_Inv N T T_bound _ _ Hr) as HI.
  destruct (write_attempts_ids _ _ _ HI) as (_ & Hnd & Hrange).
  destruct HI as [[_ _ Hfile [_ Hlab] _ _] _ _ _].
  pose proof (length_lines_of (rw_file (resultWriter s))) as Hocc.
  fold (result_lines s) in Hocc. symmetry in Hocc.
  assert (length (write_attempts tr) <= Z.to_nat T)%nat as Hle.
  { rewrite <- (length_fmap ID).
    destruct (Z.le_gt_cases 0 T) as [HT|HT].
    - rewrite <- (length_seqZ 1 T). apply submseteq_length, NoDup_submseteq; [done|].
      intros id Hin. apply elem_of_seqZ.
      pose proof (proj1 (Forall_forall _ _) Hrange id Hin) as Hid.
      cbn beta in Hid. lia.
    - destruct (ID <$> write_attempts tr) as [|id ids]; [cbn; lia|].
      apply Forall_cons in Hrange as [Hid _]. lia. }
  rewrite write_attempts_length in Hle.
  pose proof (result_lines_length _ _ Hfile Hlab) as Hlen.
  split; [|split; [done | lia]].
  unfold displaySummary.
  rewrite (read_loop_occ now stamp io (logger s) reads _ 0 Hreads); rewrite ?Hocc; try lia.
  - done.
  - unfold max_int, int_bits in *. lia.
Qed.

(** X18. Without a worker nothing is processed: when [N] is not
    positive no worker is ever started, no task is dequeued and the
    results file stays empty, and the tasks enqueued stay in the queue. *)
Theorem no_worker_no_result evs tr s :
  N <= 0 ->
  exec N T evs init = Some (tr, s) ->
  pool s = []
  /\ result_lines s = []
  /\ dequeued tr = []
  /\ buf (tasks (taskQueue s)) = enqueued tr.
Proof.
  intros HN H. pose proof (exec_reach _ _ _ _ _ H) as Hr.
  pose proof (reach_spawn_inv N T N_bound _ _ Hr) as [Hids Hsp].
  pose proof (reach_Inv N T T_bound _ _ Hr)
    as [[_ Hcons Hfile [_ Hlab] _ _] _ Hfifo _].
  assert (spawned tr = []) as Hnil.
  { destruct (main s); try done; try (rewrite Hsp; by rewrite seqZ_nil by lia).
    destruct Hsp as [Hi ->]. by rewrite seqZ_nil by lia. }
  rewrite Hnil in Hids. apply fmap_nil_inv in Hids.
  assert (write_attempts tr = []) as Hwa.
  { by eapply write_attempts_spawned. }
  assert (written tr = []) as Hw.
  { pose proof (written_sublist tr) as Hsub. rewrite Hwa in Hsub.
    apply sublist_nil_r in Hsub. by apply fmap_nil_inv in Hsub. }
  assert (dequeued tr = []) as Hd.
  { unfold conserve_inv, holding in Hcons.
    rewrite Hwa, (compute_failed_nil _ _ Hlab), Hids in Hcons. cbn in Hcons.
    apply Permutation_nil_r in Hcons. by apply fmap_nil_inv in Hcons. }
  split; [done|]. split; [|split; [done|]].
  - unfold file_inv in Hfile. rewrite (write_results_nil _ Hwa) in Hfile.
    apply Forall2_nil_inv_r in Hfile. unfold result_lines. by rewrite Hfile.
  - unfold fifo_inv in Hfifo. by rewrite Hd in Hfifo.
Qed.

End MoreRuns.

(** ** What the workers log and count *)

Lemma In_insert_other {A} (l : list A) i x y z :
  l !! i = Some x -> In z l -> z = x \/ In z (<[i:=y]> l).
Proof.
  intros Hl Hz. destruct (insert_split _ _ _ Hl) as (l1 & l2 & -> & Hins).
  rewrite Hins. rewrite in_app_iff in *. cbn [In] in *.
  destruct Hz as [?|[?|?]]; auto.
Qed.

Lemma In_insert_new {A} (l : list A) i x y :
  l !! i = Some x -> In y (<[i:=y]> l).
Proof.
  intros Hl. destruct (insert_split _ _ _ Hl) as (l1 & l2 & -> & Hins).
  rewrite Hins. apply in_or_app. right. by left.
Qed.

Lemma write_error_message_Sprintf g task err :
  Sprintf "ERROR: %s failed to write result for Task %d: %v"
          [ArgStr (workerName g); ArgInt (ID task); ArgStr err]
  = write_error_message (W_ID g) task err.
Proof.
  unfold workerName, write_error_message. simpl.
  by rewrite !append_empty_r, ?append_assoc_str.
Qed.

Lemma completed_message_Sprintf g task :
  Sprintf "%s completed Task %d" [ArgStr (workerName g); ArgInt (ID task)]
  = completed_message (W_ID g) task.
Proof.
  unfold workerName, completed_message. simpl.
  by rewrite !append_empty_r, ?append_assoc_str.
Qed.

Lemma failed_writes_snoc tr l :
  failed_writes (tr ++ [l])
  = failed_writes tr
    ++ match l with LWrite w t _ (Some err) => [(w, t, err)] | _ => [] end.
Proof. unfold failed_writes. by rewrite bind_snoc. Qed.

Lemma written_snoc tr l :
  written (tr ++ [l])
  = written tr ++ match l with LWrite w t r None => [(w, t, r)] | _ => [] end.
Proof. unfold written. by rewrite bind_snoc. Qed.

Lemma dequeued_by_snoc w tr l :
  dequeued_by w (tr ++ [l])
  = dequeued_by w tr
    ++ match l with
       | LDequeue w' t => if w' =? w then [t] else []
       | _ => []
       end.
Proof. unfold dequeued_by. by rewrite bind_snoc. Qed.

Section WorkersLog.

Variables N T : Z.

(** A step of a goroutine other than a given worker leaves this worker
    in the pool; a step of the worker itself is the step of its control
    point. *)
Lemma step_keeps_worker e s l s' g :
  step N T e s = Some (l, s') -> In g (pool s) ->
  In g (pool s')
  \/ exists i, pool s !! i = Some g /\ Run_step e i g s = Some (l, s').
Proof.
  intros H Hin. split_step H.
  - left. main_cases H; try done. apply in_or_app. by left.
  - left. by closer_cases H.
  - destruct (Run_step_frame _ _ _ _ _ _ H) as (_ & _ & g' & -> & _).
    destruct (In_insert_other _ _ _ g' _ Hg Hin) as [->|Hin']; [|by left].
    right. by exists i.
Qed.

Lemma outcome_inv_step tr s e l s' :
  outcome_inv tr s -> step N T e s = Some (l, s') -> outcome_inv (tr ++ [l]) s'.
Proof.
  intros [Hfail Hok] H. unfold outcome_inv.
  rewrite failed_writes_snoc, written_snoc, logged_snoc.
  split.
  - intros w t err Hin. apply in_app_iff in Hin as [Hin|Hin].
    + destruct (Hfail _ _ _ Hin) as [Hlog|(g & Hg & Hw & Hpc)].
      { left. apply in_or_app. by left. }
      destruct (step_keeps_worker _ _ _ _ _ H Hg) as [Hg'|(i & Hi & Hrun)].
      { right. by exists g. }
      left. unfold Run_step in Hrun. rewrite Hpc in Hrun. simplify_eq.
      rewrite write_error_message_Sprintf. apply in_or_app. right. by left.
    + right. split_step H.
      * main_cases H; done.
      * by closer_cases H.
      * run_cases H; try done. destruct Hin as [Hin|[]]. simplify_eq.
        eexists. split; [by eapply In_insert_new|]. done.
  - intros w t r Hin. apply in_app_iff in Hin as [Hin|Hin].
    + destruct (Hok _ _ _ Hin) as [Hlog|(g & Hg & Hw & Hpc)].
      { left. apply in_or_app. by left. }
      destruct (step_keeps_worker _ _ _ _ _ H Hg) as [Hg'|(i & Hi & Hrun)].
      { right. by exists g. }
      left. unfold Run_step in Hrun. rewrite Hpc in Hrun. simplify_eq.
      rewrite completed_message_Sprintf. apply in_or_app. right. by left.
    + right. split_step H.
      * main_cases H; done.
      * by closer_cases H.
      * run_cases H; try done. destruct Hin as [Hin|[]]. simplify_eq.
        eexists. split; [by eapply In_insert_new|]. done.
Qed.

Lemma reach_outcome_inv tr s : reach N T tr s -> outcome_inv tr s.
Proof. induction 1; [by split | by eapply outcome_inv_step]. Qed.

End WorkersLog.

Lemma finished_message_Sprintf g :
  Sprintf "%s finished after processing %d tasks"
          [ArgStr (workerName g); ArgInt (tasksProcessed g)]
  = finished_message (W_ID g) (tasksProcessed g).
Proof.
  unfold workerName, finished_message. simpl.
  by rewrite !append_empty_r, ?append_assoc_str.
Qed.

Lemma dequeued_by_nil w tr :
  (forall t, ~ In (w, t) (dequeued tr)) -> dequeued_by w tr = [].
Proof.
  unfold dequeued_by, dequeued. induction tr as [|l tr IH]; [done|].
  rewrite !bind_cons. intros Hn. rewrite IH.
  - destruct l; try done. destruct (Z.eqb_spec w0 w) as [->|]; [|done].
    destruct (Hn task). apply in_or_app. left. by left.
  - intros t Hin. apply (Hn t). apply in_or_app. by right.
Qed.

Lemma own_ok_mono tr l g :
  (forall t, l <> LDequeue (W_ID g) t) -> own_ok tr g -> own_ok (tr ++ [l]) g.
Proof.
  intros Hl [Hc Hf]. unfold own_ok. rewrite dequeued_by_snoc, logged_snoc. split.
  - rewrite Hc. do 2 f_equal.
    destruct l; rewrite ?app_nil_r; try done.
    destruct (Z.eqb_spec w (W_ID g)) as [->|]; [|by rewrite app_nil_r].
    by destruct (Hl task).
  - destruct (pc g); try done; apply in_or_app; by left.
Qed.

Section WorkersCount.

Variables N T : Z.
Hypothesis T_bound : T < max_int.
Hypothesis N_bound : N < max_int.

Lemma pool_ids_NoDup tr s : spawn_inv N tr s -> NoDup (W_ID <$> pool s).
Proof.
  intros [-> Hsp].
  destruct (main s); rewrite ?Hsp; try apply NoDup_seqZ; try apply NoDup_nil_2.
  destruct Hsp as [_ ->]. apply NoDup_seqZ.
Qed.

Lemma other_worker_id tr s i j g g' :
  spawn_inv N tr s -> pool s !! i = Some g -> pool s !! j = Some g' -> i <> j ->
  W_ID g <> W_ID g'.
Proof.
  intros Hsp Hi Hj Hne Heq. apply Hne.
  eapply (NoDup_lookup (W_ID <$> pool s)); [by eapply pool_ids_NoDup | |].
  - rewrite list_lookup_fmap, Hi. done.
  - rewrite list_lookup_fmap, Hj. cbn. by rewrite Heq.
Qed.

Lemma own_count_inv_step tr s e l s' :
  Inv T tr s -> spawn_inv N tr s ->
  own_count_inv tr s -> step N T e s = Some (l, s') -> own_count_inv (tr ++ [l]) s'.
Proof.
  intros HI Hspn (Hown & Hdone & Hdeq) H. unfold own_count_inv.
  pose proof HI as [[_ _ _ [Hheld _] _ _] _ _ _].
  split; [|split].
  - (* the counters *)
    pose proof H as H0. split_step H.
    + assert (Forall (own_ok (tr ++ [l])) (pool s)) as Hown'.
      { eapply Forall_impl; [exact Hown|]. intros g Hg. apply own_ok_mono; [|done].
        intros t ->. main_cases H. }
      main_cases H; try done.
      apply Forall_app. split; [done|]. apply Forall_singleton.
      split; [|done]. cbn [tasksProcessed W_ID uncounted pc].
      rewrite dequeued_by_snoc, app_nil_r, dequeued_by_nil; [done|].
      intros t Hin. apply Hdeq in Hin.
      destruct Hspn as [_ Hsp]. rewrite Hm in Hsp. destruct Hsp as [_ Hsp].
      rewrite Hsp in Hin. apply list_elem_of_In, elem_of_seqZ in Hin. lia.
    + closer_cases H. eapply Forall_impl; [exact Hown|].
      intros g Hg. by apply own_ok_mono.
    + pose proof (Forall_lookup_1 _ _ _ _ Hown Hg) as [Hc Hf].
      assert (forall t, pc g = WProcess t ->
                        wrap (tasksProcessed g + 1) = tasksProcessed g + 1) as Hwrap.
      { intros t Hpc. destruct (processed_bound _ _ _ _ _ _ HI Hg Hpc).
        apply wrap_small. unfold in_int, min_int, max_int, int_bits in *. lia. }
      unfold own_ok, uncounted in Hc, Hf.
      run_cases H; apply Forall_lookup_2; intros j gj Hj;
        (destruct (decide (j = i)) as [->|Hji];
         [rewrite list_lookup_insert_eq in Hj by (by eapply lookup_lt_Some);
          simplify_eq; unfold own_ok, uncounted;
          rewrite dequeued_by_snoc, logged_snoc, length_app; proj;
          rewrite ?Hpc in *; rewrite ?Z.eqb_refl, ?(Hwrap _ eq_refl); cbn [length];
          (split; [lia|]); try done
         |rewrite list_lookup_insert_ne in Hj by done;
          apply own_ok_mono; [|by eapply (Forall_lookup_1 _ _ _ _ Hown Hj)];
          intros t' Heq; simplify_eq;
          by destruct (other_worker_id _ _ _ _ _ _ Hspn Hg Hj ltac:(done))]).
      * rewrite finished_message_Sprintf. apply in_or_app. right. by left.
      * apply in_or_app. by left.
  - (* the reports *)
    apply Forall_app. split.
    + eapply Forall_impl; [exact Hdone|]. intros l0 Hl0.
      destruct l0; try done. destruct Hl0 as (g & Hg & Hw & Hd & Hn).
      destruct (step_keeps_worker _ _ _ _ _ _ _ H Hg) as [Hg'|(i & Hi & Hrun)].
      { by exists g. }
      unfold Run_step in Hrun. unfold is_done in Hd. by destruct (pc g).
    + apply Forall_singleton. split_step H.
      * main_cases H; done.
      * by closer_cases H.
      * run_cases H; try done. eexists. split; [by eapply In_insert_new|]. done.
  - (* only workers dequeue *)
    intros w t Hin. unfold dequeued, spawned in *.
    rewrite bind_snoc in Hin. rewrite bind_snoc.
    apply in_app_iff in Hin as [Hin|Hin].
    { apply in_or_app. left. by eapply Hdeq. }
    apply in_or_app. left. split_step H.
    + main_cases H; done.
    + by closer_cases H.
    + run_cases H; try done. destruct Hin as [Hin|[]]. simplify_eq.
      by destruct (Forall_lookup_1 _ _ _ _ Hheld Hg) as [Hs _].
Qed.

Lemma reach_own_count_inv tr s : reach N T tr s -> own_count_inv tr s.
Proof.
  induction 1 as [|tr s e l s' Hr IH H].
  - split; [constructor|]. split; [constructor | done].
  - eapply own_count_inv_step; [by apply (reach_Inv N) | by apply (reach_spawn_inv N T)
                               | done | done].
Qed.

End WorkersCount.

Lemma In_zip_with {A B C} (f : A -> B -> C) (l1 : list A) (l2 : list B) b :
  length l1 = length l2 -> In b l2 -> exists a, In (f a b) (zip_with f l1 l2).
Proof.
  revert l1. induction l2 as [|b0 l2 IH]; intros l1 Hlen Hin; [done|].
  destruct l1 as [|a l1]; [done|]. cbn [length] in Hlen. injection Hlen as Hlen.
  cbn [zip_with In]. destruct Hin as [->|Hin].
  - exists a. by left.
  - destruct (IH l1 Hlen Hin) as (a' & Ha'). exists a'. by right.
Qed.

Section WorkersTheorems.

Variables N T : Z.

(** X19. The outcome of every result write is logged: in a run in
    which every worker has returned, for each result write that failed
    the log has received the message that names the worker, the task and
    the error, and for each result write that succeeded the message that
    the worker completed the task; when nothing went to standard error,
    these messages are entries of the log file. *)
Theorem write_outcomes_are_logged evs tr s :
  exec N T evs init = Some (tr, s) ->
  all_done s = true ->
  (forall w t err,
      In (w, t, err) (failed_writes tr) ->
      In ("ERROR: Worker-" +++ itoa w +++ " failed to write result for Task "
          +++ itoa (ID t) +++ ": " +++ err) (logged tr))
  /\ (forall w t r,
         In (w, t, r) (written tr) ->
         In ("Worker-" +++ itoa w +++ " completed Task " +++ itoa (ID t)) (logged tr))
  /\ (stderr s = [] ->
      forall w t err,
        In (w, t, err) (failed_writes tr) ->
        exists now,
          In ("[" +++ now +++ "] "
              +++ ("ERROR: Worker-" +++ itoa w +++ " failed to write result for Task "
                   +++ itoa (ID t) +++ ": " +++ err) +++ newline)
             (log_file (logger s))).
Proof.
  intros H Hd. pose proof (exec_reach _ _ _ _ _ H) as Hr.
  destruct (reach_outcome_inv N T _ _ Hr) as [Hfail Hok].
  apply all_done_Forall in Hd.
  assert (forall g p, In g (pool s) -> pc g = p -> p = WDone) as Hpc.
  { intros g p Hg <-. apply list_elem_of_In in Hg.
    pose proof (proj1 (Forall_forall _ _) Hd g Hg) as Hdg. cbn beta in Hdg.
    unfold is_done in Hdg. by destruct (pc g). }
  assert (forall w t err,
             In (w, t, err) (failed_writes tr) ->
             In (write_error_message w t err) (logged tr)) as Hfail'.
  { intros w t err Hin.
    destruct (Hfail _ _ _ Hin) as [Hlog|(g & Hg & _ & Hg')]; [done|].
    by pose proof (Hpc _ _ Hg Hg'). }
  split; [exact Hfail'|]. split.
  - intros w t r Hin.
    destruct (Hok _ _ _ Hin) as [Hlog|(g & Hg & _ & Hg')]; [done|].
    by pose proof (Hpc _ _ Hg Hg').
  - intros Herr w t err Hin.
    destruct (log_account_quiet _ _ _ (reach_log_inv N T _ _ Hr) Herr)
      as (nows & Hlen & ->).
    apply (In_zip_with log_entry nows _ _ Hlen), Hfail', Hin.
Qed.

Hypothesis T_bound : T < max_int.
Hypothesis N_bound : N < max_int.

(** X20. A worker reports its own count: when a worker has called
    [wg.Done], the count it ended with is the number of tasks it has
    dequeued itself, it has logged that it finished after processing that
    many tasks, and its id lies between 1 and [N]. *)
Theorem worker_reports_its_own_count evs tr s w n :
  exec N T evs init = Some (tr, s) ->
  In (LDone w n) tr ->
  n = Z.of_nat (length (dequeued_by w tr))
  /\ In ("Worker-" +++ itoa w +++ " finished after processing " +++ itoa n +++ " tasks")
        (logged tr)
  /\ 1 <= w <= N.
Proof.
  intros H Hin. pose proof (exec_reach _ _ _ _ _ H) as Hr.
  destruct (reach_own_count_inv N T T_bound N_bound _ _ Hr) as (Hown & Hdone & _).
  pose proof (proj1 (Forall_forall _ _) Hdone _ (proj2 (list_elem_of_In _ _) Hin))
    as (g & Hg & <- & Hd & <-).
  apply list_elem_of_In in Hg.
  pose proof (proj1 (Forall_forall _ _) Hown g Hg) as [Hc Hf].
  unfold uncounted, is_done in *. destruct (pc g); try done.
  split; [lia|]. split; [done|].
  pose proof (reach_spawn_inv N T N_bound _ _ Hr) as [Hids Hsp].
  assert (W_ID g ∈ W_ID <$> pool s) as Hw by (by apply list_elem_of_fmap_2).
  rewrite Hids in Hw.
  destruct (main s); try (by rewrite Hsp in Hw; apply elem_of_nil in Hw);
    try (rewrite Hsp in Hw; apply elem_of_seqZ in Hw; lia).
  destruct Hsp as [Hi Hsp]. rewrite Hsp in Hw. apply elem_of_seqZ in Hw. lia.
Qed.

End WorkersTheorems.

(** ** The Java implementation, continued *)

Lemma Java_addTasks_queue l : forall w,
  JavaQueue.addTasks l w
  = (tt, Java.mkWorld (Java.mkTaskQueue (Java.queue (Java.taskQueue w) ++ l))
           (Java.resultWriter w) (Java.logger w) (Java.System_err w) (Java.answers w)).
Proof.
  induction l as [|t l IH]; intros [[q] rw lg se ans]; cbn [JavaQueue.addTasks].
  - unfold Java.ret. cbn. by rewrite app_nil_r.
  - unfold Java.bind, Java.addTask. cbn. rewrite IH. cbn. by rewrite <- app_assoc.
Qed.

Lemma Java_getTasks_queue k q : forall w,
  Java.queue (Java.taskQueue w) = q ->
  JavaQueue.getTasks (length q + k) w
  = ((Some <$> q) ++ replicate k None,
     Java.mkWorld (Java.mkTaskQueue [])
       (Java.resultWriter w) (Java.logger w) (Java.System_err w) (Java.answers w)).
Proof.
  induction q as [|t q IH]; intros [[q0] rw lg se ans] Hq; cbn in Hq; subst q0.
  - cbn [length Nat.add fmap list_fmap app]. induction k as [|k IHk]; [done|].
    cbn [JavaQueue.getTasks replicate]. unfold Java.bind, Java.getTask, Java.poll in *.
    cbn in *. by rewrite IHk.
  - cbn [length Nat.add JavaQueue.getTasks]. unfold Java.bind, Java.getTask, Java.poll.
    cbn. by rewrite IH.
Qed.

Lemma Java_ask_calm w :
  Java_calm w ->
  exists a,
    Java.a_io a = None /\ Java.a_interrupted a = false
    /\ Java.ask w
       = (a, Java.mkWorld (Java.taskQueue w) (Java.resultWriter w) (Java.logger w)
               (Java.System_err w) (tail (Java.answers w)))
    /\ Forall (fun a => Java.a_io a = None /\ Java.a_interrupted a = false)
              (tail (Java.answers w)).
Proof.
  destruct w as [q rw lg se ans]. unfold Java_calm, Java.ask. cbn.
  intros Hc. destruct ans as [|a ans].
  - by exists Java.fine.
  - apply Forall_cons in Hc as [[Hio Hint] Hc]. by exists a.
Qed.

Lemma Java_log_calm m w :
  Java_calm w ->
  exists now ans',
    Java.log m w
    = (tt, Java.mkWorld (Java.taskQueue w) (Java.resultWriter w)
             (Java.logger w ++ [log_entry now m]) (Java.System_err w) ans')
    /\ Forall (fun a => Java.a_io a = None /\ Java.a_interrupted a = false) ans'.
Proof.
  intros Hc. destruct (Java_ask_calm w Hc) as (a & Hio & _ & Hask & Hc').
  unfold Java.log, Java.bind. rewrite Hask. unfold file_write. rewrite Hio.
  cbn [Java.taskQueue Java.resultWriter Java.logger Java.System_err Java.answers].
  exists (Java.a_now a), (tail (Java.answers w)). split; [|done].
  unfold log_entry. by rewrite !append_assoc_str.
Qed.

Lemma Java_preload_loop_calm fuel : forall T i w,
  Java_calm w ->
  T * 100 <= Java.MAX_VALUE -> 1 <= i <= T + 1 ->
  (Z.to_nat (T + 1 - i) < fuel)%nat ->
  exists lg' ans',
    Java.preload_loop fuel T i w
    = (true,
       Java.mkWorld
         (Java.mkTaskQueue (Java.queue (Java.taskQueue w)
                            ++ (spec_task <$> seqZ i (T + 1 - i))))
         (Java.resultWriter w) (Java.logger w ++ lg') (Java.System_err w) ans')
    /\ length lg' = Z.to_nat (T + 1 - i)
    /\ Forall (fun a => Java.a_io a = None /\ Java.a_interrupted a = false) ans'.
Proof.
  induction fuel as [|fuel IH]; intros T i w Hc HT Hi Hfuel; [lia|].
  cbn [Java.preload_loop]. destruct (Z.leb_spec i T) as [Hle|Hgt].
  - unfold Java.bind at 1. cbn [Java.addTask].
    unfold Java.bind at 1.
    match goal with |- context [Java.log ?m ?w0] =>
      destruct (Java_log_calm m w0) as (now1 & ans1 & -> & Hc1); [exact Hc|] end.
    cbn [Java.taskQueue Java.resultWriter Java.logger Java.System_err Java.queue].
    assert (Java.wrap (i + 1) = i + 1) as ->
        by (apply Java_wrap_small; unfold Java.MAX_VALUE, Java.int_bits in *; lia).
    match goal with |- context [Java.preload_loop fuel T (i + 1) ?w1] =>
      destruct (IH T (i + 1) w1) as (lg' & ans' & -> & Hlen & Hc');
        [exact Hc1 | done | lia | lia |] end.
    cbn [Java.taskQueue Java.resultWriter Java.logger Java.System_err Java.queue].
    eexists (_ :: lg'), ans'. split; [|split; [|done]].
    + rewrite <- !app_assoc. cbn [app]. do 3 f_equal.
      rewrite (seqZ_cons i) by lia. rewrite fmap_cons.
      replace (Z.succ i) with (i + 1) by lia.
      replace (Z.pred (T + 1 - i)) with (T + 1 - (i + 1)) by lia.
      unfold spec_task at 2.
      by rewrite Java_wrap_small
        by (unfold Java.MAX_VALUE, Java.int_bits in *; lia).
    + cbn [length]. rewrite Hlen. lia.
  - exists [], (Java.answers w). split; [|split; [cbn [length]; lia | exact Hc]].
    rewrite seqZ_nil by lia. rewrite !app_nil_r. by destruct w as [[q] ? ? ? ?].
Qed.

Lemma Java_run_loop_calm workerId : forall q fuel n w,
  Java_calm w ->
  Java.queue (Java.taskQueue w) = q ->
  (length q < fuel)%nat ->
  - 2 ^ 31 <= n ->
  n + Z.of_nat (length q) <= Java.MAX_VALUE ->
  exists lg' ans',
    Java.run_loop fuel workerId n w
    = (Some (n + Z.of_nat (length q)),
       Java.mkWorld (Java.mkTaskQueue [])
         (Java.resultWriter w
          ++ ((fun t => result_line (ID t) workerId (DataValue t)
                                    (Java.wrap (DataValue t * 2 + ID t)) +++ newline)
              <$> q))
         (Java.logger w ++ lg') (Java.System_err w) ans')
    /\ length lg' = (2 * length q + 1)%nat
    /\ Forall (fun a => Java.a_io a = None /\ Java.a_interrupted a = false) ans'.
Proof.
  induction q as [|task rest IH]; intros fuel n w Hc Hq Hfuel Hn Hmax;
    (destruct fuel as [|fuel]; [cbn [length] in Hfuel; lia|]);
    destruct w as [[q0] rw lg se ans]; cbn [Java.taskQueue Java.queue] in Hq; subst q0.
  - cbn [Java.run_loop]. unfold Java.bind at 1. unfold Java.getTask, Java.poll.
    cbn [Java.taskQueue Java.queue Java.resultWriter Java.logger Java.System_err
         Java.answers].
    unfold Java.bind.
    match goal with |- context [Java.log ?m ?w0] =>
      destruct (Java_log_calm m w0) as (now1 & ans1 & -> & Hc1); [exact Hc|] end.
    cbn [Java.taskQueue Java.resultWriter Java.logger Java.System_err Java.queue].
    unfold Java.ret. eexists [_], ans1. split; [|split; [done | exact Hc1]].
    cbn [length fmap list_fmap]. rewrite app_nil_r. do 2 f_equal. lia.
  - cbn [Java.run_loop]. unfold Java.bind at 1. unfold Java.getTask, Java.poll.
    cbn [Java.taskQueue Java.queue Java.resultWriter Java.logger Java.System_err
         Java.answers].
    unfold Java.bind at 1.
    match goal with |- context [Java.log ?m ?w0] =>
      destruct (Java_log_calm m w0) as (now1 & ans1 & -> & Hc1); [exact Hc|] end.
    cbn [Java.taskQueue Java.resultWriter Java.logger Java.System_err Java.queue].
    unfold Java.bind at 1. unfold Java.processTask. unfold Java.bind at 1.
    match goal with |- context [Java.ask ?w0] =>
      destruct (Java_ask_calm w0) as (a2 & _ & Hint2 & -> & Hc2); [exact Hc1|] end.
    rewrite Hint2. unfold Java.ret at 1.
    cbn [Java.taskQueue Java.resultWriter Java.logger Java.System_err Java.answers].
    unfold Java.bind at 1. unfold Java.writeResult. unfold Java.bind at 1.
    match goal with |- context [Java.ask ?w0] =>
      destruct (Java_ask_calm w0) as (a3 & Hio3 & _ & -> & Hc3); [exact Hc2|] end.
    unfold file_write. rewrite Hio3.
    cbn [Java.taskQueue Java.resultWriter Java.logger Java.System_err Java.answers].
    unfold Java.bind at 1.
    match goal with |- context [Java.log ?m ?w0] =>
      destruct (Java_log_calm m w0) as (now4 & ans4 & -> & Hc4); [exact Hc3|] end.
    cbn [Java.taskQueue Java.resultWriter Java.logger Java.System_err Java.queue].
    assert (Java.wrap (n + 1) = n + 1) as ->
        by (apply Java_wrap_small; cbn [length] in Hmax; lia).
    match goal with |- context [Java.run_loop fuel workerId (n + 1) ?w1] =>
      destruct (IH fuel (n + 1) w1) as (lg' & ans' & -> & Hlen & Hc');
        [exact Hc4 | done | cbn [length] in Hfuel; lia | lia
        | cbn [length] in Hmax; lia |] end.
    cbn [Java.taskQueue Java.resultWriter Java.logger Java.System_err Java.queue].
    eexists (_ :: _ :: lg'), ans'. split; [|split; [|done]].
    + rewrite <- !app_assoc. cbn [app fmap list_fmap].
      rewrite Java_wrap_add_l. unfold result_line. rewrite !append_assoc_str.
      apply injective_projections; cbn [fst snd]; [|reflexivity].
      f_equal. cbn [length]. lia.
    + cbn [length]. rewrite Hlen. lia.
Qed.

Lemma Java_run_calm workerId q fuel w :
  Java_calm w ->
  Java.queue (Java.taskQueue w) = q ->
  (length q < fuel)%nat ->
  Z.of_nat (length q) <= Java.MAX_VALUE ->
  exists w',
    Java.run fuel workerId w = (Some (Z.of_nat (length q)), w')
    /\ Java.resultWriter w'
       = Java.resultWriter w
         ++ ((fun t => result_line (ID t) workerId (DataValue t)
                                   (Java.wrap (DataValue t * 2 + ID t)) +++ newline)
             <$> q)
    /\ Java.queue (Java.taskQueue w') = []
    /\ Java.System_err w' = Java.System_err w
    /\ length (Java.logger w') = (length (Java.logger w) + 2 * length q + 3)%nat.
Proof.
  intros Hc Hq Hfuel Hmax.
  unfold Java.run. unfold Java.bind at 1.
  match goal with |- context [Java.log ?m ?w0] =>
    destruct (Java_log_calm m w0) as (now2 & ans2 & -> & Hc2); [exact Hc|] end.
  unfold Java.bind at 1.
  match goal with |- context [Java.run_loop fuel workerId 0 ?w0] =>
    destruct (Java_run_loop_calm workerId q fuel 0 w0)
      as (lg3 & ans3 & -> & Hlen3 & Hc3); [exact Hc2 | done | done | lia | lia |] end.
  cbn [Java.taskQueue Java.resultWriter Java.logger Java.System_err Java.queue app].
  unfold Java.bind at 1.
  match goal with |- context [Java.log ?m ?w0] =>
    destruct (Java_log_calm m w0) as (now4 & ans4 & -> & Hc4); [exact Hc3|] end.
  cbn [Java.taskQueue Java.resultWriter Java.logger Java.System_err Java.queue].
  unfold Java.ret. rewrite Z.add_0_l.
  eexists. split; [reflexivity|].
  cbn [Java.taskQueue Java.resultWriter Java.logger Java.System_err Java.queue].
  split; [done|]. split; [done|]. split; [done|].
  rewrite !length_app. cbn [length]. rewrite Hlen3. lia.
Qed.

(** X21. The Java queue is first-in first-out and [size] and [isEmpty]
    agree with it: after [addTask] on each task of a list, the queue holds
    what it held followed by these tasks, [size] is their number and
    [isEmpty] holds exactly when there is none; as many calls of [getTask]
    return them in order, and every further call returns [null] and leaves
    the queue empty. *)
Theorem Java_queue_is_fifo l k w :
  Z.of_nat (length (Java.queue (Java.taskQueue w) ++ l)) <= Java.MAX_VALUE ->
  exists w1 w2,
    JavaQueue.addTasks l w = (tt, w1)
    /\ Java.queue (Java.taskQueue w1) = Java.queue (Java.taskQueue w) ++ l
    /\ JavaQueue.size (Java.taskQueue w1)
       = Z.of_nat (length (Java.queue (Java.taskQueue w))) + Z.of_nat (length l)
    /\ (JavaQueue.isEmpty (Java.taskQueue w1) = true
        <-> Java.queue (Java.taskQueue w) ++ l = [])
    /\ JavaQueue.getTasks (length (Java.queue (Java.taskQueue w) ++ l) + k) w1
       = ((Some <$> (Java.queue (Java.taskQueue w) ++ l)) ++ replicate k None, w2)
    /\ Java.queue (Java.taskQueue w2) = []
    /\ JavaQueue.isEmpty (Java.taskQueue w2) = true
    /\ Java.getTask w2 = (None, w2).
Proof.
  intros Hlen. rewrite Java_addTasks_queue. eexists _, _.
  split; [reflexivity|]. cbn [Java.taskQueue Java.queue].
  split; [done|]. unfold JavaQueue.isEmpty, JavaQueue.size. cbn [Java.queue].
  rewrite Java_wrap_small by lia. rewrite length_app in *.
  split; [lia|]. split.
  - rewrite Z.eqb_eq. rewrite <- length_zero_iff_nil, length_app. lia.
  - rewrite <- length_app.
    rewrite (Java_getTasks_queue k (Java.queue (Java.taskQueue w) ++ l)) by done.
    split; [reflexivity|]. by cbn.
Qed.

(** X22. When the sleep of the Java [processTask] is interrupted, the
    task is not computed, and yet it is counted and written: the worker
    logs the interruption, increments its counter, writes the line
    [Task <id> interrupted] to the results file, logs the task as
    completed and goes on with the next task. *)
Theorem Java_interrupted_task_is_written
    fuel workerId n w task rest now1 now2 io2 now3 now4 now5 more :
  Java.queue (Java.taskQueue w) = task :: rest ->
  Java.answers w
  = Java.mkAnswer now1 None false :: Java.mkAnswer now2 io2 true
    :: Java.mkAnswer now3 None false :: Java.mkAnswer now4 None false
    :: Java.mkAnswer now5 None false :: more ->
  Java.run_loop (S fuel) workerId n w
  = Java.run_loop fuel workerId (Java.wrap (n + 1))
      (Java.mkWorld (Java.mkTaskQueue rest)
         (Java.resultWriter w ++ ["Task " +++ itoa (ID task) +++ " interrupted" +++ newline])
         (Java.logger w
          ++ ["[" +++ now1 +++ "] " +++ "Worker-" +++ itoa workerId +++ " processing "
                  +++ Task_String task +++ newline;
              "[" +++ now3 +++ "] " +++ "ERROR: Worker-" +++ itoa workerId
                  +++ " interrupted during processing" +++ newline;
              "[" +++ now5 +++ "] " +++ "Worker-" +++ itoa workerId
                  +++ " completed Task " +++ itoa (ID task) +++ newline])
         (Java.System_err w) more).
Proof.
  intros Hq Ha. destruct w as [[q] rw lg se ans]. cbn in Hq, Ha. subst q ans.
  cbn [Java.run_loop]. unfold Java.bind, Java.getTask, Java.poll, Java.log,
    Java.processTask, Java.writeResult, Java.ask, Java.bind, Java.ret, file_write.
  cbn -[String.append Java.run_loop Task_String Java.wrap itoa].
  unfold Java.bind, Java.log, Java.ask, Java.bind, file_write.
  cbn -[String.append Java.run_loop Task_String Java.wrap itoa].
  rewrite <- !app_assoc. cbn [app].
  by rewrite !append_assoc_str.
Qed.

(** X23. A Java worker alone, in an environment in which no write
    fails and no sleep is interrupted, writes one line for each task of
    the queue, in the order of the queue, and returns their number; run
    after [preloadTasks], it writes the lines of the tasks 1 to [T] in
    this order, each with the value [id * 201], leaves the queue empty and
    nothing on standard error; the log then has one entry for each task
    preloaded, three of the worker for itself and two for each task. *)
Theorem Java_single_worker_run T workerId answers :
  0 <= T -> T * 201 <= Java.MAX_VALUE ->
  Forall (fun a => Java.a_io a = None /\ Java.a_interrupted a = false) answers ->
  exists w1 w2,
    Java.preloadTasks T (Java.start answers) = (true, w1)
    /\ Java.run (S (Z.to_nat T)) workerId w1 = (Some T, w2)
    /\ Java.resultWriter w2 = Java_line workerId <$> seqZ 1 T
    /\ Java.queue (Java.taskQueue w2) = []
    /\ Java.System_err w2 = []
    /\ length (Java.logger w2) = Z.to_nat (3 * T + 3).
Proof.
  intros HT0 HT Hc. unfold Java.preloadTasks.
  destruct (Java_preload_loop_calm (S (Z.to_nat T)) T 1 (Java.start answers))
    as (lg1 & ans1 & -> & Hlen1 & Hc1);
    [exact Hc | unfold Java.MAX_VALUE, Java.int_bits in *; lia | lia | lia |].
  cbn [Java.start Java.taskQueue Java.resultWriter Java.logger
       Java.System_err Java.queue app].
  match goal with |- exists w1 w2, (_, ?w0) = _ /\ _ =>
    destruct (Java_run_calm workerId (spec_task <$> seqZ 1 (T + 1 - 1))
                (S (Z.to_nat T)) w0)
      as (w2 & Hrun & Hrw & Hq & Hse & Hlg);
      [exact Hc1 | done | rewrite length_fmap, length_seqZ; lia
      | rewrite length_fmap, length_seqZ;
        unfold Java.MAX_VALUE, Java.int_bits in *; lia |];
    exists w0, w2 end.
  rewrite length_fmap, length_seqZ in *.
  cbn [Java.taskQueue Java.resultWriter Java.logger Java.System_err Java.queue app]
    in *.
  split; [done|]. split; [|split; [|split; [done|split; [done|]]]].
  - rewrite Hrun. do 2 f_equal. lia.
  - rewrite Hrw. rewrite <- list_fmap_compose.
    replace (T + 1 - 1) with T by lia.
    apply list_fmap_ext. intros j i Hi. apply lookup_seqZ in Hi as [-> Hj].
    unfold Java_line. cbn [compose spec_task ID DataValue]. do 2 f_equal.
    rewrite Java_wrap_small by (unfold Java.MAX_VALUE, Java.int_bits in *; lia). lia.
  - rewrite Hlg. lia.
Qed.

(** ** The further properties on concrete inputs *)

Lemma queue_round_trip_witness :
  let l := [preload_task 1; preload_task 2] in
  exists tq0,
    NewTaskQueue 2 = Ret tq0
    /\ (Z.of_nat (length l) <= 2 ->
        exists tq1,
          AddTasks tq0 l = Ret tq1
          /\ buf (tasks tq1) = l
          /\ GetTasks (length l) tq1 = Ret ((fun t => (t, true)) <$> l, tq0)
          /\ GetTask tq0 = Block)
    /\ (2 < Z.of_nat (length l) -> AddTasks tq0 l = Block).
Proof. apply (queue_round_trip 2 [preload_task 1; preload_task 2]). lia. Defined.

Lemma close_then_drain_witness :
  let tq := mkTaskQueue (mkChan [preload_task 1; preload_task 2] 5 false) in
  exists tq',
    Close tq = Ret tq'
    /\ GetTasks (length (buf (tasks tq)) + 2) tq'
       = Ret (((fun t => (t, true)) <$> buf (tasks tq)) ++ replicate 2 (zeroTask, false),
              mkTaskQueue (mkChan [] (cap (tasks tq)) true))
    /\ (forall t, AddTask tq' t = Panic "send on closed channel")
    /\ Close tq' = Panic "close of closed channel".
Proof.
  apply (close_then_drain (mkTaskQueue (mkChan [preload_task 1; preload_task 2] 5 false)) 2).
  reflexivity.
Defined.

Lemma countBytes_counts_witness :
  let s1 := [Byte.x61; Byte.x0a; Byte.x62] in
  let s2 := [Byte.x0a] in
  countBytes s1 Byte.x0a = Z.of_nat (occurrences Byte.x0a s1)
  /\ 0 <= countBytes s1 Byte.x0a <= Z.of_nat (length s1)
  /\ (countBytes s1 Byte.x0a = 0 <-> ~ In Byte.x0a s1)
  /\ countBytes (s1 ++ s2) Byte.x0a = countBytes s1 Byte.x0a + countBytes s2 Byte.x0a.
Proof.
  apply (countBytes_counts [Byte.x61; Byte.x0a; Byte.x62] [Byte.x0a] Byte.x0a).
  vm_compute. discriminate.
Defined.

Lemma displaySummary_counts_line_separators_witness :
  let now := "2025-11-02 10:00:00.000" in
  let stamp := "2025/11/02 10:00:00" in
  let l := mkLogger [] in
  let bs := file_bytes ["one" +++ newline; "two" +++ newline] in
  (forall reads,
      bytes_read reads = Some bs ->
      displaySummary now stamp None None reads l
      = Some (Some (Z.of_nat (occurrences Byte.x0a bs)), l, []))
  /\ (forall size,
         (0 < size)%nat ->
         displaySummary now stamp None None (chunks (S (length bs)) size bs) l
         = Some (Some (Z.of_nat (occurrences Byte.x0a bs)), l, []))
  /\ (forall reads,
         bytes_before_error reads = Some bs ->
         exists err,
           In err (reads ≫= (fun r => match r with ReadErr _ e => [e] | _ => [] end))
           /\ displaySummary now stamp None None reads l
              = Some (Some (Z.of_nat (occurrences Byte.x0a bs)),
                      fst (Log now stamp None l ("ERROR: Failed to read results file: " +++ err)),
                      snd (Log now stamp None l ("ERROR: Failed to read results file: " +++ err))))
  /\ (forall err reads,
         displaySummary now stamp None (Some err) reads l
         = Some (None,
                 fst (Log now stamp None l ("ERROR: Failed to open results file: " +++ err)),
                 snd (Log now stamp None l ("ERROR: Failed to open results file: " +++ err)))).
Proof.
  apply (displaySummary_counts_line_separators "2025-11-02 10:00:00.000"
           "2025/11/02 10:00:00" None
           (mkLogger []) (file_bytes ["one" +++ newline; "two" +++ newline])).
  vm_compute. discriminate.
Defined.

Lemma files_are_append_only_witness :
  let tr := trace_of 5 20 run_D in
  let s' := state_of 5 20 run_D in
  (exists pieces,
      rw_file (resultWriter s') = rw_file (resultWriter init) ++ pieces
      /\ Forall2 (fun piece a => piece_of (fst a +++ newline) (snd a) piece)
                 pieces (write_results tr))
  /\ log_file (logger init) `prefix_of` log_file (logger s')
  /\ stderr init `prefix_of` stderr s'.
Proof.
  apply (files_are_append_only 5 20 run_D init).
  vm_compute. reflexivity.
Defined.

Lemma log_calls_accounted_witness :
  let tr := trace_of 5 20 run_without_log in
  let s := state_of 5 20 run_without_log in
  log_account (logged tr) (log_file (logger s)) (stderr s)
  /\ length (log_file (logger s)) = length (logged tr)
  /\ (length (stderr s) <= length (logged tr))%nat
  /\ Forall2 (fun piece m =>
                exists now,
                  piece = "[" +++ now +++ "] " +++ m +++ newline
                  \/ proper_prefix piece ("[" +++ now +++ "] " +++ m +++ newline))
             (log_file (logger s)) (logged tr)
  /\ Forall (fun line => exists stamp err,
                 line = stamp +++ " ERROR: Failed to write log: " +++ err +++ newline)
            (stderr s)
  /\ (stderr s = [] ->
      exists nows,
        length nows = length (logged tr)
        /\ log_file (logger s)
           = zip_with (fun now m => "[" +++ now +++ "] " +++ m +++ newline)
                      nows (logged tr)).
Proof.
  apply (log_calls_accounted 5 20 run_without_log).
  vm_compute. reflexivity.
Defined.

Lemma queue_never_misused_witness :
  let s := state_of 5 20 run_B_begun in
  (forall i, main s = MPreload i -> i <= 20 ->
             exists tq, AddTask (taskQueue s) (preload_task i) = Ret tq)
  /\ (closer s = CSleeping -> exists tq, Close (taskQueue s) = Ret tq)
  /\ (forall k g, pool s !! k = Some g -> pc g = WExit -> 0 <= wg s - 1)
  /\ (main s <> MInit -> cap (tasks (taskQueue s)) = 20)
  /\ Z.of_nat (length (buf (tasks (taskQueue s)))) <= Z.max 0 20.
Proof.
  apply (queue_never_misused 5 20 eq_refl run_B_begun (trace_of 5 20 run_B_begun)).
  vm_compute. reflexivity.
Defined.

Lemma no_deadlock_witness :
  exists a, enabled 5 20 a (state_of 5 20 run_B_begun).
Proof.
  apply (no_deadlock 5 20 eq_refl run_B_begun (trace_of 5 20 run_B_begun)).
  - lia.
  - vm_compute. reflexivity.
  - vm_compute. discriminate.
Defined.

Lemma tasks_delivered_in_order_witness :
  let tr := trace_of 5 20 run_B_begun in
  let s := state_of 5 20 run_B_begun in
  let d := Z.of_nat (length (dequeued tr)) in
  let b := Z.of_nat (length (buf (tasks (taskQueue s)))) in
  snd <$> dequeued tr = preload_task <$> seqZ 1 d
  /\ buf (tasks (taskQueue s)) = preload_task <$> seqZ (1 + d) b
  /\ d + b <= Z.max 0 20.
Proof.
  apply (tasks_delivered_in_order 5 20 eq_refl run_B_begun).
  vm_compute. reflexivity.
Defined.

Lemma drained_means_all_taken_witness :
  let tr := trace_of 5 20 run_B in
  In LClose (fst (split_at_drained tr))
  /\ snd <$> dequeued (fst (split_at_drained tr)) = preload_task <$> seqZ 1 20
  /\ dequeued (snd (split_at_drained tr)) = []
  /\ enqueued (snd (split_at_drained tr)) = [].
Proof.
  apply (drained_means_all_taken 5 20 eq_refl run_B _ 1 _ (state_of 5 20 run_B)).
  vm_compute. reflexivity.
Defined.

Lemma run_length_witness :
  Z.of_nat (length run_B) + steps_left 5 20 (state_of 5 20 run_B)
  = 7 * Z.max 0 20 + 6 * Z.max 0 5 + 8
  /\ Z.of_nat (length run_B) <= 7 * Z.max 0 20 + 6 * Z.max 0 5 + 8
  /\ (1 <= 5 -> terminated (state_of 5 20 run_B) ->
      Z.of_nat (length run_B) = 7 * 20 + 6 * 5 + 8).
Proof.
  apply (run_length 5 20 eq_refl eq_refl run_B (trace_of 5 20 run_B)).
  vm_compute. reflexivity.
Defined.

Lemma every_run_can_finish_witness :
  exists evs' tr' s',
    exec 5 20 (run_B_begun ++ evs') init
    = Some (trace_of 5 20 run_B_begun ++ tr', s')
    /\ terminated s'.
Proof.
  apply (every_run_can_finish 5 20 eq_refl eq_refl run_B_begun
           (trace_of 5 20 run_B_begun) (state_of 5 20 run_B_begun)).
  - lia.
  - vm_compute. reflexivity.
Defined.

Lemma log_has_all_entries_witness :
  let tr := trace_of 5 20 run_B in
  let s := state_of 5 20 run_B in
  Z.of_nat (length (logged tr)) <= 3 * Z.max 0 20 + 3 * Z.max 0 5 + 4
  /\ (1 <= 5 -> terminated s ->
      Z.of_nat (length (logged tr)) = 3 * 20 + 3 * 5 + 4
      /\ (stderr s = [] ->
          Z.of_nat (length (log_file (logger s))) = 3 * 20 + 3 * 5 + 4)).
Proof.
  apply (log_has_all_entries 5 20 eq_refl eq_refl run_B).
  vm_compute. reflexivity.
Defined.

Lemma every_task_processed_witness :
  let tr := trace_of 5 20 run_D in
  let s := state_of 5 20 run_D in
  closed (tasks (taskQueue s)) = true
  /\ buf (tasks (taskQueue s)) = []
  /\ snd <$> dequeued tr = preload_task <$> seqZ 1 20
  /\ write_attempts tr ≡ₚ preload_task <$> seqZ 1 20
  /\ (length (result_lines s) + length (failed_writes tr))%nat = Z.to_nat 20
  /\ sumZ (reported tr) = 20
  /\ (failed_writes tr = [] ->
      exists ids, line_task_ids (result_lines s) = Some ids /\ ids ≡ₚ seqZ 1 20).
Proof.
  apply (every_task_processed 5 20 eq_refl eq_refl run_D).
  - lia.
  - vm_compute. reflexivity.
  - vm_compute. reflexivity.
Defined.

Lemma wait_returns_after_all_workers_witness :
  let tr := trace_of 5 20 run_B in
  let s := state_of 5 20 run_B in
  wg s = 0
  /\ all_done s = true
  /\ W_ID <$> pool s = seqZ 1 5
  /\ holding s = []
  /\ length (drained tr) = Z.to_nat 5
  /\ length (reported tr) = Z.to_nat 5
  /\ (forall evs' tr' s',
         exec 5 20 evs' s = Some (tr', s') ->
         pool s' = pool s
         /\ result_lines s' = result_lines s
         /\ dequeued tr' = [] /\ write_attempts tr' = []).
Proof.
  apply (wait_returns_after_all_workers 5 20 eq_refl run_B).
  - vm_compute. reflexivity.
  - vm_compute. reflexivity.
Defined.

Lemma workers_are_numbered_witness :
  let tr := trace_of 5 20 run_B in
  let s := state_of 5 20 run_B in
  (exists k, 0 <= k <= Z.max 0 5 /\ W_ID <$> pool s = seqZ 1 k)
  /\ (past_spawn (main s) = true -> W_ID <$> pool s = seqZ 1 5)
  /\ spawned tr = W_ID <$> pool s
  /\ Forall (fun x => 1 <= fst (fst x) <= 5) (written tr).
Proof.
  apply (workers_are_numbered 5 20 eq_refl run_B).
  vm_compute. reflexivity.
Defined.

Lemma displaySummary_reports_result_lines_witness :
  let tr := trace_of 5 20 run_D in
  let s := state_of 5 20 run_D in
  let reads := chunks 2000 100 (file_bytes (rw_file (resultWriter s))) in
  displaySummary "2025-11-02 10:00:01.000" "2025/11/02 10:00:01" None None reads (logger s)
  = Some (Some (Z.of_nat (length (result_lines s))), logger s, [])
  /\ length (result_lines s) = length (written tr)
  /\ (length (written tr) + length (failed_writes tr) <= Z.to_nat 20)%nat.
Proof.
  apply (displaySummary_reports_result_lines 5 20 eq_refl run_D).
  - vm_compute. reflexivity.
  - vm_compute. reflexivity.
Defined.

Lemma no_worker_no_result_witness :
  let tr := trace_of 0 3 run_no_worker in
  let s := state_of 0 3 run_no_worker in
  pool s = []
  /\ result_lines s = []
  /\ dequeued tr = []
  /\ buf (tasks (taskQueue s)) = enqueued tr.
Proof.
  apply (no_worker_no_result 0 3 eq_refl eq_refl run_no_worker).
  - lia.
  - vm_compute. reflexivity.
Defined.

Lemma Java_queue_is_fifo_witness :
  let l := [spec_task 1; spec_task 2] in
  let w := Java.start [] in
  exists w1 w2,
    JavaQueue.addTasks l w = (tt, w1)
    /\ Java.queue (Java.taskQueue w1) = Java.queue (Java.taskQueue w) ++ l
    /\ JavaQueue.size (Java.taskQueue w1)
       = Z.of_nat (length (Java.queue (Java.taskQueue w))) + Z.of_nat (length l)
    /\ (JavaQueue.isEmpty (Java.taskQueue w1) = true
        <-> Java.queue (Java.taskQueue w) ++ l = [])
    /\ JavaQueue.getTasks (length (Java.queue (Java.taskQueue w) ++ l) + 1) w1
       = ((Some <$> (Java.queue (Java.taskQueue w) ++ l)) ++ replicate 1 None, w2)
    /\ Java.queue (Java.taskQueue w2) = []
    /\ JavaQueue.isEmpty (Java.taskQueue w2) = true
    /\ Java.getTask w2 = (None, w2).
Proof.
  apply (Java_queue_is_fifo [spec_task 1; spec_task 2] 1 (Java.start [])).
  vm_compute. discriminate.
Defined.

Lemma Java_interrupted_task_is_written_witness :
  let now := "2025-11-02 10:00:00.000" in
  let task := spec_task 7 in
  let w := Java.mkWorld (Java.mkTaskQueue [task]) [] [] []
             [Java.mkAnswer now None false; Java.mkAnswer now None true;
              Java.mkAnswer now None false; Java.mkAnswer now None false;
              Java.mkAnswer now None false] in
  Java.run_loop 2 3 0 w
  = Java.run_loop 1 3 (Java.wrap (0 + 1))
      (Java.mkWorld (Java.mkTaskQueue [])
         (Java.resultWriter w ++ ["Task " +++ itoa (ID task) +++ " interrupted" +++ newline])
         (Java.logger w
          ++ ["[" +++ now +++ "] " +++ "Worker-" +++ itoa 3 +++ " processing "
                  +++ Task_String task +++ newline;
              "[" +++ now +++ "] " +++ "ERROR: Worker-" +++ itoa 3
                  +++ " interrupted during processing" +++ newline;
              "[" +++ now +++ "] " +++ "Worker-" +++ itoa 3
                  +++ " completed Task " +++ itoa (ID task) +++ newline])
         (Java.System_err w) []).
Proof.
  apply (Java_interrupted_task_is_written 1 3 0
           (Java.mkWorld (Java.mkTaskQueue [spec_task 7]) [] [] []
              [Java.mkAnswer "2025-11-02 10:00:00.000" None false;
               Java.mkAnswer "2025-11-02 10:00:00.000" None true;
               Java.mkAnswer "2025-11-02 10:00:00.000" None false;
               Java.mkAnswer "2025-11-02 10:00:00.000" None false;
               Java.mkAnswer "2025-11-02 10:00:00.000" None false])
           (spec_task 7) []
           "2025-11-02 10:00:00.000" "2025-11-02 10:00:00.000" None
           "2025-11-02 10:00:00.000" "2025-11-02 10:00:00.000"
           "2025-11-02 10:00:00.000" []).
  - reflexivity.
  - reflexivity.
Defined.

Lemma Java_single_worker_run_witness :
  exists w1 w2,
    Java.preloadTasks 20 (Java.start []) = (true, w1)
    /\ Java.run (S (Z.to_nat 20)) 1 w1 = (Some 20, w2)
    /\ Java.resultWriter w2 = Java_line 1 <$> seqZ 1 20
    /\ Java.queue (Java.taskQueue w2) = []
    /\ Java.System_err w2 = []
    /\ length (Java.logger w2) = Z.to_nat (3 * 20 + 3).
Proof.
  apply (Java_single_worker_run 20 1 []).
  - lia.
  - vm_compute. discriminate.
  - constructor.
Defined.

Lemma write_outcomes_are_logged_witness :
  let tr := trace_of 5 20 run_D in
  let s := state_of 5 20 run_D in
  (forall w t err,
      In (w, t, err) (failed_writes tr) ->
      In ("ERROR: Worker-" +++ itoa w +++ " failed to write result for Task "
          +++ itoa (ID t) +++ ": " +++ err) (logged tr))
  /\ (forall w t r,
         In (w, t, r) (written tr) ->
         In ("Worker-" +++ itoa w +++ " completed Task " +++ itoa (ID t)) (logged tr))
  /\ (stderr s = [] ->
      forall w t err,
        In (w, t, err) (failed_writes tr) ->
        exists now,
          In ("[" +++ now +++ "] "
              +++ ("ERROR: Worker-" +++ itoa w +++ " failed to write result for Task "
                   +++ itoa (ID t) +++ ": " +++ err) +++ newline)
             (log_file (logger s))).
Proof.
  apply (write_outcomes_are_logged 5 20 run_D).
  - vm_compute. reflexivity.
  - vm_compute. reflexivity.
Defined.

Lemma worker_reports_its_own_count_witness :
  let tr := trace_of 5 20 run_D in
  8 = Z.of_nat (length (dequeued_by 1 tr))
  /\ In ("Worker-" +++ itoa 1 +++ " finished after processing " +++ itoa 8 +++ " tasks")
        (logged tr)
  /\ 1 <= 1 <= 5.
Proof.
  apply (worker_reports_its_own_count 5 20 eq_refl eq_refl run_D
           (trace_of 5 20 run_D) (state_of 5 20 run_D) 1 8).
  - vm_compute. reflexivity.
  - apply (nth_error_In _ 148). vm_compute. reflexivity.
Defined.

(** ** Every task is computed, and every run can be completed *)

Section Computed.

Variables N T : Z.







Hypothesis T_bound : T * 201 <= max_int.
Hypothesis N_bound : N < max_int.




End Computed.




(** ** Preloading *)



(** ** The claims on the results file, on concrete runs *)



Lemma result_line_shape id w v p x :
  result_line id w v p +++ newline = "Task " +++ x ->
  exists tail, x = leading_number x +++ " processed by Worker-" +++ tail.
Proof.
  unfold result_line. rewrite !append_assoc_str. cbn [String.append].
  intros [= <-]. rewrite leading_number_itoa by done. by eexists.
Qed.

Lemma result_line_format_witness :
  let tr := trace_of 5 20 run_B in
  let s := state_of 5 20 run_B in
  (forall w task r,
      In (w, task, r) (written tr) ->
      In w (spawned tr)
      /\ In (w, task) (dequeued tr)
      /\ r = result_line (ID task) w (DataValue task)
                         (wrap (DataValue task * 2 + ID task))
      /\ In (r +++ newline) (rw_file (resultWriter s)))
  /\ (exists w task,
        In w (spawned tr)
        /\ In (w, task) (dequeued tr)
        /\ "Task 1 processed by Worker-1 | Original: 100 | Processed: 201" +++ newline
           = result_line (ID task) w (DataValue task)
                         (wrap (DataValue task * 2 + ID task))
             +++ newline).
Proof.
  destruct (result_line_format 5 20 run_B (trace_of 5 20 run_B) (state_of 5 20 run_B))
    as (Hw & Hline & _).
  - vm_compute. reflexivity.
  - split; [exact Hw|].
    destruct (Hline ("Task 1 processed by Worker-1 | Original: 100 | Processed: 201"
                     +++ newline))
      as (junk & w & task & Hs & Hd & Heq & Hj).
    + apply (nth_error_In _ 0). vm_compute. reflexivity.
    + rewrite Hj in Heq by (vm_compute; reflexivity).
      exists w, task. split; [exact Hs|]. split; [exact Hd | exact Heq].
Defined.

(** C7, as stated, fails in two ways.  In the Go program, when the
    write of the result of task 12 fails after six bytes, the results file
    has a line that is not of the format.  In the Java program, when the
    sleep of the compute step is interrupted, the line written for the
    task, which the worker then logs as completed, is
    [Task 1 interrupted]. *)
Lemma lines_not_of_the_format :
  (let s := state_of 5 20 run_torn in
   exec 5 20 run_torn init = Some (trace_of 5 20 run_torn, s)
   /\ In ("Task 1Task 13 processed by Worker-4 | Original: 1300 | Processed: 2613"
          +++ newline)
         (result_lines s)
   /\ forall id w v p,
        "Task 1Task 13 processed by Worker-4 | Original: 1300 | Processed: 2613"
        +++ newline
        <> result_line id w v p +++ newline)
  /\ (let w := snd (Java_scenario_A Java_interrupting) in
      Java.resultWriter w = ["Task 1 interrupted" +++ newline]
      /\ In ("[2025-11-02 10:00:00.000] Worker-1 completed Task 1" +++ newline)
            (Java.logger w)
      /\ forall id wk v p,
           "Task 1 interrupted" +++ newline <> result_line id wk v p +++ newline).
Proof.
  split; [split; [vm_compute; reflexivity|split]|split; [|split]].
  - apply (nth_error_In _ 12). vm_compute. reflexivity.
  - intros id w v p Heq. symmetry in Heq.
    change ("Task 1Task 13 processed by Worker-4 | Original: 1300 | Processed: 2613"
            +++ newline)
      with ("Task "
            +++ ("1Task 13 processed by Worker-4 | Original: 1300 | Processed: 2613"
                 +++ newline)) in Heq.
    apply result_line_shape in Heq as [tail Heq]. cbn in Heq. discriminate.
  - vm_compute. reflexivity.
  - apply (nth_error_In _ 4). vm_compute. reflexivity.
  - intros id wk v p Heq. symmetry in Heq.
    change ("Task 1 interrupted" +++ newline)
      with ("Task " +++ ("1 interrupted" +++ newline)) in Heq.
    apply result_line_shape in Heq as [tail Heq]. cbn in Heq. discriminate.
Qed.

(** C5, as stated, fails on the Java worker when the sleep of its
    compute step is interrupted: the entry logged for the error names the
    worker and not the task, and the task is not abandoned: a line is
    written for it, it is logged as completed, and it is counted. *)
Lemma Java_interruption_is_logged_without_the_task :
  let w := snd (Java_scenario_A Java_interrupting) in
  fst (Java_scenario_A Java_interrupting) = Some 1
  /\ Java.resultWriter w = ["Task 1 interrupted" +++ newline]
  /\ Java.logger w
     = ["[2025-11-02 10:00:00.000] Task 1 added to queue" +++ newline;
        "[2025-11-02 10:00:00.000] Worker-1 started" +++ newline;
        "[2025-11-02 10:00:00.000] Worker-1 processing Task[id=1, description='Process data item 1', data=100]"
        +++ newline;
        "[2025-11-02 10:00:00.000] ERROR: Worker-1 interrupted during processing"
        +++ newline;
        "[2025-11-02 10:00:00.000] Worker-1 completed Task 1" +++ newline;
        "[2025-11-02 10:00:00.000] Worker-1 found empty queue, finishing" +++ newline;
        "[2025-11-02 10:00:00.000] Worker-1 finished after processing 1 tasks"
        +++ newline]
  /\ Java.System_err w = [].
Proof. vm_compute. repeat split; reflexivity. Qed.
